(** * An open-addressing hash table with pluggable hashing and probing

    Shallow embedding of [hash-functions.c] and [hash-table.c], and the
    properties of the table engine that were checked against it.

    Conventions of the embedding.
    - C integers are mathematical integers ([Z]); an [int] operation whose
      result leaves the range of a 32-bit [int] is undefined behaviour.
    - [size_t] lengths are natural numbers.
    - A byte is an integer; a key pointer is modelled by the bytes of the
      object it points to, so reading at or past the end of that list is an
      out-of-bounds read.  The null pointer is the pointer with no readable
      byte, [[]].
    - A [void *] value is an address ([Z]), [NULL] being [0].
    - A C function returns a [result]: a value, undefined behaviour, or
      no answer within the given number of loop iterations.
    - The messages of [printf] and of [fprintf (stderr, ...)] are not
      modelled; the contents dump is, as a list of lines. *)

From Stdlib Require Import ZArith Lia Bool String.
From stdpp Require Import base list.

Local Open Scope Z_scope.

(** ** Outcomes *)

Inductive result (A : Type) : Type :=
| Ok (a : A)
| Undefined
| OutOfFuel.

Arguments Ok {A} a.
Arguments Undefined {A}.
Arguments OutOfFuel {A}.

Definition bind {A B : Type} (m : result A) (k : A -> result B) : result B :=
  match m with
  | Ok a => k a
  | Undefined => Undefined
  | OutOfFuel => OutOfFuel
  end.

Notation "'let*' x ':=' m 'in' k" := (bind m (fun x => k))
  (at level 10, x pattern, m at level 100, k at level 200).

Definition returns {A : Type} (m : result A) : Prop := exists a, m = Ok a.

(** ** C arithmetic *)

Definition INT_MAX : Z := 2147483647.
Definition INT_MIN : Z := -2147483648.

(** The value of an [int] expression: undefined when it overflows. *)
Definition int_op (z : Z) : result Z :=
  if (INT_MIN <=? z) && (z <=? INT_MAX) then Ok z else Undefined.

(** [a % b] on integers: truncated remainder, undefined for [b = 0]. *)
Definition c_mod (a b : Z) : result Z :=
  if b =? 0 then Undefined else Ok (Z.rem a b).

(** ** The parts of the C library that the code calls *)

Abbreviation NULL := 0 (only parsing).

(** [key[i]]. *)
Definition read (key : list Z) (i : nat) : result Z :=
  match key !! i with
  | Some c => Ok c
  | None => Undefined
  end.

(** [strdup]: a copy of the bytes up to and including the first zero byte. *)
Fixpoint strdup (s : list Z) : result (list Z) :=
  match s with
  | [] => Undefined
  | c :: s' => if c =? 0 then Ok [0] else let* d := strdup s' in Ok (c :: d)
  end.

Fixpoint compare_bytes (s1 s2 : list Z) : Z :=
  match s1, s2 with
  | c1 :: r1, c2 :: r2 => if c1 =? c2 then compare_bytes r1 r2 else c1 - c2
  | _, _ => 0
  end.

(** [memcmp]: both objects must hold [n] bytes. *)
Definition memcmp (s1 s2 : list Z) (n : nat) : result Z :=
  if (n <=? length s1)%nat && (n <=? length s2)%nat
  then Ok (compare_bytes (take n s1) (take n s2))
  else Undefined.

(** [strncmp (name, lit, 3) == 0] for a three-character literal [lit]. *)
Definition strncmp3_eq (name lit : string) : bool := String.prefix lit name.

(** * hashtools.h *)

Module hashtools.

(** Modelled from the spec: the header [hashtools.h] is not among the
    sources.  A slot's validity is one of EMPTY, USED and DELETED, and
    the all-zero slot is EMPTY. *)
Inductive Validity : Type := HASH_EMPTY | HASH_USED | HASH_DELETED.

Global Instance Validity_eq_dec : EqDecision Validity.
Proof. solve_decision. Defined.

(** Modelled from the spec: the slot structure, with the field names
    that the sources use. *)
Record KeyDataPair : Type := mkKeyDataPair {
  key : list Z;
  keylen : nat;
  value : Z;
  validity : Validity
}.

(** The three hash functions and the three probing functions that
    [lookupNamedHashStrategy] and [lookupNamedProbingStrategy] return;
    a table holds one of these in each function pointer.  [HashIndex],
    which the header defines, is taken to be [int]: the probing functions
    return [-1] in it and the table operations keep it in an [int]. *)
Inductive HashAlgorithm : Type := HashBySum | HashByLength | HashByWeightSum.
Inductive HashProbe : Type := LinearProbe | QuadraticProbe | DoubleHashProbe.

(** Modelled from the spec: the table structure, with the field names
    that the sources use.  [size] and [nEntries] are [int]s; the three
    cost counters are taken as unbounded. *)
Record AssociativeArray : Type := mkAssociativeArray {
  hashAlgorithmPrimary : HashAlgorithm;
  hashNamePrimary : string;
  hashAlgorithmSecondary : HashAlgorithm;
  hashNameSecondary : string;
  hashProbe : HashProbe;
  probeName : string;
  table : list KeyDataPair;
  size : Z;
  nEntries : Z;
  insertCost : Z;
  searchCost : Z;
  deleteCost : Z
}.

End hashtools.
Export hashtools.

Definition set_table (a : AssociativeArray) (t : list KeyDataPair) : AssociativeArray :=
  mkAssociativeArray (hashAlgorithmPrimary a) (hashNamePrimary a)
    (hashAlgorithmSecondary a) (hashNameSecondary a) (hashProbe a) (probeName a)
    t (size a) (nEntries a) (insertCost a) (searchCost a) (deleteCost a).

Definition set_nEntries (a : AssociativeArray) (n : Z) : AssociativeArray :=
  mkAssociativeArray (hashAlgorithmPrimary a) (hashNamePrimary a)
    (hashAlgorithmSecondary a) (hashNameSecondary a) (hashProbe a) (probeName a)
    (table a) (size a) n (insertCost a) (searchCost a) (deleteCost a).

Definition set_insertCost (a : AssociativeArray) (n : Z) : AssociativeArray :=
  mkAssociativeArray (hashAlgorithmPrimary a) (hashNamePrimary a)
    (hashAlgorithmSecondary a) (hashNameSecondary a) (hashProbe a) (probeName a)
    (table a) (size a) (nEntries a) n (searchCost a) (deleteCost a).

Definition set_searchCost (a : AssociativeArray) (n : Z) : AssociativeArray :=
  mkAssociativeArray (hashAlgorithmPrimary a) (hashNamePrimary a)
    (hashAlgorithmSecondary a) (hashNameSecondary a) (hashProbe a) (probeName a)
    (table a) (size a) (nEntries a) (insertCost a) n (deleteCost a).

Definition set_deleteCost (a : AssociativeArray) (n : Z) : AssociativeArray :=
  mkAssociativeArray (hashAlgorithmPrimary a) (hashNamePrimary a)
    (hashAlgorithmSecondary a) (hashNameSecondary a) (hashProbe a) (probeName a)
    (table a) (size a) (nEntries a) (insertCost a) (searchCost a) n.

Definition set_validity (s : KeyDataPair) (v : Validity) : KeyDataPair :=
  mkKeyDataPair (key s) (keylen s) (value s) v.

(** [aarray->table[index]], read. *)
Definition slot (aarray : AssociativeArray) (index : Z) : result KeyDataPair :=
  if index <? 0 then Undefined
  else match table aarray !! Z.to_nat index with
       | Some s => Ok s
       | None => Undefined
       end.

Definition is_used (s : KeyDataPair) : bool := bool_decide (validity s = HASH_USED).
Definition is_deleted (s : KeyDataPair) : bool := bool_decide (validity s = HASH_DELETED).

(** * hash-functions.c *)

(** check if the two keys are the same *)
Definition doKeysMatch (key1 : list Z) (key1len : nat) (key2 : list Z) (key2len : nat)
  : result bool :=
  if negb (key1len =? key2len)%nat then Ok false
  else let* r := memcmp key1 key2 key1len in Ok (r =? 0).

(* provide the hex representation of a value *)
Definition toHex (val : Z) : Z :=
  if val <? 10 then 48 + val else 97 + (val - 10).

(** [isprint] in the C locale. *)
Definition isprint (c : Z) : bool := (32 <=? c) && (c <=? 126).

(** [snprintf (buffer, bufferlen, lit)] for a literal without conversions,
    followed by [strlen (buffer)]: the characters now in the buffer. *)
Definition snprintf_literal (bufferlen : Z) (lit : list Z) : result (list Z) :=
  if bufferlen <=? 0 then Undefined else Ok (take (Z.to_nat (bufferlen - 1)) lit).

Fixpoint printableKey_allChars (todo : nat) (key : list Z) (i : nat) : result bool :=
  match todo with
  | O => Ok true
  | S todo' =>
      let* c := read key i in
      if isprint c then printableKey_allChars todo' key (S i) else Ok false
  end.

(** The two copy loops; [out] holds the characters between [buffer] and
    [loadptr]. *)
Fixpoint printableKey_chars (todo : nat) (bufferlen : Z) (key : list Z) (i : nat)
    (out : list Z) : result (list Z) :=
  match todo with
  | O => Ok out
  | S todo' =>
      if Z.of_nat (length out) <? bufferlen - 2 then
        let* c := read key i in
        printableKey_chars todo' bufferlen key (S i) (out ++ [c])
      else Ok out
  end.

Fixpoint printableKey_hex (todo : nat) (bufferlen : Z) (key : list Z) (i : nat)
    (out : list Z) : result (list Z) :=
  match todo with
  | O => Ok out
  | S todo' =>
      if Z.of_nat (length out) <? bufferlen - 4 then
        let* c := read key i in
        printableKey_hex todo' bufferlen key (S i)
          (out ++ [toHex (Z.shiftr (Z.land c 240) 4); toHex (Z.land c 15)])
      else Ok out
  end.

(** The closing bracket and the terminator, written at [loadptr]. *)
Definition printableKey_close (bufferlen : Z) (out : list Z) : result (list Z) :=
  if Z.of_nat (length out) + 1 <? bufferlen then Ok (out ++ [93]) else Undefined.

(** Provide the key in a printable form: the function returns 1 and
    leaves the string in the buffer. *)
Definition printableKey (bufferlen : Z) (key : list Z) (printlen : nat)
  : result (Z * list Z) :=
  let* allChars := printableKey_allChars printlen key 0 in
  if allChars then
    let* out := snprintf_literal bufferlen [99; 104; 97; 114; 32; 107; 101; 121; 58; 91] in
    let* out := printableKey_chars printlen bufferlen key 0 out in
    let* out := printableKey_close bufferlen out in
    Ok (1, out)
  else
    let* out :=
      snprintf_literal bufferlen [104; 101; 120; 32; 107; 101; 121; 58; 91; 48; 120] in
    let* out := printableKey_hex printlen bufferlen key 0 out in
    let* out := printableKey_close bufferlen out in
    Ok (1, out).

(** [keyLength % size]: the [int] size is converted to [size_t] first. *)
Definition hashByLength (key : list Z) (keyLength : nat) (size : Z) : result Z :=
  let* r := c_mod (Z.of_nat keyLength) (size mod 2 ^ 64) in int_op r.

Fixpoint hashBySum_loop (todo : nat) (key : list Z) (i : nat) (sum : Z) : result Z :=
  match todo with
  | O => Ok sum
  | S todo' =>
      let* c := read key i in
      let* sum := int_op (sum + c) in
      hashBySum_loop todo' key (S i) sum
  end.

Definition hashBySum (key : list Z) (keyLength : nat) (size : Z) : result Z :=
  let* sum := hashBySum_loop keyLength key 0 0 in c_mod sum size.

Fixpoint hashByWeightSum_loop (todo : nat) (key : list Z) (i : nat) (sum multFactor : Z)
  : result Z :=
  match todo with
  | O => Ok sum
  | S todo' =>
      let* c := read key i in
      let* p := int_op (c * multFactor) in
      let* sum := int_op (sum + p) in
      let* multFactor := int_op (multFactor + 1) in
      hashByWeightSum_loop todo' key (S i) sum multFactor
  end.

Definition hashByWeightSum (key : list Z) (keyLength : nat) (size : Z) : result Z :=
  let* sum := hashByWeightSum_loop keyLength key 0 0 1 in c_mod sum size.

(** A call through a [HashAlgorithm] function pointer. *)
Definition call_hash (h : HashAlgorithm) : list Z -> nat -> Z -> result Z :=
  match h with
  | HashBySum => hashBySum
  | HashByLength => hashByLength
  | HashByWeightSum => hashByWeightSum
  end.

(** ** Probing *)

Definition bump_insertCost (aarray : AssociativeArray) : AssociativeArray :=
  set_insertCost aarray (insertCost aarray + 1).

Fixpoint linearProbe_loop (todo : nat) (aarray : AssociativeArray) (key : list Z)
    (keyLength : nat) (stopOnInvalid : bool) (currentIndex : Z)
  : result (Z * AssociativeArray) :=
  match todo with
  | O => Ok (-1, aarray)
  | S todo' =>
      let* next := int_op (currentIndex + 1) in
      let* currentIndex := c_mod next (size aarray) in
      let* s := slot aarray currentIndex in
      let* hit := (if negb (is_used s) then Ok true
                   else doKeysMatch key keyLength (hashtools.key s) (keylen s)) in
      if hit then
        Ok (currentIndex, if negb (is_used s) then bump_insertCost aarray else aarray)
      else if stopOnInvalid && is_deleted s then Ok (-1, aarray)
      else linearProbe_loop todo' aarray key keyLength stopOnInvalid currentIndex
  end.

(** The loop runs while [probeCost < aarray->size], [probeCost] counting
    up from 0: [size] iterations at most.  [cost] is the [int *cost]
    argument, [None] for a null pointer; no probe reads or writes through it. *)
Definition linearProbe (aarray : AssociativeArray) (key : list Z) (keyLength : nat)
    (index : Z) (stopOnInvalid : bool) (cost : option Z)
  : result (Z * AssociativeArray) :=
  linearProbe_loop (Z.to_nat (size aarray)) aarray key keyLength stopOnInvalid index.

(** The [for] loop of [quadraticProbe] has no exit condition; [fuel]
    bounds the number of iterations that the model follows. *)
Fixpoint quadraticProbe_loop (fuel : nat) (table : AssociativeArray) (key : list Z)
    (keyLength : nat) (index : Z) (stopOnInvalid : bool) (cost : option Z) (attempt : Z)
  : result (Z * AssociativeArray) :=
  match fuel with
  | O => OutOfFuel
  | S fuel' =>
      let* sq := int_op (attempt * attempt) in
      let* sum := int_op (index + sq) in
      let* newIndex := c_mod sum (size table) in
      let* s := slot table newIndex in
      let* hit := (if negb (is_used s) then Ok true
                   else doKeysMatch (hashtools.key s) (keylen s) key keyLength) in
      if hit then
        Ok (newIndex, if cost is Some _ then bump_insertCost table else table)
      else
        let table := bump_insertCost table in
        if stopOnInvalid && is_deleted s then Ok (-1, table)
        else
          let* attempt := int_op (attempt + 1) in
          quadraticProbe_loop fuel' table key keyLength index stopOnInvalid cost attempt
  end.

Definition quadraticProbe (fuel : nat) (table : AssociativeArray) (key : list Z)
    (keyLength : nat) (index : Z) (stopOnInvalid : bool) (cost : option Z)
  : result (Z * AssociativeArray) :=
  quadraticProbe_loop fuel table key keyLength index stopOnInvalid cost 1.

Fixpoint doubleHashProbe_loop (fuel : nat) (aarray : AssociativeArray) (key : list Z)
    (keyLength : nat) (index : Z) (stopOnInvalid : bool) (stepSize attempt : Z)
  : result (Z * AssociativeArray) :=
  match fuel with
  | O => OutOfFuel
  | S fuel' =>
      let* prod := int_op (attempt * stepSize) in
      let* sum := int_op (index + prod) in
      let* newIndex := c_mod sum (size aarray) in
      let* s := slot aarray newIndex in
      let* hit := (if negb (is_used s) then Ok true
                   else doKeysMatch (hashtools.key s) (keylen s) key keyLength) in
      if hit then
        Ok (newIndex, if negb (is_used s) then bump_insertCost aarray else aarray)
      else
        let aarray := bump_insertCost aarray in
        if stopOnInvalid && is_deleted s then Ok (-1, aarray)
        else
          let* attempt := int_op (attempt + 1) in
          doubleHashProbe_loop fuel' aarray key keyLength index stopOnInvalid stepSize attempt
  end.

Definition doubleHashProbe (fuel : nat) (aarray : AssociativeArray) (key : list Z)
    (keyLength : nat) (index : Z) (stopOnInvalid : bool) (cost : option Z)
  : result (Z * AssociativeArray) :=
  let* stepSize := call_hash (hashAlgorithmSecondary aarray) key keyLength (size aarray) in
  doubleHashProbe_loop fuel aarray key keyLength index stopOnInvalid stepSize 0.

(** A call through a [HashProbe] function pointer. *)
Definition call_probe (p : HashProbe) (fuel : nat)
  : AssociativeArray -> list Z -> nat -> Z -> bool -> option Z -> result (Z * AssociativeArray) :=
  match p with
  | LinearProbe => linearProbe
  | QuadraticProbe => quadraticProbe fuel
  | DoubleHashProbe => doubleHashProbe fuel
  end.

(** * hash-table.c *)

(** utilities to change names into functions *)
Definition lookupNamedHashStrategy (name : string) : HashAlgorithm :=
  if strncmp3_eq name "sum" then HashBySum
  else if strncmp3_eq name "len" then HashByLength
  else if strncmp3_eq name "wei" then HashByWeightSum
  else HashBySum.

Definition lookupNamedProbingStrategy (name : string) : HashProbe :=
  if strncmp3_eq name "lin" then LinearProbe
  else if strncmp3_eq name "qua" then QuadraticProbe
  else if strncmp3_eq name "dou" then DoubleHashProbe
  else LinearProbe.

(** The slot that [memset (..., 0, ...)] leaves. *)
Definition zero_slot : KeyDataPair := mkKeyDataPair [] 0 NULL HASH_EMPTY.

(** Create a hash table of the given size.  [getLargerPrime] is defined
    outside the sources and is an argument here; [None] is the [NULL]
    that the function returns when no size is found. *)
Definition aaCreateAssociativeArray (getLargerPrime : Z -> Z) (size : Z)
    (probingStrategy hashPrimary hashSecondary : string) : option AssociativeArray :=
  let newSize := getLargerPrime size in
  if newSize <? 1 then None
  else Some (mkAssociativeArray
               (lookupNamedHashStrategy hashPrimary) hashPrimary
               (lookupNamedHashStrategy hashSecondary) hashSecondary
               (lookupNamedProbingStrategy probingStrategy) probingStrategy
               (replicate (Z.to_nat newSize) zero_slot)
               newSize 0 0 0 0).

(** Primality by trial division, and the first prime among [n], [n + 1],
    ..., [n + todo - 1]. *)
Definition is_prime (n : Z) : bool :=
  (1 <? n) && forallb (fun d => negb (n mod Z.of_nat d =? 0)) (seq 2 (Z.to_nat n - 2)).

Fixpoint first_prime_from (todo : nat) (n : Z) : Z :=
  match todo with
  | O => -1
  | S todo' => if is_prime n then n else first_prime_from todo' (n + 1)
  end.

(** Modelled from the spec: [getLargerPrime], which is not among the
    sources, gives the smallest known prime that is at least the request,
    and fails (with a value below 1) beyond the largest known prime; the
    sources' comment says that the primes below 5000 are known. *)
Definition getLargerPrime_spec (n : Z) : Z := first_prime_from (Z.to_nat (5000 - n)) n.

(** iterate over the array, calling the user function on each valid value.
    [U] is the state that the user function reaches through [userdata];
    the user function gives its [int] result and the state it leaves,
    and does not change the table. *)
Section Iterate.

Context {U : Type}.
Variable userfunction : list Z -> nat -> Z -> U -> Z * U.

Fixpoint aaIterateAction_loop (todo : nat) (aarray : AssociativeArray) (i : Z)
    (userdata : U) : result (Z * U) :=
  match todo with
  | O => Ok (1, userdata)
  | S todo' =>
      let* s := slot aarray i in
      if is_used s then
        let '(r, userdata) := userfunction (key s) (keylen s) (value s) userdata in
        if r <? 0 then Ok (-1, userdata)
        else aaIterateAction_loop todo' aarray (i + 1) userdata
      else aaIterateAction_loop todo' aarray (i + 1) userdata
  end.

Definition aaIterateAction (aarray : AssociativeArray) (userdata : U) : result (Z * U) :=
  aaIterateAction_loop (Z.to_nat (size aarray)) aarray 0 userdata.

End Iterate.

(** How the [while] loop of [aaInsert] ends: with a [return] inside the
    loop, or with its condition false at [index]. *)
Inductive LoopEnd : Type :=
| Return (r : Z)
| Exit (index : Z).

Fixpoint aaInsert_loop (fuel : nat) (aarray : AssociativeArray) (key : list Z)
    (keylen : nat) (originalIndex cost index : Z) : result (LoopEnd * AssociativeArray) :=
  match fuel with
  | O => OutOfFuel
  | S fuel' =>
      let* s := slot aarray index in
      if is_used s then
        let* m := doKeysMatch (hashtools.key s) (hashtools.keylen s) key keylen in
        if m then Ok (Return (-1), aarray)
        else
          let* cost := int_op (cost + 1) in
          let* (index, aarray) :=
            call_probe (hashProbe aarray) fuel' aarray key keylen originalIndex false (Some cost) in
          if index =? originalIndex then Ok (Return (-1), aarray)
          else aaInsert_loop fuel' aarray key keylen originalIndex cost index
      else Ok (Exit index, aarray)
  end.

(** Add another key and data value to the table, provided there is room. *)
Definition aaInsert (fuel : nat) (aarray : AssociativeArray) (key : list Z) (keylen : nat)
    (value : Z) : result (Z * AssociativeArray) :=
  if size aarray <=? nEntries aarray then Ok (-1, aarray)
  else
    let* index := call_hash (hashAlgorithmPrimary aarray) key keylen (size aarray) in
    let* (e, aarray) := aaInsert_loop fuel aarray key keylen index 0 index in
    match e with
    | Return r => Ok (r, aarray)
    | Exit index =>
        let* copy := strdup key in
        let aarray :=
          set_table aarray
            (<[Z.to_nat index := mkKeyDataPair copy keylen value HASH_USED]> (table aarray)) in
        let* n := int_op (nEntries aarray + 1) in
        Ok (index, set_nEntries aarray n)
    end.

Fixpoint aaLookup_loop (fuel : nat) (aarray : AssociativeArray) (key : list Z)
    (keylen : nat) (originalIndex cost index : Z) : result (Z * AssociativeArray) :=
  match fuel with
  | O => OutOfFuel
  | S fuel' =>
      let* s := slot aarray index in
      if is_used s then
        let aarray := set_searchCost aarray (searchCost aarray + 1) in
        let* m := doKeysMatch (hashtools.key s) (hashtools.keylen s) key keylen in
        if m then Ok (value s, aarray)
        else
          let* (index, aarray) :=
            call_probe (hashProbe aarray) fuel' aarray key keylen originalIndex false (Some cost) in
          if index =? originalIndex then Ok (NULL, aarray)
          else aaLookup_loop fuel' aarray key keylen originalIndex cost index
      else Ok (NULL, aarray)
  end.

(** Locates the value associated with the given key, if present in the
    table; [NULL] if it is not. *)
Definition aaLookup (fuel : nat) (aarray : AssociativeArray) (key : list Z) (keylen : nat)
  : result (Z * AssociativeArray) :=
  let* index := call_hash (hashAlgorithmPrimary aarray) key keylen (size aarray) in
  aaLookup_loop fuel aarray key keylen index 0 index.

Fixpoint aaDelete_loop (fuel : nat) (aarray : AssociativeArray) (key : list Z)
    (keylen : nat) (originalIndex cost index : Z) : result (Z * AssociativeArray) :=
  match fuel with
  | O => OutOfFuel
  | S fuel' =>
      let* s := slot aarray index in
      if is_used s then
        let aarray := set_deleteCost aarray (deleteCost aarray + 1) in
        let* m := doKeysMatch (hashtools.key s) (hashtools.keylen s) key keylen in
        if m then
          let aarray :=
            set_table aarray (<[Z.to_nat index := set_validity s HASH_DELETED]> (table aarray)) in
          Ok (value s, aarray)
        else
          let* (index, aarray) :=
            call_probe (hashProbe aarray) fuel' aarray key keylen originalIndex false (Some cost) in
          if index =? originalIndex then Ok (NULL, aarray)
          else aaDelete_loop fuel' aarray key keylen originalIndex cost index
      else Ok (NULL, aarray)
  end.

(** Marks the slot of the given key as deleted and returns its value;
    [NULL] if the key is not found. *)
Definition aaDelete (fuel : nat) (aarray : AssociativeArray) (key : list Z) (keylen : nat)
  : result (Z * AssociativeArray) :=
  let* index := call_hash (hashAlgorithmPrimary aarray) key keylen (size aarray) in
  aaDelete_loop fuel aarray key keylen index 0 index.

(** Print out the entire aarray contents.  What is printed is modelled
    as one record per [fprintf] line; [Validity] has the three states only,
    so the line for an invalid validity state does not arise. *)
Inductive DumpLine : Type :=
| DumpHeader (tag : string) (size : Z)
| DumpInUse (tag : string) (i : Z) (keybuffer : list Z)
| DumpEmpty (tag : string) (i : Z)
| DumpDeleted (tag : string) (i : Z) (keybuffer : list Z).

Definition aaPrintContents_slot (aarray : AssociativeArray) (tag : string) (i : Z)
  : result DumpLine :=
  let* s := slot aarray i in
  match validity s with
  | HASH_USED =>
      let* (_, keybuffer) := printableKey 128 (key s) (keylen s) in
      Ok (DumpInUse tag i keybuffer)
  | HASH_EMPTY => Ok (DumpEmpty tag i)
  | HASH_DELETED =>
      let* (_, keybuffer) := printableKey 128 (key s) (keylen s) in
      Ok (DumpDeleted tag i keybuffer)
  end.

Fixpoint aaPrintContents_loop (todo : nat) (aarray : AssociativeArray) (tag : string)
    (i : Z) (out : list DumpLine) : result (list DumpLine) :=
  match todo with
  | O => Ok out
  | S todo' =>
      let* line := aaPrintContents_slot aarray tag i in
      aaPrintContents_loop todo' aarray tag (i + 1) (out ++ [line])
  end.

Definition aaPrintContents (aarray : AssociativeArray) (tag : string)
  : result (list DumpLine) :=
  aaPrintContents_loop (Z.to_nat (size aarray)) aarray tag 0
    [DumpHeader tag (size aarray)].

(** * Vocabulary of the properties *)

(** The slot array has [size] slots, as [aaCreateAssociativeArray] leaves
    it, and [size] is a positive [int]. *)
Definition well_formed (aarray : AssociativeArray) : Prop :=
  0 < size aarray <= INT_MAX /\ Z.of_nat (length (table aarray)) = size aarray.

(** Exact byte and length equality of two keys. *)
Definition same_key (key1 : list Z) (key1len : nat) (key2 : list Z) (key2len : nat) : Prop :=
  key1len = key2len /\ take key1len key1 = take key1len key2.

(** The calls that a client makes on a table, and their results in order:
    the slot index or [-1] for an insertion, the value pointer or [NULL]
    for a search or a deletion. *)
Inductive Operation : Type :=
| Insert (key : list Z) (keylen : nat) (value : Z)
| Lookup (key : list Z) (keylen : nat)
| Delete (key : list Z) (keylen : nat).

Definition run_operation (fuel : nat) (aarray : AssociativeArray) (op : Operation)
  : result (Z * AssociativeArray) :=
  match op with
  | Insert key keylen value => aaInsert fuel aarray key keylen value
  | Lookup key keylen => aaLookup fuel aarray key keylen
  | Delete key keylen => aaDelete fuel aarray key keylen
  end.

Fixpoint run_operations (fuel : nat) (aarray : AssociativeArray) (ops : list Operation)
  : result (list Z * AssociativeArray) :=
  match ops with
  | [] => Ok ([], aarray)
  | op :: ops' =>
      let* (r, aarray) := run_operation fuel aarray op in
      let* (rs, aarray) := run_operations fuel aarray ops' in
      Ok (r :: rs, aarray)
  end.

(** At most one USED slot holds any given key. *)
Definition unique_keys (aarray : AssociativeArray) : Prop :=
  forall (i j : nat) (si sj : KeyDataPair),
    table aarray !! i = Some si -> table aarray !! j = Some sj ->
    validity si = HASH_USED -> validity sj = HASH_USED ->
    same_key (key si) (keylen si) (key sj) (keylen sj) ->
    i = j.

(** The USED slots in index order, and what a traversal that calls the
    user function on each of them in turn, until one call gives a
    negative result, returns. *)
Definition used_slots (aarray : AssociativeArray) : list KeyDataPair :=
  filter (fun s => validity s = HASH_USED) (table aarray).

Fixpoint visit_in_order {U : Type} (userfunction : list Z -> nat -> Z -> U -> Z * U)
    (slots : list KeyDataPair) (userdata : U) : Z * U :=
  match slots with
  | [] => (1, userdata)
  | s :: slots' =>
      let '(r, userdata) := userfunction (key s) (keylen s) (value s) userdata in
      if r <? 0 then (-1, userdata) else visit_in_order userfunction slots' userdata
  end.

Definition set_hashProbe (a : AssociativeArray) (p : HashProbe) : AssociativeArray :=
  mkAssociativeArray (hashAlgorithmPrimary a) (hashNamePrimary a)
    (hashAlgorithmSecondary a) (hashNameSecondary a) p (probeName a)
    (table a) (size a) (nEntries a) (insertCost a) (searchCost a) (deleteCost a).

(** ** Insertions followed by searches *)

(** An entry is a key, its length and a value. *)
Definition insert_of (e : list Z * nat * Z) : Operation :=
  let '(key, keylen, value) := e in Insert key keylen value.

(** The keys of the entries are mutually distinct. *)
Definition distinct_keys (entries : list (list Z * nat * Z)) : Prop :=
  forall (i j : nat) (ki kj : list Z) (li lj : nat) (vi vj : Z),
    entries !! i = Some (ki, li, vi) -> entries !! j = Some (kj, lj, vj) ->
    same_key ki li kj lj -> i = j.

(** The key is a C string and the copy that [strdup] makes of it holds
    [keylen] bytes: no zero byte occurs before the last of them. *)
Definition storable_key (key : list Z) (keylen : nat) : Prop :=
  exists copy, strdup key = Ok copy /\ (keylen <= length copy)%nat.

(** The primary hash function of the table gives a slot index for the key. *)
Definition hash_in_range (aarray : AssociativeArray) (key : list Z) (keylen : nat) : Prop :=
  exists index,
    call_hash (hashAlgorithmPrimary aarray) key keylen (size aarray) = Ok index
    /\ 0 <= index < size aarray.

(** The first [keylen] bytes of the key are readable bytes, and there
    are few enough of them for the weighted sum to stay in an [int]. *)
Definition byte_key (key : list Z) (keylen : nat) : Prop :=
  (keylen <= length key)%nat /\ Z.of_nat keylen <= 4000
  /\ Forall (fun c => 0 <= c < 256) (take keylen key).

(** [aarray] with other values of the three cost counters, which is all
    that searches change. *)
Definition with_costs (aarray : AssociativeArray) (ic sc dc : Z) : AssociativeArray :=
  set_deleteCost (set_searchCost (set_insertCost aarray ic) sc) dc.

(** The entry of a C string: the bytes with their terminator, their
    number, and the value. *)
Definition c_string_entry (e : list Z * Z) : list Z * nat * Z :=
  (e.1 ++ [0], length e.1, e.2).

(** All the insertions return a slot, and afterwards the search for each
    key returns the value that was inserted with it, whatever the cost
    counters have become by then. *)
Definition inserts_then_lookups_succeed (fuel : nat) (aarray : AssociativeArray)
    (entries : list (list Z * nat * Z)) : Prop :=
  exists (rs : list Z) (aarray' : AssociativeArray),
    run_operations fuel aarray (map insert_of entries) = Ok (rs, aarray')
    /\ Forall (fun r => 0 <= r) rs
    /\ forall key keylen value, (key, keylen, value) ∈ entries ->
       forall ic sc dc, exists aarray'',
         aaLookup fuel (with_costs aarray' ic sc dc) key keylen = Ok (value, aarray'').

(** The USED slot [j] holds the key with the value. *)
Definition holds (aarray : AssociativeArray) (j : Z) (key : list Z) (keylen : nat)
    (value : Z) : Prop :=
  exists s, slot aarray j = Ok s /\ validity s = HASH_USED
            /\ doKeysMatch (hashtools.key s) (hashtools.keylen s) key keylen = Ok true
            /\ hashtools.value s = value.

(** The walk of a search with [fuel] reaches the key: it is in the slot
    of its hash index, or that slot is USED by another key and the
    probing function leads from there to the slot that holds the key. *)
Definition found_at (fuel : nat) (aarray : AssociativeArray) (key : list Z) (keylen : nat)
    (value : Z) : Prop :=
  exists index,
    call_hash (hashAlgorithmPrimary aarray) key keylen (size aarray) = Ok index
    /\ ((1 <= fuel)%nat /\ holds aarray index key keylen value
        \/ exists (fuel' : nat) (s0 : KeyDataPair) (cost : option Z) (j : Z)
                  (a1 : AssociativeArray),
             fuel = S (S fuel')
             /\ slot aarray index = Ok s0 /\ validity s0 = HASH_USED
             /\ doKeysMatch (hashtools.key s0) (hashtools.keylen s0) key keylen = Ok false
             /\ call_probe (hashProbe aarray) (S fuel') aarray key keylen index false cost
                = Ok (j, a1)
             /\ j <> index /\ holds aarray j key keylen value).

(** [aarray'] has the configuration of [aarray] and every USED slot of
    [aarray], unchanged. *)
Definition extends (aarray aarray' : AssociativeArray) : Prop :=
  size aarray' = size aarray
  /\ hashAlgorithmPrimary aarray' = hashAlgorithmPrimary aarray
  /\ hashAlgorithmSecondary aarray' = hashAlgorithmSecondary aarray
  /\ hashProbe aarray' = hashProbe aarray
  /\ forall (i : Z) (s : KeyDataPair),
       slot aarray i = Ok s -> validity s = HASH_USED -> slot aarray' i = Ok s.

(** The state of a table with linear probing after the insertion of
    the entries [done] and nothing else: the entry count is the number of
    USED slots and of entries, and every USED slot holds the copy of the
    key of one of the entries. *)
Definition linear_invariant (aarray : AssociativeArray)
    (done : list (list Z * nat * Z)) : Prop :=
  well_formed aarray
  /\ hashProbe aarray = LinearProbe
  /\ nEntries aarray = Z.of_nat (length (used_slots aarray))
  /\ nEntries aarray = Z.of_nat (length done)
  /\ forall (i : Z) (s : KeyDataPair),
       slot aarray i = Ok s -> validity s = HASH_USED ->
       exists (k : list Z) (v : Z), (k, keylen s, v) ∈ done /\ strdup k = Ok (key s).

(** ** Keys and tables of the examples *)

Definition key_a : list Z := [97; 0].
Definition key_b : list Z := [98; 0].
Definition key_c : list Z := [99; 0].
Definition key_abc : list Z := [97; 98; 99; 0].
Definition key_xyz : list Z := [120; 121; 122; 0].

(** The table of 3 slots with quadratic probing and hashing by length
    after the insertion of "a" and "b", and the one with double hashing
    after the insertion of "abc". *)
Definition table_a_b_quadratic : AssociativeArray :=
  mkAssociativeArray HashByLength "len" HashByLength "len" QuadraticProbe "quadratic"
    [zero_slot; mkKeyDataPair key_a 1 100 HASH_USED; mkKeyDataPair key_b 1 200 HASH_USED]
    3 2 1 0 0.

Definition table_abc_double : AssociativeArray :=
  mkAssociativeArray HashByLength "len" HashByLength "len" DoubleHashProbe "double"
    [mkKeyDataPair key_abc 3 100 HASH_USED; zero_slot; zero_slot]
    3 1 0 0 0.

(** Three entries with the keys "a", "b" and "c", and a key of three
    bytes whose second byte is zero. *)
Definition entries_a_b_c : list (list Z * nat * Z) :=
  [(key_a, 1%nat, 100); (key_b, 1%nat, 200); (key_c, 1%nat, 300)].

Definition key_with_zero : list Z := [1; 0; 2; 0].

(** The table of 3 slots with linear probing and hashing by length after
    the insertion of "a", "b" and "c", which is full; the same table
    after the deletion of "a"; and the table after the insertion of "a"
    and "b" and the deletion of "a". *)
Definition table_full_linear : AssociativeArray :=
  mkAssociativeArray HashByLength "len" HashByLength "len" LinearProbe "linear"
    [mkKeyDataPair key_c 1 300 HASH_USED; mkKeyDataPair key_a 1 100 HASH_USED;
     mkKeyDataPair key_b 1 200 HASH_USED]
    3 3 2 0 0.

Definition table_full_linear_without_a : AssociativeArray :=
  mkAssociativeArray HashByLength "len" HashByLength "len" LinearProbe "linear"
    [mkKeyDataPair key_c 1 300 HASH_USED; mkKeyDataPair key_a 1 100 HASH_DELETED;
     mkKeyDataPair key_b 1 200 HASH_USED]
    3 3 2 0 1.

Definition table_tombstone : AssociativeArray :=
  mkAssociativeArray HashByLength "len" HashByLength "len" LinearProbe "linear"
    [zero_slot; mkKeyDataPair key_a 1 100 HASH_DELETED; mkKeyDataPair key_b 1 200 HASH_USED]
    3 2 1 0 1.

(** A user function that records the values it is given and fails on
    the value [0]. *)
Definition record_values (key : list Z) (keylen : nat) (value : Z) (seen : list Z)
  : Z * list Z :=
  (if value =? 0 then -1 else 0, seen ++ [value]).

(** ** What an operation may change *)

(** [aarray'] is [aarray] with a larger or equal insert-cost counter and
    nothing else changed. *)
Definition only_insertCost (aarray aarray' : AssociativeArray) : Prop :=
  exists n, insertCost aarray <= n /\ aarray' = set_insertCost aarray n.

(** * Vocabulary of further properties *)

(** ** Closed forms of the hash sums *)

(** The sum of the bytes, and the sum of the bytes weighted by their
    position, the first position weighing [w]. *)
Fixpoint sum_bytes (l : list Z) : Z :=
  match l with
  | [] => 0
  | c :: l' => c + sum_bytes l'
  end.

Fixpoint weighted_sum (l : list Z) (w : Z) : Z :=
  match l with
  | [] => 0
  | c :: l' => c * w + weighted_sum l' (w + 1)
  end.

(** The bytes are unsigned characters. *)
Definition bytes (l : list Z) : Prop := Forall (fun c => 0 <= c < 256) l.

(** ** Renderings of a key *)

(** The text before the key in the two renderings, [char key:[] and
    [hex key:[0x], and the closing bracket. *)
Definition char_key_prefix : list Z := [99; 104; 97; 114; 32; 107; 101; 121; 58; 91].
Definition hex_key_prefix : list Z := [104; 101; 120; 32; 107; 101; 121; 58; 91; 48; 120].
Definition closing_bracket : list Z := [93].

(** Two hexadecimal digits per byte, and the value of a digit. *)
Definition hex_digits (l : list Z) : list Z :=
  flat_map (fun c => [toHex (Z.shiftr (Z.land c 240) 4); toHex (Z.land c 15)]) l.

Definition hex_value (d : Z) : Z := if d <? 58 then d - 48 else d - 87.

Definition is_hex_digit (d : Z) : Prop := 48 <= d <= 57 \/ 97 <= d <= 102.

(** What [printableKey] leaves in a buffer of [bufferlen] characters for
    the first [printlen] bytes of a key: the bytes as they are when all
    of them are printable, two hexadecimal digits per byte otherwise, cut
    to the room that the buffer leaves, between the prefix and the
    closing bracket. *)
Definition rendered_key (bufferlen : Z) (key : list Z) (printlen : nat) : list Z :=
  if forallb isprint (take printlen key)
  then char_key_prefix
       ++ take (Nat.min printlen (Z.to_nat (bufferlen - 12))) key
       ++ closing_bracket
  else hex_key_prefix
       ++ hex_digits (take (Nat.min printlen (Z.to_nat ((bufferlen - 14) / 2))) key)
       ++ closing_bracket.

(** ** What a probe does with a slot *)

(** The probe for the key passes over slot [i], which is USED by another
    key, or stops at it, because it is not USED or holds the key. *)
Definition rejects (aarray : AssociativeArray) (key : list Z) (keyLength : nat) (i : Z)
  : Prop :=
  exists s, slot aarray i = Ok s /\ validity s = HASH_USED
            /\ doKeysMatch key keyLength (hashtools.key s) (keylen s) = Ok false.

Definition accepts (aarray : AssociativeArray) (key : list Z) (keyLength : nat) (i : Z)
  : Prop :=
  exists s, slot aarray i = Ok s
            /\ (validity s <> HASH_USED
                \/ (validity s = HASH_USED
                    /\ doKeysMatch key keyLength (hashtools.key s) (keylen s) = Ok true)).

(** ** A table after a deletion *)

(** [A'] is [A] with slot [j] made not USED: same capacity and secondary
    hash function, same slots elsewhere. *)
Definition frees_slot (A A' : AssociativeArray) (j : Z) : Prop :=
  size A' = size A
  /\ hashAlgorithmSecondary A' = hashAlgorithmSecondary A
  /\ (forall i s, i <> j -> slot A i = Ok s -> slot A' i = Ok s)
  /\ exists s', slot A' j = Ok s' /\ validity s' <> HASH_USED.

(** ** Sequences of operations *)

(** What is fixed when a table is created: the strategies, their names,
    the capacity and the number of slots. *)
Definition same_configuration (aarray aarray' : AssociativeArray) : Prop :=
  hashAlgorithmPrimary aarray' = hashAlgorithmPrimary aarray
  /\ hashNamePrimary aarray' = hashNamePrimary aarray
  /\ hashAlgorithmSecondary aarray' = hashAlgorithmSecondary aarray
  /\ hashNameSecondary aarray' = hashNameSecondary aarray
  /\ hashProbe aarray' = hashProbe aarray
  /\ probeName aarray' = probeName aarray
  /\ size aarray' = size aarray
  /\ length (table aarray') = length (table aarray).

(** How one operation may leave a slot: as it was; USED, if it was not
    and the operation is an insertion, with the copy that [strdup]
    makes of the key; or DELETED with its key, length and value, if it
    was USED and the operation is a deletion. *)
Definition slot_step (op : Operation) (before after : option KeyDataPair) : Prop :=
  after = before
  \/ (exists key keylen value s copy,
        op = Insert key keylen value /\ before = Some s /\ validity s <> HASH_USED
        /\ strdup key = Ok copy
        /\ after = Some (mkKeyDataPair copy keylen value HASH_USED))
  \/ (exists key keylen s,
        op = Delete key keylen /\ before = Some s /\ validity s = HASH_USED
        /\ after = Some (set_validity s HASH_DELETED)).

(** How one operation may leave the slot array: as it was; with one slot
    that was not USED replaced by a USED slot that holds the copy that
    [strdup] makes of the key, the key length and the value, if the
    operation is an insertion; or with one USED slot made DELETED, its
    key, length and value kept, if the operation is a deletion.  Every
    other slot is as it was. *)
Definition table_step (op : Operation) (before after : list KeyDataPair) : Prop :=
  after = before
  \/ (exists key keylen value (i : nat) s copy,
        op = Insert key keylen value /\ before !! i = Some s /\ validity s <> HASH_USED
        /\ strdup key = Ok copy
        /\ after = <[i := mkKeyDataPair copy keylen value HASH_USED]> before)
  \/ (exists key keylen (i : nat) s,
        op = Delete key keylen /\ before !! i = Some s /\ validity s = HASH_USED
        /\ after = <[i := set_validity s HASH_DELETED]> before).

(** ** The contents dump *)

(** The line of the dump for a slot: its kind follows the validity of the
    slot, it carries the tag and the slot index, and for a slot that is
    USED or DELETED the rendering of the slot's key in the buffer of 128
    characters of [aaPrintContents]. *)
Definition line_of_slot (tag : string) (i : Z) (s : KeyDataPair) : DumpLine :=
  match validity s with
  | HASH_USED => DumpInUse tag i (rendered_key 128 (key s) (keylen s))
  | HASH_EMPTY => DumpEmpty tag i
  | HASH_DELETED => DumpDeleted tag i (rendered_key 128 (key s) (keylen s))
  end.

(** The key bytes of every slot that is not EMPTY are readable up to the
    slot's key length. *)
Definition keys_readable (aarray : AssociativeArray) : Prop :=
  forall (i : nat) (s : KeyDataPair),
    table aarray !! i = Some s -> validity s <> HASH_EMPTY ->
    (keylen s <= length (key s))%nat.

(** ** Another table of the examples *)

(** The table of 3 slots with linear probing after the insertion of "a"
    and "b", the deletion of "a" and the insertion of "c". *)
Definition table_tombstone_with_c : AssociativeArray :=
  mkAssociativeArray HashByLength "len" HashByLength "len" LinearProbe "linear"
    [zero_slot; mkKeyDataPair key_c 1 300 HASH_USED; mkKeyDataPair key_b 1 200 HASH_USED]
    3 3 1 0 1.

(** ** Names of strategies *)

(** The first three characters of a name, fewer if the name is shorter. *)
Definition first_three (name : string) : string := String.substring 0 3 name.

(** * Proof tools *)

(** Case analysis on the first step of a computation that returned. *)
Tactic Notation "inv_bind" hyp(H) "as" simple_intropattern(x) "eqn" ":" ident(E) :=
  match type of H with
  | bind ?m _ = Ok _ =>
      destruct m as [x| |] eqn:E; simpl in H; [|discriminate H|discriminate H]
  end.

Tactic Notation "inv_bind" hyp(H) "as" simple_intropattern(x) :=
  let E := fresh "E" in inv_bind H as x eqn:E.

(** * Basic facts *)

Lemma int_op_Ok (z r : Z) : int_op z = Ok r -> r = z /\ INT_MIN <= z <= INT_MAX.
Proof.
  unfold int_op. destruct (INT_MIN <=? z) eqn:E1, (z <=? INT_MAX) eqn:E2; simpl;
    intros H; inversion H; subst. lia.
Qed.

Lemma slot_Ok (aarray : AssociativeArray) (index : Z) (s : KeyDataPair) :
  slot aarray index = Ok s <-> 0 <= index /\ table aarray !! Z.to_nat index = Some s.
Proof.
  unfold slot. destruct (index <? 0) eqn:E.
  - split; [discriminate | lia].
  - destruct (table aarray !! Z.to_nat index) eqn:L; split; intros H.
    + inversion H; subst. split; [lia | reflexivity].
    + destruct H as [_ H]. inversion H; reflexivity.
    + discriminate.
    + destruct H as [_ H]. discriminate.
Qed.

(** * Insertion into a full table *)

(** C6. When the entry count equals the capacity, [aaInsert] returns
    [-1] and leaves the whole table as it was, slots, entry count and
    cost counters; this holds with no fuel at all and for every key, so
    neither the hash function nor the probing function has run. *)
Theorem aaInsert_full_table (fuel : nat) (aarray : AssociativeArray) (key : list Z)
    (keylen : nat) (value : Z) :
  nEntries aarray = size aarray ->
  aaInsert fuel aarray key keylen value = Ok (-1, aarray).
Proof.
  intros H. unfold aaInsert. rewrite H, Z.leb_refl. reflexivity.
Qed.

(** * Traversal *)

Section Traversal.

Context {U : Type}.
Variable userfunction : list Z -> nat -> Z -> U -> Z * U.

Lemma aaIterateAction_loop_from (aarray : AssociativeArray) (todo i : nat) (userdata : U) :
  length (table aarray) = (i + todo)%nat ->
  aaIterateAction_loop userfunction todo aarray (Z.of_nat i) userdata
  = Ok (visit_in_order userfunction
          (filter (fun s => validity s = HASH_USED) (drop i (table aarray))) userdata).
Proof.
  revert i userdata. induction todo as [|todo IH]; intros i userdata Hlen.
  - simpl. rewrite drop_ge by lia. reflexivity.
  - destruct (lookup_lt_is_Some_2 (table aarray) i) as [s Hs]; [lia|].
    simpl. replace (slot aarray (Z.of_nat i)) with (Ok s).
    2:{ symmetry. apply slot_Ok. rewrite Nat2Z.id. split; [lia | exact Hs]. }
    simpl. rewrite (drop_S _ _ _ Hs).
    replace (Z.of_nat i + 1) with (Z.of_nat (S i)) by lia.
    unfold is_used. destruct (decide (validity s = HASH_USED)) as [Hu|Hu].
    + rewrite bool_decide_eq_true_2 by exact Hu.
      rewrite filter_cons_True by exact Hu. simpl.
      destruct (userfunction (key s) (keylen s) (value s) userdata) as [r u'].
      destruct (r <? 0); [reflexivity|]. apply IH. lia.
    + rewrite bool_decide_eq_false_2 by exact Hu.
      rewrite filter_cons_False by exact Hu. apply IH. lia.
Qed.

End Traversal.

(** C8. On a table whose slot array has [size] slots, [aaIterateAction]
    calls the user function on the USED slots and on no other slot, in
    increasing index order, each with that slot's key, key length and
    value; it returns [-1] at the first call that gives a negative result,
    without a further call, and [1] after the last slot otherwise.  The
    probing function of the table plays no part. *)
Theorem aaIterateAction_visits_used_slots {U : Type}
    (userfunction : list Z -> nat -> Z -> U -> Z * U)
    (aarray : AssociativeArray) (userdata : U) :
  well_formed aarray ->
  aaIterateAction userfunction aarray userdata
  = Ok (visit_in_order userfunction (used_slots aarray) userdata)
  /\ forall p : HashProbe,
       aaIterateAction userfunction (set_hashProbe aarray p) userdata
       = aaIterateAction userfunction aarray userdata.
Proof.
  intros [_ Hlen].
  assert (Hrun : forall a : AssociativeArray,
             Z.of_nat (length (table a)) = size a ->
             aaIterateAction userfunction a userdata
             = Ok (visit_in_order userfunction (used_slots a) userdata)).
  { intros a Ha. unfold aaIterateAction, used_slots.
    rewrite (aaIterateAction_loop_from userfunction a (Z.to_nat (size a)) 0);
      [reflexivity | lia]. }
  split.
  - apply Hrun, Hlen.
  - intros p. rewrite !Hrun by exact Hlen. reflexivity.
Qed.

(** * What the probing functions change *)

Lemma only_insertCost_refl (a : AssociativeArray) : only_insertCost a a.
Proof. exists (insertCost a). split; [lia|]. destruct a; reflexivity. Qed.

Lemma only_insertCost_bump (a : AssociativeArray) : only_insertCost a (bump_insertCost a).
Proof. exists (insertCost a + 1). split; [lia|]. reflexivity. Qed.

Lemma only_insertCost_trans (a b c : AssociativeArray) :
  only_insertCost a b -> only_insertCost b c -> only_insertCost a c.
Proof.
  intros (n & Hn & ->) (m & Hm & ->). exists m. simpl in Hm. split; [lia|]. reflexivity.
Qed.

Lemma linearProbe_loop_state todo aarray key keyLength stop cur j aarray' :
  linearProbe_loop todo aarray key keyLength stop cur = Ok (j, aarray') ->
  only_insertCost aarray aarray'.
Proof.
  revert cur. induction todo as [|todo IH]; intros cur H; simpl in H.
  - inversion H; subst. apply only_insertCost_refl.
  - inv_bind H as next. inv_bind H as cur'. inv_bind H as s. inv_bind H as hit.
    destruct hit.
    + inversion H; subst. destruct (negb (is_used s)).
      * apply only_insertCost_bump.
      * apply only_insertCost_refl.
    + destruct (stop && is_deleted s).
      * inversion H; subst. apply only_insertCost_refl.
      * eapply IH, H.
Qed.

Lemma quadraticProbe_loop_state fuel aarray key keyLength index stop cost attempt j aarray' :
  quadraticProbe_loop fuel aarray key keyLength index stop cost attempt = Ok (j, aarray') ->
  only_insertCost aarray aarray'.
Proof.
  revert aarray attempt. induction fuel as [|fuel IH]; intros aarray attempt H; simpl in H.
  - discriminate.
  - inv_bind H as sq. inv_bind H as sum. inv_bind H as newIndex. inv_bind H as s.
    inv_bind H as hit. destruct hit.
    + inversion H; subst. destruct cost.
      * apply only_insertCost_bump.
      * apply only_insertCost_refl.
    + destruct (stop && is_deleted s).
      * inversion H; subst. apply only_insertCost_bump.
      * inv_bind H as attempt'.
        eapply only_insertCost_trans; [apply only_insertCost_bump|]. eapply IH, H.
Qed.

Lemma doubleHashProbe_loop_state fuel aarray key keyLength index stop step attempt j aarray' :
  doubleHashProbe_loop fuel aarray key keyLength index stop step attempt = Ok (j, aarray') ->
  only_insertCost aarray aarray'.
Proof.
  revert aarray attempt. induction fuel as [|fuel IH]; intros aarray attempt H; simpl in H.
  - discriminate.
  - inv_bind H as prod. inv_bind H as sum. inv_bind H as newIndex. inv_bind H as s.
    inv_bind H as hit. destruct hit.
    + inversion H; subst. destruct (negb (is_used s)).
      * apply only_insertCost_bump.
      * apply only_insertCost_refl.
    + destruct (stop && is_deleted s).
      * inversion H; subst. apply only_insertCost_bump.
      * inv_bind H as attempt'.
        eapply only_insertCost_trans; [apply only_insertCost_bump|]. eapply IH, H.
Qed.

Lemma call_probe_state p fuel aarray key keyLength index stop cost j aarray' :
  call_probe p fuel aarray key keyLength index stop cost = Ok (j, aarray') ->
  only_insertCost aarray aarray'.
Proof.
  destruct p; simpl; intros H.
  - eapply linearProbe_loop_state, H.
  - eapply quadraticProbe_loop_state, H.
  - unfold doubleHashProbe in H. inv_bind H as step.
    eapply doubleHashProbe_loop_state, H.
Qed.

(** * What the three operations change *)

(** A search changes the search-cost and insert-cost counters and
    nothing else. *)
Lemma aaLookup_loop_state fuel aarray key keylen originalIndex cost index v aarray' :
  aaLookup_loop fuel aarray key keylen originalIndex cost index = Ok (v, aarray') ->
  exists n m, insertCost aarray <= n /\ searchCost aarray <= m
              /\ aarray' = set_searchCost (set_insertCost aarray n) m.
Proof.
  revert aarray index. induction fuel as [|fuel IH]; intros aarray index H; simpl in H.
  - discriminate.
  - inv_bind H as s. destruct (is_used s).
    + inv_bind H as m. destruct m.
      * injection H as <- <-. exists (insertCost aarray), (searchCost aarray + 1).
        split; [lia|]. split; [lia|]. reflexivity.
      * inv_bind H as [j a1] eqn:Ea1.
        apply call_probe_state in Ea1. destruct Ea1 as (n & Hn & ->). simpl in Hn.
        destruct (j =? originalIndex).
        -- injection H as <- <-. exists n, (searchCost aarray + 1).
           split; [lia|]. split; [lia|]. reflexivity.
        -- apply IH in H. destruct H as (n' & m' & Hn' & Hm' & ->). simpl in Hn', Hm'.
           exists n', m'. split; [lia|]. split; [lia|]. reflexivity.
    + injection H as <- <-. exists (insertCost aarray), (searchCost aarray).
      split; [lia|]. split; [lia|]. destruct aarray; reflexivity.
Qed.

Lemma aaLookup_changes_costs fuel aarray key keylen v aarray' :
  aaLookup fuel aarray key keylen = Ok (v, aarray') ->
  aarray' = with_costs aarray (insertCost aarray') (searchCost aarray') (deleteCost aarray)
  /\ insertCost aarray <= insertCost aarray' /\ searchCost aarray <= searchCost aarray'.
Proof.
  unfold aaLookup. intros H. inv_bind H as index.
  apply aaLookup_loop_state in H. destruct H as (n & m & Hn & Hm & ->). simpl.
  split; [|split; assumption]. destruct aarray; reflexivity.
Qed.

(** A deletion changes the delete-cost and insert-cost counters and, when
    it finds the key, the validity of the slot that holds it, and
    nothing else. *)
Lemma aaDelete_loop_state fuel aarray key keylen originalIndex cost index v aarray' :
  aaDelete_loop fuel aarray key keylen originalIndex cost index = Ok (v, aarray') ->
  exists n m, insertCost aarray <= n /\ deleteCost aarray <= m /\
    ((v = NULL /\ aarray' = set_deleteCost (set_insertCost aarray n) m)
     \/ exists (i : Z) (s : KeyDataPair),
          slot aarray i = Ok s /\ validity s = HASH_USED
          /\ doKeysMatch (hashtools.key s) (hashtools.keylen s) key keylen = Ok true
          /\ v = value s
          /\ aarray' = set_table (set_deleteCost (set_insertCost aarray n) m)
                         (<[Z.to_nat i := set_validity s HASH_DELETED]> (table aarray))).
Proof.
  revert aarray index. induction fuel as [|fuel IH]; intros aarray index H; simpl in H.
  - discriminate.
  - inv_bind H as s. destruct (is_used s) eqn:Hu.
    + inv_bind H as m. destruct m.
      * injection H as <- <-. exists (insertCost aarray), (deleteCost aarray + 1).
        split; [lia|]. split; [lia|]. right. exists index, s.
        apply bool_decide_eq_true_1 in Hu.
        repeat split; assumption.
      * inv_bind H as [j a1] eqn:Ea1.
        apply call_probe_state in Ea1. destruct Ea1 as (n & Hn & ->). simpl in Hn.
        destruct (j =? originalIndex).
        -- injection H as <- <-. exists n, (deleteCost aarray + 1).
           split; [lia|]. split; [lia|]. left. split; reflexivity.
        -- apply IH in H. destruct H as (n' & m' & Hn' & Hm' & H). simpl in Hn', Hm'.
           exists n', m'. split; [lia|]. split; [lia|].
           destruct H as [[-> ->]|(i & s' & Hs' & Hv & Hm & -> & ->)].
           ++ left. split; reflexivity.
           ++ right. exists i, s'. repeat split; assumption.
    + injection H as <- <-. exists (insertCost aarray), (deleteCost aarray).
      split; [lia|]. split; [lia|]. left. split; [reflexivity|]. destruct aarray; reflexivity.
Qed.

Lemma aaInsert_loop_state fuel aarray key keylen originalIndex cost index e aarray' :
  aaInsert_loop fuel aarray key keylen originalIndex cost index = Ok (e, aarray') ->
  only_insertCost aarray aarray'
  /\ match e with
     | Return r => r = -1
     | Exit i => exists s, slot aarray i = Ok s /\ validity s <> HASH_USED
     end.
Proof.
  revert aarray cost index. induction fuel as [|fuel IH]; intros aarray cost index H;
    simpl in H.
  - discriminate.
  - inv_bind H as s. destruct (is_used s) eqn:Hu.
    + inv_bind H as m. destruct m.
      * injection H as <- <-. split; [apply only_insertCost_refl | reflexivity].
      * inv_bind H as cost'. inv_bind H as [j a1] eqn:Ea1.
        apply call_probe_state in Ea1.
        destruct (j =? originalIndex).
        -- injection H as <- <-. split; [assumption | reflexivity].
        -- apply IH in H. destruct H as [H1 H2]. split.
           ++ eapply only_insertCost_trans; eassumption.
           ++ destruct e as [r|i]; [exact H2|].
              destruct H2 as (s' & Hs' & Hv). exists s'. split; [|exact Hv].
              destruct Ea1 as (n & _ & ->). exact Hs'.
    + injection H as <- <-. split; [apply only_insertCost_refl|].
      exists s. split; [assumption|]. apply bool_decide_eq_false_1 in Hu. exact Hu.
Qed.

(** An insertion either returns [-1] and changes the insert-cost counter
    at most, or fills a slot that was not USED with a copy of the key,
    the length and the value, and counts one more entry. *)
Lemma aaInsert_state fuel aarray key keylen value r aarray' :
  aaInsert fuel aarray key keylen value = Ok (r, aarray') ->
  (r = -1 /\ only_insertCost aarray aarray')
  \/ exists (s : KeyDataPair) (copy : list Z) (n : Z),
       slot aarray r = Ok s /\ validity s <> HASH_USED /\ strdup key = Ok copy
       /\ nEntries aarray < size aarray /\ insertCost aarray <= n
       /\ aarray' = set_nEntries
                      (set_table (set_insertCost aarray n)
                         (<[Z.to_nat r := mkKeyDataPair copy keylen value HASH_USED]>
                            (table aarray)))
                      (nEntries aarray + 1).
Proof.
  unfold aaInsert. intros H. destruct (size aarray <=? nEntries aarray) eqn:Hfull.
  - injection H as <- <-. left. split; [reflexivity | apply only_insertCost_refl].
  - inv_bind H as index. inv_bind H as [e a1] eqn:Ea1.
    apply aaInsert_loop_state in Ea1. destruct Ea1 as [Hc He].
    destruct e as [r'|i].
    + injection H as <- <-. left. split; assumption.
    + inv_bind H as copy. inv_bind H as n eqn:En. injection H as <- <-.
      apply int_op_Ok in En. destruct En as [-> _]. simpl.
      destruct He as (s & Hs & Hv). destruct Hc as (c & Hc & ->). simpl.
      right. exists s, copy, c. repeat split; try assumption. lia.
Qed.

(** * The contents dump *)

Lemma aaPrintContents_loop_lines (todo : nat) :
  forall aarray tag (i : Z) (out lines : list DumpLine),
    aaPrintContents_loop todo aarray tag i out = Ok lines ->
    forall d : nat, (d < todo)%nat ->
      exists line, aaPrintContents_slot aarray tag (i + Z.of_nat d) = Ok line
                   /\ lines !! (length out + d)%nat = Some line.
Proof.
  induction todo as [|todo IH]; intros aarray tag i out lines H d Hd; [lia|].
  simpl in H. inv_bind H as line eqn:El.
  destruct d as [|d].
  - exists line. rewrite Z.add_0_r, Nat.add_0_r. split; [exact El|].
    assert (Hpre : forall todo' j out' lines',
               aaPrintContents_loop todo' aarray tag j out' = Ok lines' ->
               forall n x, out' !! n = Some x -> lines' !! n = Some x).
    { clear. induction todo' as [|todo' IH']; intros j out' lines' H n x Hn; simpl in H.
      - injection H as <-. exact Hn.
      - inv_bind H as l'. eapply IH'; [exact H|].
        rewrite lookup_app_l by (eapply lookup_lt_Some, Hn). exact Hn. }
    eapply Hpre; [exact H|]. apply list_lookup_middle. reflexivity.
  - destruct (IH _ _ _ _ _ H d ltac:(lia)) as (line' & Hl' & Hn).
    exists line'. split.
    + replace (i + Z.of_nat (S d)) with (i + 1 + Z.of_nat d) by lia. exact Hl'.
    + rewrite length_app in Hn. simpl in Hn.
      replace (length out + S d)%nat with (length out + 1 + d)%nat by lia. exact Hn.
Qed.

(** The dump has one line per slot after its first line. *)
Lemma aaPrintContents_lines aarray tag lines (i : nat) :
  aaPrintContents aarray tag = Ok lines ->
  Z.of_nat i < size aarray ->
  exists line, aaPrintContents_slot aarray tag (Z.of_nat i) = Ok line
               /\ lines !! S i = Some line.
Proof.
  unfold aaPrintContents. intros H Hi.
  destruct (aaPrintContents_loop_lines _ _ _ _ _ _ H i ltac:(lia)) as (line & Hl & Hn).
  exists line. split; [exact Hl | exact Hn].
Qed.

(** * The entry count *)

Lemma run_operation_counts fuel aarray op r aarray' :
  run_operation fuel aarray op = Ok (r, aarray') ->
  size aarray' = size aarray
  /\ nEntries aarray <= nEntries aarray'
  /\ (forall key keylen, op = Delete key keylen -> nEntries aarray' = nEntries aarray).
Proof.
  destruct op as [k l v|k l|k l]; simpl; intros H.
  - apply aaInsert_state in H.
    destruct H as [[_ (n & _ & ->)]|(s & copy & n & _ & _ & _ & _ & _ & ->)]; simpl.
    + split; [lia|]. split; [lia|]. intros ? ? ?; discriminate.
    + split; [lia|]. split; [lia|]. intros ? ? ?; discriminate.
  - unfold aaLookup in H. inv_bind H as index.
    apply aaLookup_loop_state in H. destruct H as (n & m & _ & _ & ->). simpl.
    split; [lia|]. split; [lia|]. intros ? ? ?; discriminate.
  - unfold aaDelete in H. inv_bind H as index.
    apply aaDelete_loop_state in H.
    destruct H as (n & m & _ & _ & [[_ ->]|(i & s & _ & _ & _ & _ & ->)]); simpl;
      (split; [lia|]; split; [lia|]; intros ? ? _; reflexivity).
Qed.

(** C9. Along every sequence of insertions, searches and deletions that
    returns, the capacity stays the same and the entry count does not
    decrease; a deletion leaves the entry count exactly as it was; and
    if the entry count had reached the capacity before the sequence,
    every insertion after it returns [-1] and changes nothing, whatever
    was deleted in between. *)
Theorem nEntries_never_decreases (fuel : nat) (aarray : AssociativeArray)
    (ops : list Operation) (rs : list Z) (aarray' : AssociativeArray) :
  run_operations fuel aarray ops = Ok (rs, aarray') ->
  size aarray' = size aarray
  /\ nEntries aarray <= nEntries aarray'
  /\ (forall fuel' key keylen v aarray'',
        aaDelete fuel' aarray' key keylen = Ok (v, aarray'') ->
        nEntries aarray'' = nEntries aarray')
  /\ (size aarray <= nEntries aarray ->
      forall fuel' key keylen value,
        aaInsert fuel' aarray' key keylen value = Ok (-1, aarray')).
Proof.
  intros Hrun.
  assert (Hmono : size aarray' = size aarray /\ nEntries aarray <= nEntries aarray').
  { revert aarray rs Hrun. induction ops as [|op ops IH]; intros aarray rs Hrun;
      simpl in Hrun.
    - injection Hrun as <- <-. split; [reflexivity | lia].
    - inv_bind Hrun as [r a1] eqn:E1. inv_bind Hrun as [rs' a2] eqn:E2.
      injection Hrun as <- <-.
      apply run_operation_counts in E1. apply IH in E2. lia. }
  destruct Hmono as [Hsize Hle]. split; [exact Hsize|]. split; [exact Hle|]. split.
  - intros fuel' key keylen v aarray'' Hdel.
    apply (run_operation_counts fuel' aarray' (Delete key keylen)) in Hdel.
    destruct Hdel as (_ & _ & Heq). eapply Heq. reflexivity.
  - intros Hfull fuel' key keylen value. unfold aaInsert.
    replace (size aarray' <=? nEntries aarray') with true; [reflexivity|].
    symmetry. apply Z.leb_le. lia.
Qed.

(** * Tombstones *)

(** A search whose start slot is not USED returns [NULL] at once, be the
    slot EMPTY or DELETED, wherever the key is. *)
Lemma aaLookup_start_not_used fuel aarray key keylen index s :
  call_hash (hashAlgorithmPrimary aarray) key keylen (size aarray) = Ok index ->
  slot aarray index = Ok s -> validity s <> HASH_USED ->
  aaLookup (S fuel) aarray key keylen = Ok (NULL, aarray).
Proof.
  intros Hh Hs Hv. unfold aaLookup. rewrite Hh. simpl. rewrite Hs. simpl.
  unfold is_used. rewrite bool_decide_eq_false_2 by exact Hv. reflexivity.
Qed.

(** C2. The code does not behave as the claim says.  With linear probing
    and hashing by length in a table of 3 slots, the keys "a" and "b"
    both start at slot 1: "a" is stored there and "b" in slot 2.  Once
    "a" is deleted, slot 1 is DELETED and "b" is still USED in slot 2,
    yet a search for "b" returns [NULL] and so does a deletion of "b":
    the walk ends at the tombstone.  The same happens in a table of 5
    slots when the tombstone lies after a USED slot of the walk. *)
Theorem tombstone_ends_the_walk :
  exists (t0 t : AssociativeArray) (rs : list Z),
    aaCreateAssociativeArray getLargerPrime_spec 3 "linear" "len" "len" = Some t0
    /\ run_operations 2 t0 [Insert key_a 1 100; Insert key_b 1 200; Delete key_a 1]
       = Ok (rs, t)
    /\ call_hash (hashAlgorithmPrimary t) key_b 1 (size t) = Ok 1
    /\ slot t 1 = Ok (mkKeyDataPair key_a 1 100 HASH_DELETED)
    /\ slot t 2 = Ok (mkKeyDataPair key_b 1 200 HASH_USED)
    /\ (forall fuel, aaLookup (S fuel) t key_b 1 = Ok (NULL, t))
    /\ (forall fuel, aaDelete (S fuel) t key_b 1 = Ok (NULL, t))
    /\ exists (u0 u : AssociativeArray) (rs' : list Z),
         aaCreateAssociativeArray getLargerPrime_spec 5 "linear" "len" "len" = Some u0
         /\ run_operations 2 u0
              [Insert key_a 1 100; Insert key_b 1 200; Insert key_c 1 300; Delete key_b 1]
            = Ok (rs', u)
         /\ slot u 1 = Ok (mkKeyDataPair key_a 1 100 HASH_USED)
         /\ slot u 2 = Ok (mkKeyDataPair key_b 1 200 HASH_DELETED)
         /\ slot u 3 = Ok (mkKeyDataPair key_c 1 300 HASH_USED)
         /\ forall fuel, exists u', aaLookup (S (S fuel)) u key_c 1 = Ok (NULL, u').
Proof.
  eexists _, _, _. split; [reflexivity|]. split; [vm_compute; reflexivity|].
  split; [reflexivity|]. split; [reflexivity|]. split; [reflexivity|].
  split; [intros fuel; reflexivity|]. split; [intros fuel; reflexivity|].
  eexists _, _, _. split; [reflexivity|]. split; [vm_compute; reflexivity|].
  split; [reflexivity|]. split; [reflexivity|]. split; [reflexivity|].
  intros fuel. eexists. reflexivity.
Qed.

(** C4. The code does not behave as the claim says.  In the table of C2
    where "a" was deleted from slot 1 and "b" is USED in slot 2, a second
    insertion of "b" stops at the tombstone: it returns slot 1 and stores
    "b" there, so two USED slots hold the same key. *)
Theorem insert_at_tombstone_duplicates_key :
  exists (t0 t : AssociativeArray),
    aaCreateAssociativeArray getLargerPrime_spec 3 "linear" "len" "len" = Some t0
    /\ run_operations 2 t0
         [Insert key_a 1 100; Insert key_b 1 200; Delete key_a 1; Insert key_b 1 300]
       = Ok ([1; 2; 100; 1], t)
    /\ table t !! 1%nat = Some (mkKeyDataPair key_b 1 300 HASH_USED)
    /\ table t !! 2%nat = Some (mkKeyDataPair key_b 1 200 HASH_USED)
    /\ ~ unique_keys t.
Proof.
  eexists _, _. split; [reflexivity|]. split; [vm_compute; reflexivity|].
  split; [reflexivity|]. split; [reflexivity|].
  intros Huniq.
  specialize (Huniq 1%nat 2%nat _ _ eq_refl eq_refl eq_refl eq_refl).
  assert (H : 1%nat = 2%nat) by (apply Huniq; split; reflexivity).
  discriminate H.
Qed.

(** C5. The code does not behave as the claim says.  In the table of C2
    the key "b" is in the USED slot 2, and inserting "b" again does not
    fail: it returns slot 1 and the entry count goes from 2 to 3. *)
Theorem insert_of_present_key_succeeds :
  exists (t0 t t' : AssociativeArray) (rs : list Z),
    aaCreateAssociativeArray getLargerPrime_spec 3 "linear" "len" "len" = Some t0
    /\ run_operations 2 t0 [Insert key_a 1 100; Insert key_b 1 200; Delete key_a 1]
       = Ok (rs, t)
    /\ slot t 2 = Ok (mkKeyDataPair key_b 1 200 HASH_USED)
    /\ (forall fuel, aaInsert (S fuel) t key_b 1 300 = Ok (1, t'))
    /\ nEntries t = 2 /\ nEntries t' = 3.
Proof.
  eexists _, _, _, _. split; [reflexivity|]. split; [vm_compute; reflexivity|].
  split; [reflexivity|]. split; [intros fuel; reflexivity|].
  split; reflexivity.
Qed.

(** * Cost counters *)

(** C7. The code does not behave as the claim says.  In a table of 3
    slots with linear probing that holds "a" in slot 1, a search for the
    absent key "b" adds one to the insert-cost counter, and so does a
    deletion of "b"; the search adds one to the search-cost counter
    although its walk looked at two slots.  With quadratic probing the
    search for the present key "b" adds one to the insert-cost counter
    as well. *)
Theorem probes_charge_insert_cost :
  exists (t0 t : AssociativeArray) (rs : list Z),
    aaCreateAssociativeArray getLargerPrime_spec 3 "linear" "len" "len" = Some t0
    /\ run_operations 2 t0 [Insert key_a 1 100] = Ok (rs, t)
    /\ insertCost t = 0 /\ searchCost t = 0 /\ deleteCost t = 0
    /\ (forall fuel, exists t',
          aaLookup (S (S fuel)) t key_b 1 = Ok (NULL, t')
          /\ insertCost t' = 1 /\ searchCost t' = 1 /\ deleteCost t' = 0)
    /\ (forall fuel, exists t',
          aaDelete (S (S fuel)) t key_b 1 = Ok (NULL, t')
          /\ insertCost t' = 1 /\ searchCost t' = 0 /\ deleteCost t' = 1)
    /\ exists (q0 q : AssociativeArray) (rs' : list Z),
         aaCreateAssociativeArray getLargerPrime_spec 3 "quadratic" "len" "len" = Some q0
         /\ run_operations 2 q0 [Insert key_a 1 100; Insert key_b 1 200] = Ok (rs', q)
         /\ forall fuel, exists q',
              aaLookup (S (S fuel)) q key_b 1 = Ok (200, q')
              /\ insertCost q' = insertCost q + 1.
Proof.
  eexists _, _, _. split; [reflexivity|]. split; [vm_compute; reflexivity|].
  split; [reflexivity|]. split; [reflexivity|]. split; [reflexivity|].
  split; [intros fuel; eexists; split; [reflexivity|]; repeat split|].
  split; [intros fuel; eexists; split; [reflexivity|]; repeat split|].
  eexists _, _, _. split; [reflexivity|]. split; [vm_compute; reflexivity|].
  intros fuel. eexists. split; [reflexivity|]. reflexivity.
Qed.

(** * Probing without a bound *)

Lemma square_plus_one_rem_3 (a : Z) :
  0 <= a -> Z.rem (1 + a * a) 3 = 1 \/ Z.rem (1 + a * a) 3 = 2.
Proof.
  intros Ha. rewrite Z.rem_mod_nonneg by nia.
  pose proof (Z.div_mod a 3 ltac:(lia)) as Hdiv.
  pose proof (Z.mod_pos_bound a 3 ltac:(lia)) as Hr.
  set (q := a / 3) in *. set (r := a mod 3) in *.
  assert (Hcase : r = 0 \/ r = 1 \/ r = 2) by lia.
  destruct Hcase as [Hr0|[Hr1|Hr2]].
  - left. replace (1 + a * a) with (1 + (3 * q * q) * 3) by nia.
    rewrite Z.mod_add by lia. reflexivity.
  - right. replace (1 + a * a) with (2 + (3 * q * q + 2 * q) * 3) by nia.
    rewrite Z.mod_add by lia. reflexivity.
  - right. replace (1 + a * a) with (2 + (3 * q * q + 4 * q + 1) * 3) by nia.
    rewrite Z.mod_add by lia. reflexivity.
Qed.

(** From slot 1 the quadratic sequence only reaches slots 1 and 2, which
    hold "a" and "b": no attempt is accepted, whatever their number. *)
Lemma quadraticProbe_loop_never_returns (fuel : nat) (aarray : AssociativeArray)
    (cost : option Z) (attempt : Z) :
  table aarray = table table_a_b_quadratic -> size aarray = 3 -> 1 <= attempt ->
  ~ returns (quadraticProbe_loop fuel aarray key_c 1 1 false cost attempt).
Proof.
  revert aarray attempt.
  induction fuel as [|fuel IH]; intros aarray attempt Htable Hsize Ha [r H].
  - discriminate H.
  - simpl in H. inv_bind H as sq eqn:Esq. inv_bind H as sum eqn:Esum.
    apply int_op_Ok in Esq. destruct Esq as [-> _].
    apply int_op_Ok in Esum. destruct Esum as [-> _].
    rewrite Hsize in H. unfold c_mod, slot in H. rewrite Htable in H. simpl in H.
    destruct (square_plus_one_rem_3 attempt ltac:(lia)) as [E|E]; rewrite E in H;
      simpl in H; inv_bind H as attempt' eqn:Ea;
      apply int_op_Ok in Ea; destruct Ea as [-> _];
      (eapply (IH (bump_insertCost aarray) (attempt + 1));
       [exact Htable | exact Hsize | lia | exists r; exact H]).
Qed.

(** With a step of 0 every attempt of the double-hashing probe looks at
    slot 0 again, which holds "abc". *)
Lemma doubleHashProbe_loop_never_returns (fuel : nat) (aarray : AssociativeArray)
    (attempt : Z) :
  table aarray = table table_abc_double -> size aarray = 3 ->
  ~ returns (doubleHashProbe_loop fuel aarray key_xyz 3 0 false 0 attempt).
Proof.
  revert aarray attempt. induction fuel as [|fuel IH]; intros aarray attempt Htable Hsize [r H].
  - discriminate H.
  - simpl in H. rewrite Z.mul_0_r in H.
    rewrite Hsize in H. unfold c_mod, slot in H. rewrite Htable in H. simpl in H.
    inv_bind H as attempt' eqn:Ea. apply int_op_Ok in Ea. destruct Ea as [-> _].
    eapply (IH (bump_insertCost aarray) (attempt + 1));
      [exact Htable | exact Hsize | exists r; exact H].
Qed.

(** The insertion of "c" into the table that holds "a" and "b" makes
    this call and does not return. *)
Lemma aaInsert_quadratic_never_returns (fuel : nat) (value : Z) :
  ~ returns (aaInsert fuel table_a_b_quadratic key_c 1 value).
Proof.
  assert (Hq : call_hash (hashAlgorithmPrimary table_a_b_quadratic) key_c 1
                 (size table_a_b_quadratic) = Ok 1) by reflexivity.
  destruct fuel as [|fuel]; intros [r H]; unfold aaInsert in H; rewrite Hq in H;
    [discriminate H|].
  simpl in H. inv_bind H as [e a1] eqn:Ee. inv_bind Ee as [j a2] eqn:Ep.
  eapply quadraticProbe_loop_never_returns; [| | |eexists; exact Ep];
    [reflexivity | reflexivity | lia].
Qed.

(** C3. The code does not behave as the claim says.  In the table of 3
    slots that holds "a" and "b" in slots 1 and 2, a call of
    [quadraticProbe] for the key "c" from slot 1 has given no answer
    after 3 attempts, and gives none after any number of attempts; the
    insertion, the search and the deletion of "c" that make this call
    never return either, although the entry count is below the capacity.
    The same holds for [doubleHashProbe] when the secondary hash of the
    key is 0: in the table that holds "abc" in slot 0, the probe for
    "xyz" never returns. *)
Theorem quadratic_and_double_probes_unbounded :
  (exists (q0 : AssociativeArray) (rs : list Z),
     aaCreateAssociativeArray getLargerPrime_spec 3 "quadratic" "len" "len" = Some q0
     /\ run_operations 2 q0 [Insert key_a 1 100; Insert key_b 1 200]
        = Ok (rs, table_a_b_quadratic))
  /\ nEntries table_a_b_quadratic < size table_a_b_quadratic
  /\ quadraticProbe (Z.to_nat (size table_a_b_quadratic))
       table_a_b_quadratic key_c 1 1 false (Some 1) = OutOfFuel
  /\ (forall fuel,
        ~ returns (quadraticProbe fuel table_a_b_quadratic key_c 1 1 false (Some 1)))
  /\ (forall fuel, ~ returns (aaInsert fuel table_a_b_quadratic key_c 1 300))
  /\ (forall fuel, ~ returns (aaLookup fuel table_a_b_quadratic key_c 1))
  /\ (forall fuel, ~ returns (aaDelete fuel table_a_b_quadratic key_c 1))
  /\ (exists (d0 : AssociativeArray) (rs : list Z),
        aaCreateAssociativeArray getLargerPrime_spec 3 "double" "len" "len" = Some d0
        /\ run_operations 2 d0 [Insert key_abc 3 100] = Ok (rs, table_abc_double))
  /\ doubleHashProbe (Z.to_nat (size table_abc_double))
       table_abc_double key_xyz 3 0 false (Some 1) = OutOfFuel
  /\ (forall fuel,
        ~ returns (doubleHashProbe fuel table_abc_double key_xyz 3 0 false (Some 1)))
  /\ (forall fuel, ~ returns (aaInsert fuel table_abc_double key_xyz 3 300)).
Proof.
  assert (Hq : call_hash (hashAlgorithmPrimary table_a_b_quadratic) key_c 1
                 (size table_a_b_quadratic) = Ok 1) by reflexivity.
  assert (Hd : call_hash (hashAlgorithmPrimary table_abc_double) key_xyz 3
                 (size table_abc_double) = Ok 0) by reflexivity.
  split; [eexists _, _; split; [reflexivity | vm_compute; reflexivity]|].
  split; [reflexivity|]. split; [reflexivity|].
  split.
  { intros fuel. apply quadraticProbe_loop_never_returns; [reflexivity | reflexivity | lia]. }
  split; [intros fuel; apply aaInsert_quadratic_never_returns|].
  split.
  { intros [|fuel] [r H]; unfold aaLookup in H; rewrite Hq in H; [discriminate H|].
    simpl in H. inv_bind H as [j a1] eqn:Ep.
    eapply quadraticProbe_loop_never_returns; [| | |eexists; exact Ep];
      [reflexivity | reflexivity | lia]. }
  split.
  { intros [|fuel] [r H]; unfold aaDelete in H; rewrite Hq in H; [discriminate H|].
    simpl in H. inv_bind H as [j a1] eqn:Ep.
    eapply quadraticProbe_loop_never_returns; [| | |eexists; exact Ep];
      [reflexivity | reflexivity | lia]. }
  split; [eexists _, _; split; [reflexivity | vm_compute; reflexivity]|].
  split; [reflexivity|].
  split.
  { intros fuel [r H]. unfold doubleHashProbe in H.
    change (call_hash (hashAlgorithmSecondary table_abc_double) key_xyz 3
              (size table_abc_double)) with (Ok 0 : result Z) in H.
    eapply doubleHashProbe_loop_never_returns; [| |exists r; exact H]; reflexivity. }
  intros [|fuel] [r H]; unfold aaInsert in H; rewrite Hd in H; [discriminate H|].
  simpl in H. inv_bind H as [e a1] eqn:Ee. inv_bind Ee as [j a2] eqn:Ep.
  unfold doubleHashProbe in Ep.
  change (call_hash (hashAlgorithmSecondary table_abc_double) key_xyz 3
            (size table_abc_double)) with (Ok 0 : result Z) in Ep.
  eapply doubleHashProbe_loop_never_returns; [| |eexists; exact Ep]; reflexivity.
Qed.

(** * Insertions of distinct keys, then searches *)

(** ** Keys *)

Lemma strdup_prefix (key copy : list Z) :
  strdup key = Ok copy -> take (length copy) key = copy.
Proof.
  revert copy. induction key as [|c key IH]; intros copy H; simpl in H.
  - discriminate.
  - destruct (c =? 0) eqn:Ec.
    + injection H as <-. apply Z.eqb_eq in Ec. subst c. reflexivity.
    + inv_bind H as d eqn:Ed. injection H as <-. simpl. f_equal. apply IH. reflexivity.
Qed.

Lemma strdup_take (key copy : list Z) (n : nat) :
  strdup key = Ok copy -> (n <= length copy)%nat ->
  take n copy = take n key /\ (n <= length key)%nat.
Proof.
  intros H Hn. pose proof (strdup_prefix _ _ H) as Hp.
  assert (Hlen : (length copy <= length key)%nat).
  { rewrite <- Hp. rewrite length_take. lia. }
  split; [|lia].
  rewrite <- Hp at 1. rewrite take_take. f_equal. lia.
Qed.

Lemma compare_bytes_eq (s1 s2 : list Z) :
  length s1 = length s2 -> (compare_bytes s1 s2 = 0 <-> s1 = s2).
Proof.
  revert s2. induction s1 as [|c1 r1 IH]; intros [|c2 r2] Hlen; simpl in *;
    try discriminate.
  - split; reflexivity.
  - destruct (c1 =? c2) eqn:Ec.
    + apply Z.eqb_eq in Ec. subst c2. rewrite IH by lia.
      split; [intros ->; reflexivity | intros H; injection H; auto].
    + apply Z.eqb_neq in Ec. split; [lia | intros H; injection H; intros; contradiction].
Qed.

Lemma compare_bytes_sym (s1 s2 : list Z) :
  (compare_bytes s1 s2 =? 0) = (compare_bytes s2 s1 =? 0).
Proof.
  revert s2. induction s1 as [|c1 r1 IH]; intros [|c2 r2]; simpl; try reflexivity.
  rewrite (Z.eqb_sym c2 c1). destruct (c1 =? c2) eqn:Ec.
  - apply IH.
  - apply Z.eqb_neq in Ec.
    transitivity false; [|symmetry]; apply Z.eqb_neq; lia.
Qed.

Lemma doKeysMatch_sym (key1 : list Z) (key1len : nat) (key2 : list Z) (key2len : nat) :
  doKeysMatch key1 key1len key2 key2len = doKeysMatch key2 key2len key1 key1len.
Proof.
  unfold doKeysMatch. rewrite (Nat.eqb_sym key2len key1len).
  destruct (key1len =? key2len)%nat eqn:El; simpl; [|reflexivity].
  apply Nat.eqb_eq in El. subst key2len. unfold memcmp.
  rewrite (andb_comm (key1len <=? length key2)%nat).
  destruct ((key1len <=? length key1)%nat && (key1len <=? length key2)%nat); simpl;
    [|reflexivity].
  rewrite compare_bytes_sym. reflexivity.
Qed.

Lemma doKeysMatch_defined (key1 : list Z) (key1len : nat) (key2 : list Z) (key2len : nat) :
  (key1len <= length key1)%nat -> (key2len <= length key2)%nat ->
  exists m, doKeysMatch key1 key1len key2 key2len = Ok m
            /\ (m = true <-> same_key key1 key1len key2 key2len).
Proof.
  intros H1 H2. unfold doKeysMatch, same_key.
  destruct (key1len =? key2len)%nat eqn:El; simpl.
  - apply Nat.eqb_eq in El. subst key2len. unfold memcmp.
    rewrite (proj2 (Nat.leb_le _ _) H1), (proj2 (Nat.leb_le _ _) H2). simpl.
    eexists. split; [reflexivity|].
    rewrite Z.eqb_eq, compare_bytes_eq by (rewrite !length_take; lia).
    tauto.
  - apply Nat.eqb_neq in El. exists false. split; [reflexivity|].
    split; [discriminate | tauto].
Qed.

(** The copy of a storable key matches the key. *)
Lemma doKeysMatch_copy (key copy : list Z) (keylen : nat) :
  strdup key = Ok copy -> (keylen <= length copy)%nat ->
  doKeysMatch copy keylen key keylen = Ok true.
Proof.
  intros H Hn. destruct (strdup_take _ _ _ H Hn) as [Ht Hk].
  destruct (doKeysMatch_defined copy keylen key keylen Hn Hk) as (m & -> & Hm).
  f_equal. apply Hm. split; [reflexivity | exact Ht].
Qed.

(** ** The slot that a probe returns *)

Lemma extends_refl (a : AssociativeArray) : extends a a.
Proof. unfold extends. auto. Qed.

Lemma extends_trans (a b c : AssociativeArray) : extends a b -> extends b c -> extends a c.
Proof.
  intros (H1 & H2 & H3 & H4 & H5) (G1 & G2 & G3 & G4 & G5).
  unfold extends. repeat split; try congruence. intros i s Hs Hv. auto.
Qed.

(** The test of the three probing functions on a slot. *)
Lemma hit_cases (s : KeyDataPair) (m : result bool) (hit : bool) :
  (if negb (is_used s) then Ok true else m) = Ok hit ->
  (hit = true /\ validity s <> HASH_USED)
  \/ (validity s = HASH_USED /\ m = Ok hit).
Proof.
  unfold is_used. destruct (decide (validity s = HASH_USED)) as [Hu|Hu].
  - rewrite bool_decide_eq_true_2 by exact Hu. simpl. intros ->. right. auto.
  - rewrite bool_decide_eq_false_2 by exact Hu. simpl. intros H. injection H as <-.
    left. auto.
Qed.

Lemma hit_used (s : KeyDataPair) (m : result bool) :
  validity s = HASH_USED -> (if negb (is_used s) then Ok true else m) = m.
Proof. intros Hu. unfold is_used. rewrite bool_decide_eq_true_2 by exact Hu. reflexivity. Qed.

Lemma is_deleted_used (s : KeyDataPair) : validity s = HASH_USED -> is_deleted s = false.
Proof. intros Hu. unfold is_deleted. apply bool_decide_eq_false_2. congruence. Qed.

Section ProbeFrame.

Variables (T T' : AssociativeArray) (key : list Z) (keyLength : nat) (v : Z).
Hypothesis Hext : extends T T'.

Lemma linearProbe_loop_frame todo stop cur j T1 :
  linearProbe_loop todo T key keyLength stop cur = Ok (j, T1) ->
  holds T' j key keyLength v ->
  exists T1', linearProbe_loop todo T' key keyLength stop cur = Ok (j, T1').
Proof.
  destruct Hext as (Hsize & _ & _ & _ & Hslots).
  revert cur. induction todo as [|todo IH]; intros cur H (s' & Hs' & Hu' & Hm' & Hv');
    simpl in H.
  - injection H as <- <-. apply slot_Ok in Hs'. lia.
  - simpl. inv_bind H as next eqn:En. simpl. rewrite Hsize.
    inv_bind H as cur' eqn:Ec. simpl.
    inv_bind H as s eqn:Es. inv_bind H as hit eqn:Eh.
    apply hit_cases in Eh. destruct Eh as [[-> Hn]|[Hu Hm]].
    + injection H as <- _. rewrite Hs'. simpl.
      rewrite hit_used by exact Hu'. rewrite doKeysMatch_sym, Hm'. simpl.
      eexists. reflexivity.
    + destruct hit.
      * injection H as <- _. rewrite Hs'. simpl.
        rewrite hit_used by exact Hu'. rewrite doKeysMatch_sym, Hm'. simpl.
        eexists. reflexivity.
      * rewrite (Hslots _ _ Es Hu). simpl. rewrite hit_used by exact Hu.
        rewrite Hm. simpl. rewrite (is_deleted_used _ Hu), andb_false_r in H |- *.
        apply IH; [exact H|]. exists s'. auto.
Qed.

Lemma quadraticProbe_loop_frame fuel :
  forall A A' index stop cost cost' attempt j T1,
  extends A A' -> (forall i, slot A' i = slot T' i) ->
  quadraticProbe_loop fuel A key keyLength index stop cost attempt = Ok (j, T1) ->
  holds T' j key keyLength v ->
  exists T1', quadraticProbe_loop fuel A' key keyLength index stop cost' attempt
              = Ok (j, T1').
Proof.
  induction fuel as [|fuel IH];
    intros A A' index stop cost cost' attempt j T1 HA Hsame H (s' & Hs' & Hu' & Hm' & Hv');
    simpl in H.
  - discriminate.
  - destruct HA as (Hsize & Hp & Hsec & Hpr & Hslots).
    simpl. inv_bind H as sq eqn:Esq. simpl. inv_bind H as sum eqn:Esum. simpl.
    rewrite Hsize. inv_bind H as newIndex eqn:Ei. simpl.
    inv_bind H as s eqn:Es. inv_bind H as hit eqn:Eh.
    apply hit_cases in Eh. destruct Eh as [[-> Hn]|[Hu Hm]].
    + injection H as <- _. rewrite Hsame, Hs'. simpl.
      rewrite hit_used by exact Hu'. rewrite Hm'. simpl. eexists. reflexivity.
    + destruct hit.
      * injection H as <- _. rewrite Hsame, Hs'. simpl.
        rewrite hit_used by exact Hu'. rewrite Hm'. simpl. eexists. reflexivity.
      * rewrite (Hslots _ _ Es Hu). simpl. rewrite hit_used by exact Hu.
        rewrite Hm. simpl. rewrite (is_deleted_used _ Hu), andb_false_r in H |- *.
        inv_bind H as attempt' eqn:Ea. simpl.
        eapply (IH (bump_insertCost A) (bump_insertCost A')); [| |exact H|].
        -- unfold extends. simpl. repeat split; assumption.
        -- intros i. apply Hsame.
        -- exists s'. auto.
Qed.

Lemma doubleHashProbe_loop_frame fuel :
  forall A A' index stop step attempt j T1,
  extends A A' -> (forall i, slot A' i = slot T' i) ->
  doubleHashProbe_loop fuel A key keyLength index stop step attempt = Ok (j, T1) ->
  holds T' j key keyLength v ->
  exists T1', doubleHashProbe_loop fuel A' key keyLength index stop step attempt
              = Ok (j, T1').
Proof.
  induction fuel as [|fuel IH];
    intros A A' index stop step attempt j T1 HA Hsame H (s' & Hs' & Hu' & Hm' & Hv');
    simpl in H.
  - discriminate.
  - destruct HA as (Hsize & Hp & Hsec & Hpr & Hslots).
    simpl. inv_bind H as prod eqn:Esq. simpl. inv_bind H as sum eqn:Esum. simpl.
    rewrite Hsize. inv_bind H as newIndex eqn:Ei. simpl.
    inv_bind H as s eqn:Es. inv_bind H as hit eqn:Eh.
    apply hit_cases in Eh. destruct Eh as [[-> Hn]|[Hu Hm]].
    + injection H as <- _. rewrite Hsame, Hs'. simpl.
      rewrite hit_used by exact Hu'. rewrite Hm'. simpl. eexists. reflexivity.
    + destruct hit.
      * injection H as <- _. rewrite Hsame, Hs'. simpl.
        rewrite hit_used by exact Hu'. rewrite Hm'. simpl. eexists. reflexivity.
      * rewrite (Hslots _ _ Es Hu). simpl. rewrite hit_used by exact Hu.
        rewrite Hm. simpl. rewrite (is_deleted_used _ Hu), andb_false_r in H |- *.
        inv_bind H as attempt' eqn:Ea. simpl.
        eapply (IH (bump_insertCost A) (bump_insertCost A')); [| |exact H|].
        -- unfold extends. simpl. repeat split; assumption.
        -- intros i. apply Hsame.
        -- exists s'. auto.
Qed.

(** A probe that returned slot [j] in [T] returns slot [j] in every table
    that keeps the USED slots of [T] and holds the key in slot [j]. *)
Lemma call_probe_frame p fuel index stop cost cost' j T1 :
  call_probe p fuel T key keyLength index stop cost = Ok (j, T1) ->
  holds T' j key keyLength v ->
  exists T1', call_probe p fuel T' key keyLength index stop cost' = Ok (j, T1').
Proof.
  destruct p; simpl; intros H Hj.
  - eapply linearProbe_loop_frame; [|exact Hj].
    unfold linearProbe in H. destruct Hext as (-> & _). exact H.
  - eapply quadraticProbe_loop_frame; [exact Hext|reflexivity|exact H|exact Hj].
  - unfold doubleHashProbe in *. destruct Hext as (Hsize & _ & Hsec & _).
    rewrite Hsize, Hsec. inv_bind H as step eqn:Est. simpl.
    eapply doubleHashProbe_loop_frame; [exact Hext|reflexivity|exact H|exact Hj].
Qed.

End ProbeFrame.

Lemma linearProbe_loop_accepts todo T key keyLength cur j T1 :
  linearProbe_loop todo T key keyLength false cur = Ok (j, T1) ->
  j = -1 \/ exists s, slot T j = Ok s
                      /\ (validity s <> HASH_USED
                          \/ doKeysMatch (hashtools.key s) (keylen s) key keyLength = Ok true).
Proof.
  revert cur. induction todo as [|todo IH]; intros cur H; simpl in H.
  - injection H as <- _. left. reflexivity.
  - inv_bind H as next. inv_bind H as cur'. inv_bind H as s eqn:Es.
    inv_bind H as hit eqn:Eh. apply hit_cases in Eh.
    destruct Eh as [[-> Hn]|[Hu Hm]].
    + injection H as <- _. right. exists s. auto.
    + destruct hit.
      * injection H as <- _. right. exists s. split; [exact Es|]. right.
        rewrite doKeysMatch_sym. exact Hm.
      * eapply IH, H.
Qed.

Lemma quadraticProbe_loop_accepts fuel T key keyLength index cost attempt j T1 :
  quadraticProbe_loop fuel T key keyLength index false cost attempt = Ok (j, T1) ->
  exists s, slot T j = Ok s
            /\ (validity s <> HASH_USED
                \/ doKeysMatch (hashtools.key s) (keylen s) key keyLength = Ok true).
Proof.
  revert T attempt. induction fuel as [|fuel IH]; intros T attempt H; simpl in H.
  - discriminate.
  - inv_bind H as sq. inv_bind H as sum. inv_bind H as newIndex. inv_bind H as s eqn:Es.
    inv_bind H as hit eqn:Eh. apply hit_cases in Eh.
    destruct Eh as [[-> Hn]|[Hu Hm]].
    + injection H as <- _. exists s. auto.
    + destruct hit.
      * injection H as <- _. exists s. auto.
      * inv_bind H as attempt'. apply IH in H. exact H.
Qed.

Lemma doubleHashProbe_loop_accepts fuel T key keyLength index step attempt j T1 :
  doubleHashProbe_loop fuel T key keyLength index false step attempt = Ok (j, T1) ->
  exists s, slot T j = Ok s
            /\ (validity s <> HASH_USED
                \/ doKeysMatch (hashtools.key s) (keylen s) key keyLength = Ok true).
Proof.
  revert T attempt. induction fuel as [|fuel IH]; intros T attempt H; simpl in H.
  - discriminate.
  - inv_bind H as prod. inv_bind H as sum. inv_bind H as newIndex. inv_bind H as s eqn:Es.
    inv_bind H as hit eqn:Eh. apply hit_cases in Eh.
    destruct Eh as [[-> Hn]|[Hu Hm]].
    + injection H as <- _. exists s. auto.
    + destruct hit.
      * injection H as <- _. exists s. auto.
      * inv_bind H as attempt'. apply IH in H. exact H.
Qed.

(** The slot that a probe returns is not USED or holds the key. *)
Lemma call_probe_accepts p fuel T key keyLength index cost j T1 :
  call_probe p fuel T key keyLength index false cost = Ok (j, T1) ->
  j = -1 \/ exists s, slot T j = Ok s
                      /\ (validity s <> HASH_USED
                          \/ doKeysMatch (hashtools.key s) (keylen s) key keyLength = Ok true).
Proof.
  destruct p; simpl; intros H.
  - eapply linearProbe_loop_accepts, H.
  - right. eapply quadraticProbe_loop_accepts, H.
  - right. unfold doubleHashProbe in H. inv_bind H as step.
    eapply doubleHashProbe_loop_accepts, H.
Qed.

(** ** The key that was just inserted is found *)

Lemma slot_set_insertCost (a : AssociativeArray) (n i : Z) :
  slot (set_insertCost a n) i = slot a i.
Proof. reflexivity. Qed.

Lemma slot_insert (a : AssociativeArray) (j i : Z) (x s : KeyDataPair) :
  slot a j = Ok s ->
  slot (set_table a (<[Z.to_nat j := x]> (table a))) i
  = if i =? j then Ok x else slot a i.
Proof.
  intros Hj. apply slot_Ok in Hj. destruct Hj as [Hj0 Hj].
  apply lookup_lt_Some in Hj. unfold slot. simpl.
  destruct (i <? 0) eqn:Ei.
  - destruct (i =? j) eqn:Eij; [lia | reflexivity].
  - destruct (i =? j) eqn:Eij.
    + apply Z.eqb_eq in Eij. subst i. rewrite list_lookup_insert_eq by exact Hj. reflexivity.
    + rewrite list_lookup_insert_ne by lia. reflexivity.
Qed.

Lemma aaInsert_found fuel T key keylen value r T' :
  aaInsert fuel T key keylen value = Ok (r, T') -> 0 <= r ->
  storable_key key keylen ->
  found_at fuel T' key keylen value /\ extends T T'.
Proof.
  unfold aaInsert. intros H Hr (copy' & Hcopy & Hlen).
  destruct (size T <=? nEntries T); [injection H as <- _; lia|].
  inv_bind H as index eqn:Eh. inv_bind H as [e A] eqn:El.
  assert (Hfinal : forall (j : Z) (s : KeyDataPair) (n : Z),
             slot T j = Ok s -> validity s <> HASH_USED ->
             let T'' := set_nEntries
                          (set_table (set_insertCost T n)
                             (<[Z.to_nat j := mkKeyDataPair copy' keylen value HASH_USED]>
                                (table T))) (nEntries T + 1) in
             holds T'' j key keylen value /\ extends T T'').
  { intros j s n Hs Hn T''. split.
    - exists (mkKeyDataPair copy' keylen value HASH_USED).
      split; [|split; [reflexivity|split; [|reflexivity]]].
      + unfold T''. change (slot (set_nEntries ?a _) j) with (slot a j).
        rewrite (slot_insert (set_insertCost T n) j j _ s Hs), Z.eqb_refl. reflexivity.
      + simpl. apply doKeysMatch_copy; assumption.
    - unfold extends. simpl. repeat split; try reflexivity.
      intros i si Hsi Hu.
      change (slot T'' i) with
        (slot (set_table (set_insertCost T n)
                 (<[Z.to_nat j := mkKeyDataPair copy' keylen value HASH_USED]>
                    (table (set_insertCost T n)))) i).
      rewrite (slot_insert (set_insertCost T n) j i _ s Hs).
      destruct (i =? j) eqn:Eij; [|exact Hsi].
      apply Z.eqb_eq in Eij. subst i. rewrite Hs in Hsi. injection Hsi as <-.
      contradiction. }
  destruct fuel as [|fuel]; [discriminate El|]. simpl in El.
  inv_bind El as s0 eqn:Es0. destruct (is_used s0) eqn:Hu0.
  - (* the slot of the hash index is USED by another key *)
    apply bool_decide_eq_true_1 in Hu0.
    inv_bind El as m eqn:Em. destruct m; [injection El as <- <-; injection H as <- _; lia|].
    inv_bind El as [j A1] eqn:Ep.
    destruct (j =? index) eqn:Eji; [injection El as <- <-; injection H as <- _; lia|].
    apply Z.eqb_neq in Eji.
    pose proof (call_probe_state _ _ _ _ _ _ _ _ _ _ Ep) as (n & Hn & ->).
    destruct fuel as [|fuel]; [discriminate El|]. simpl in El.
    inv_bind El as sj eqn:Esj. rewrite slot_set_insertCost in Esj.
    destruct (is_used sj) eqn:Huj.
    + (* the probe returned a USED slot: it holds the key, no insertion *)
      apply bool_decide_eq_true_1 in Huj.
      apply call_probe_accepts in Ep.
      destruct Ep as [->|(s & Hs & [Hs'|Hs'])].
      * apply slot_Ok in Esj. lia.
      * rewrite Hs in Esj. injection Esj as ->. contradiction.
      * rewrite Hs in Esj. injection Esj as ->. rewrite Hs' in El. simpl in El.
        injection El as <- <-. injection H as <- _. lia.
    + apply bool_decide_eq_false_1 in Huj.
      injection El as <- <-. rewrite Hcopy in H. simpl in H.
      inv_bind H as n' eqn:En'. apply int_op_Ok in En'. destruct En' as [-> _].
      injection H as <- <-.
      destruct (Hfinal j sj n Esj Huj) as [Hholds Hext]. split; [|exact Hext].
      exists index. split; [exact Eh|]. right.
      destruct (call_probe_frame T _ key keylen value Hext _ _ _ _ _ (Some 0)
                  _ _ Ep Hholds) as (T1' & Hp').
      exists fuel, s0, (Some 0), j, T1'.
      split; [reflexivity|]. split.
      { destruct Hext as (_ & _ & _ & _ & Hslots). apply Hslots; assumption. }
      split; [exact Hu0|]. split; [exact Em|]. split; [exact Hp'|]. split; assumption.
  - (* the slot of the hash index is free *)
    apply bool_decide_eq_false_1 in Hu0.
    injection El as <- <-. rewrite Hcopy in H. simpl in H.
    inv_bind H as n' eqn:En'. apply int_op_Ok in En'. destruct En' as [-> _].
    injection H as <- <-.
    assert (HT : T = set_insertCost T (insertCost T)) by (destruct T; reflexivity).
    destruct (Hfinal index s0 (insertCost T) Es0 Hu0) as [Hholds Hext].
    rewrite <- HT in Hholds, Hext. split; [|exact Hext].
    exists index. split; [exact Eh|]. left. split; [lia | exact Hholds].
Qed.

Lemma holds_extends T T' j key keylen value :
  holds T j key keylen value -> extends T T' -> holds T' j key keylen value.
Proof.
  intros (s & Hs & Hu & Hm & Hv) (_ & _ & _ & _ & Hslots).
  exists s. repeat split; try assumption. apply Hslots; assumption.
Qed.

(** Filling slots that were not USED keeps every key that was found. *)
Lemma found_at_extends fuel T T' key keylen value :
  found_at fuel T key keylen value -> extends T T' -> found_at fuel T' key keylen value.
Proof.
  intros (index & Hh & Hcase) Hext.
  pose proof Hext as (Hsize & Hprim & Hsec & Hprobe & Hslots).
  exists index. rewrite Hsize, Hprim. split; [exact Hh|].
  destruct Hcase as [[Hf Hholds]|(fuel' & s0 & cost & j & a1 & -> & Hs0 & Hu0 & Hm0 & Hp & Hji & Hholds)].
  - left. split; [exact Hf|]. eapply holds_extends; eassumption.
  - right. pose proof (holds_extends _ _ _ _ _ _ Hholds Hext) as Hholds'.
    destruct (call_probe_frame T T' key keylen value Hext _ _ _ _ _ cost _ _ Hp Hholds')
      as (T1' & Hp').
    exists fuel', s0, cost, j, T1'. rewrite Hprobe.
    split; [reflexivity|]. split; [apply Hslots; assumption|].
    split; [exact Hu0|]. split; [exact Hm0|]. split; [exact Hp'|]. split; assumption.
Qed.

(** A key that the walk reaches is returned by the search, with its value. *)
Lemma found_at_lookup fuel T key keylen value :
  found_at fuel T key keylen value ->
  exists T', aaLookup fuel T key keylen = Ok (value, T').
Proof.
  intros (index & Hh & Hcase). unfold aaLookup. rewrite Hh. simpl.
  destruct Hcase as [[Hf (s & Hs & Hu & Hm & Hv)]
                    |(fuel' & s0 & cost & j & a1 & -> & Hs0 & Hu0 & Hm0 & Hp & Hji & Hholds)].
  - destruct fuel as [|fuel]; [lia|]. simpl. rewrite Hs. simpl.
    unfold is_used. rewrite bool_decide_eq_true_2 by exact Hu.
    rewrite Hm. simpl. rewrite Hv. eexists. reflexivity.
  - simpl. rewrite Hs0. simpl. unfold is_used at 1.
    rewrite bool_decide_eq_true_2 by exact Hu0. rewrite Hm0. simpl.
    set (Ts := set_searchCost T (searchCost T + 1)).
    assert (Hext : extends T Ts) by (unfold extends; simpl; auto).
    pose proof (holds_extends _ _ _ _ _ _ Hholds Hext) as Hholds'.
    destruct (call_probe_frame T Ts key keylen value Hext _ _ _ _ _ (Some 0) _ _ Hp Hholds')
      as (T1' & Hp').
    change (hashProbe Ts) with (hashProbe T). rewrite Hp'. simpl.
    rewrite (proj2 (Z.eqb_neq j index) Hji).
    pose proof (call_probe_state _ _ _ _ _ _ _ _ _ _ Hp') as (n & Hn & ->).
    destruct Hholds as (s & Hs & Hu & Hm & Hv).
    change (slot (set_insertCost Ts n) j) with (slot T j). rewrite Hs. simpl.
    unfold is_used. rewrite bool_decide_eq_true_2 by exact Hu.
    rewrite Hm. simpl. rewrite Hv. eexists. reflexivity.
Qed.

(** A key that the walk reaches is not inserted again: the insertion
    returns [-1] and changes the insert-cost counter at most. *)
Lemma found_at_insert_fails fuel T key keylen value value' :
  found_at fuel T key keylen value ->
  exists T', aaInsert fuel T key keylen value' = Ok (-1, T') /\ only_insertCost T T'.
Proof.
  intros (index & Hh & Hcase). unfold aaInsert.
  destruct (size T <=? nEntries T).
  { exists T. split; [reflexivity | apply only_insertCost_refl]. }
  rewrite Hh. simpl.
  destruct Hcase as [[Hf (s & Hs & Hu & Hm & Hv)]
                    |(fuel' & s0 & cost & j & a1 & -> & Hs0 & Hu0 & Hm0 & Hp & Hji & Hholds)].
  - destruct fuel as [|fuel]; [lia|]. simpl. rewrite Hs. simpl.
    unfold is_used. rewrite bool_decide_eq_true_2 by exact Hu.
    rewrite Hm. simpl. exists T. split; [reflexivity | apply only_insertCost_refl].
  - simpl. rewrite Hs0. simpl. unfold is_used at 1.
    rewrite bool_decide_eq_true_2 by exact Hu0. rewrite Hm0. simpl.
    destruct (call_probe_frame T T key keylen value (extends_refl T) _ _ _ _ _
                (Some (0 + 1)) _ _ Hp Hholds) as (T1 & Hp').
    rewrite Hp'. simpl. rewrite (proj2 (Z.eqb_neq j index) Hji).
    pose proof (call_probe_state _ _ _ _ _ _ _ _ _ _ Hp') as Hcost.
    destruct Hholds as (s & Hs & Hu & Hm & Hv).
    assert (Hs1 : slot T1 j = Ok s).
    { destruct Hcost as (n & _ & ->). exact Hs. }
    rewrite Hs1. simpl. unfold is_used. rewrite bool_decide_eq_true_2 by exact Hu.
    rewrite Hm. simpl. exists T1. split; [reflexivity | exact Hcost].
Qed.

(** Under every probing function: when all the insertions of a sequence
    returned a slot, every key of the sequence is found afterwards. *)
Lemma inserts_found fuel (entries : list (list Z * nat * Z)) :
  forall T rs T',
    run_operations fuel T (map insert_of entries) = Ok (rs, T') ->
    Forall (fun r => 0 <= r) rs ->
    Forall (fun e => storable_key e.1.1 e.1.2) entries ->
    extends T T'
    /\ forall key keylen value, (key, keylen, value) ∈ entries ->
         found_at fuel T' key keylen value.
Proof.
  induction entries as [|[[k l] v] entries IH]; intros T rs T' Hrun Hrs Hst; simpl in Hrun.
  - injection Hrun as <- <-. split; [apply extends_refl|].
    intros key keylen value Hin. apply elem_of_nil in Hin. contradiction.
  - inv_bind Hrun as [r T1] eqn:E1. inv_bind Hrun as [rs' T2] eqn:E2.
    injection Hrun as <- <-.
    apply Forall_cons in Hrs. destruct Hrs as [Hr Hrs].
    apply Forall_cons in Hst. destruct Hst as [Hs Hst]. simpl in Hs.
    destruct (aaInsert_found _ _ _ _ _ _ _ E1 Hr Hs) as [Hfound Hext1].
    destruct (IH _ _ _ E2 Hrs Hst) as [Hext2 Hall].
    split; [eapply extends_trans; eassumption|].
    intros key keylen value Hin. apply elem_of_cons in Hin.
    destruct Hin as [Heq|Hin].
    + injection Heq as -> -> ->. eapply found_at_extends; eassumption.
    + apply Hall, Hin.
Qed.

(** ** Linear probing finds a free slot *)

Lemma slot_in_range (T : AssociativeArray) (i : Z) :
  well_formed T -> 0 <= i < size T -> exists s, slot T i = Ok s.
Proof.
  intros [_ Hlen] Hi.
  destruct (lookup_lt_is_Some_2 (table T) (Z.to_nat i)) as [s Hs]; [lia|].
  exists s. apply slot_Ok. split; [lia | exact Hs].
Qed.

Lemma int_op_in_range (z : Z) : INT_MIN <= z <= INT_MAX -> int_op z = Ok z.
Proof.
  intros H. unfold int_op.
  rewrite (proj2 (Z.leb_le _ _) (proj1 H)), (proj2 (Z.leb_le _ _) (proj2 H)). reflexivity.
Qed.

Lemma c_mod_pos (a b : Z) : 0 <= a -> 0 < b -> c_mod a b = Ok (a mod b).
Proof.
  intros Ha Hb. unfold c_mod. rewrite (proj2 (Z.eqb_neq b 0)) by lia.
  rewrite Z.rem_mod_nonneg by lia. reflexivity.
Qed.

Section LinearProbe.

Variables (T : AssociativeArray) (key : list Z) (keyLength : nat).
Hypothesis Hwf : well_formed T.
Hypothesis Hnomatch :
  forall i s, slot T i = Ok s -> validity s = HASH_USED ->
              doKeysMatch key keyLength (hashtools.key s) (keylen s) = Ok false.

Lemma linearProbe_loop_finds_free (todo : nat) :
  forall (cur d : Z) (sp : KeyDataPair),
    0 <= cur < size T -> 1 <= d <= Z.of_nat todo ->
    slot T ((cur + d) mod size T) = Ok sp -> validity sp <> HASH_USED ->
    exists j sj,
      linearProbe_loop todo T key keyLength false cur = Ok (j, bump_insertCost T)
      /\ slot T j = Ok sj /\ validity sj <> HASH_USED.
Proof.
  destruct Hwf as [Hsize Hlen].
  induction todo as [|todo IH]; intros cur d sp Hcur Hd Hsp Hfree; [lia|].
  simpl. rewrite int_op_in_range by (unfold INT_MIN, INT_MAX in *; lia). simpl.
  rewrite c_mod_pos by lia. simpl.
  assert (Hcur' : 0 <= (cur + 1) mod size T < size T) by (apply Z.mod_pos_bound; lia).
  destruct (slot_in_range T _ Hwf Hcur') as [s Hs]. rewrite Hs. simpl.
  destruct (decide (validity s = HASH_USED)) as [Hu|Hu].
  - rewrite hit_used by exact Hu. rewrite (Hnomatch _ _ Hs Hu). simpl.
    assert (Hd1 : d <> 1).
    { intros ->. rewrite Hs in Hsp. injection Hsp as <-. contradiction. }
    apply (IH _ (d - 1) sp); [exact Hcur' | lia | | exact Hfree].
    rewrite Zplus_mod_idemp_l. replace (cur + 1 + (d - 1)) with (cur + d) by lia.
    exact Hsp.
  - unfold is_used. rewrite bool_decide_eq_false_2 by exact Hu. simpl.
    exists ((cur + 1) mod size T), s. auto.
Qed.

Lemma linearProbe_finds_free (index p : Z) (sp : KeyDataPair) (cost : option Z) :
  0 <= index < size T ->
  slot T p = Ok sp -> validity sp <> HASH_USED ->
  exists j sj,
    linearProbe T key keyLength index false cost = Ok (j, bump_insertCost T)
    /\ slot T j = Ok sj /\ validity sj <> HASH_USED.
Proof.
  intros Hi Hp Hfree. destruct Hwf as [Hsize Hlen].
  assert (Hpr : 0 <= p < size T).
  { apply slot_Ok in Hp. destruct Hp as [Hp0 Hp]. apply lookup_lt_Some in Hp. lia. }
  unfold linearProbe.
  destruct (decide (p = index)) as [->|Hne].
  - apply (linearProbe_loop_finds_free _ index (size T) sp);
      [lia | lia | | exact Hfree].
    rewrite <- (Z.mul_1_l (size T)) at 1. rewrite Z.mod_add by lia.
    rewrite Z.mod_small by lia. exact Hp.
  - apply (linearProbe_loop_finds_free _ index ((p - index) mod size T) sp);
      [lia | | | exact Hfree].
    + pose proof (Z.mod_pos_bound (p - index) (size T) ltac:(lia)) as Hb.
      assert ((p - index) mod size T <> 0); [|lia].
      intros H0. apply Z.mod_divide in H0; [|lia]. destruct H0 as [q Hq].
      assert (q = 0) by nia. subst q. lia.
    + rewrite Zplus_mod_idemp_r. replace (index + (p - index)) with p by lia.
      rewrite Z.mod_small by lia. exact Hp.
Qed.

End LinearProbe.

(** ** Counting the USED slots *)

Lemma filter_length_lt_exists {A : Type} (P : A -> Prop) `{!forall x, Decision (P x)}
    (l : list A) :
  (length (filter P l) < length l)%nat -> exists i x, l !! i = Some x /\ ~ P x.
Proof.
  induction l as [|a l IH]; simpl; intros Hlt; [lia|].
  destruct (decide (P a)) as [Ha|Ha].
  - rewrite filter_cons_True in Hlt by exact Ha. simpl in Hlt.
    destruct IH as (i & x & Hi & Hx); [lia|]. exists (S i), x. auto.
  - exists 0%nat, a. auto.
Qed.

Lemma filter_insert_length {A : Type} (P : A -> Prop) `{!forall x, Decision (P x)}
    (l : list A) (i : nat) (x y : A) :
  l !! i = Some y -> ~ P y -> P x ->
  length (filter P (<[i := x]> l)) = S (length (filter P l)).
Proof.
  revert i. induction l as [|a l IH]; intros [|i] Hi Hy Hx; simpl in *; try discriminate.
  - injection Hi as ->. rewrite filter_cons_True by exact Hx.
    rewrite filter_cons_False by exact Hy. reflexivity.
  - destruct (decide (P a)) as [Ha|Ha].
    + rewrite !filter_cons_True by exact Ha. simpl. f_equal. apply IH; assumption.
    + rewrite !filter_cons_False by exact Ha. apply IH; assumption.
Qed.

(** ** Insertion with linear probing *)

Lemma linear_no_match T done key keylen :
  linear_invariant T done ->
  storable_key key keylen ->
  (forall k' l' v', (k', l', v') ∈ done -> storable_key k' l' /\ ~ same_key k' l' key keylen) ->
  forall i s, slot T i = Ok s -> validity s = HASH_USED ->
              doKeysMatch (hashtools.key s) (hashtools.keylen s) key keylen = Ok false.
Proof.
  intros (_ & _ & _ & _ & Hslots) (copy & Hcopy & Hlen) Hdone i s Hs Hu.
  destruct (Hslots i s Hs Hu) as (k' & v' & Hin & Hk').
  destruct (Hdone _ _ _ Hin) as [(copy' & Hcopy' & Hlen') Hdiff].
  rewrite Hk' in Hcopy'. injection Hcopy' as <-.
  destruct (strdup_take _ _ _ Hk' Hlen') as [Ht' _].
  destruct (strdup_take _ _ _ Hcopy Hlen) as [_ Hk].
  destruct (doKeysMatch_defined (hashtools.key s) (hashtools.keylen s) key keylen Hlen' Hk)
    as (m & -> & Hm).
  destruct m; [|reflexivity]. exfalso. apply Hdiff.
  destruct (proj1 Hm eq_refl) as [Hl Ht]. split; [exact Hl|]. rewrite <- Ht'. exact Ht.
Qed.

Lemma insert_keeps_invariant T done j sj n key keylen value copy :
  linear_invariant T done ->
  slot T j = Ok sj -> validity sj <> HASH_USED ->
  strdup key = Ok copy ->
  linear_invariant
    (set_nEntries
       (set_table (set_insertCost T n)
          (<[Z.to_nat j := mkKeyDataPair copy keylen value HASH_USED]> (table T)))
       (nEntries T + 1))
    (done ++ [(key, keylen, value)]).
Proof.
  intros ([Hsize Hlen] & Hprobe & Hcount & Hdone & Hslots) Hj Hfree Hcopy.
  pose proof Hj as Hj'. apply slot_Ok in Hj'. destruct Hj' as [Hj0 Hjl].
  unfold linear_invariant, well_formed. simpl.
  split; [split; [exact Hsize | rewrite length_insert; exact Hlen]|].
  split; [exact Hprobe|]. split; [|split].
  - unfold used_slots. simpl.
    rewrite (filter_insert_length (fun s => validity s = HASH_USED) (table T)
               (Z.to_nat j) (mkKeyDataPair copy keylen value HASH_USED) sj Hjl Hfree eq_refl).
    unfold used_slots in Hcount. lia.
  - rewrite length_app. simpl. lia.
  - intros i s Hs Hu.
    change (slot _ i) with
      (slot (set_table T (<[Z.to_nat j := mkKeyDataPair copy keylen value HASH_USED]>
                            (table T))) i) in Hs.
    rewrite (slot_insert T j i _ sj Hj) in Hs.
    destruct (i =? j).
    + injection Hs as <-. simpl. exists key, value. split; [|exact Hcopy].
      apply elem_of_app. right. apply list_elem_of_singleton. reflexivity.
    + destruct (Hslots i s Hs Hu) as (k & v & Hin & Hk).
      exists k, v. split; [|exact Hk]. apply elem_of_app. left. exact Hin.
Qed.

Lemma linear_insert_succeeds fuel T done key keylen value :
  linear_invariant T done ->
  nEntries T < size T ->
  storable_key key keylen -> hash_in_range T key keylen ->
  (forall k' l' v', (k', l', v') ∈ done -> storable_key k' l' /\ ~ same_key k' l' key keylen) ->
  exists r T',
    aaInsert (S (S fuel)) T key keylen value = Ok (r, T') /\ 0 <= r
    /\ linear_invariant T' (done ++ [(key, keylen, value)])
    /\ size T' = size T /\ hashAlgorithmPrimary T' = hashAlgorithmPrimary T.
Proof.
  intros Hinv Hroom Hst (index & Hh & Hi) Hdone.
  pose proof (linear_no_match _ _ _ _ Hinv Hst Hdone) as Hnomatch.
  pose proof Hinv as (Hwf & Hprobe & Hcount & Hlen & Hslots).
  pose proof Hst as (copy & Hcopy & Hcl).
  assert (Hn : int_op (nEntries T + 1) = Ok (nEntries T + 1)).
  { apply int_op_in_range. destruct Hwf as [Hsz _]. unfold INT_MIN. lia. }
  unfold aaInsert. rewrite (proj2 (Z.leb_gt _ _) Hroom), Hh. simpl.
  destruct (slot_in_range T index Hwf Hi) as [s0 Hs0]. rewrite Hs0. simpl.
  destruct (decide (validity s0 = HASH_USED)) as [Hu0|Hu0].
  - unfold is_used at 1. rewrite bool_decide_eq_true_2 by exact Hu0.
    rewrite (Hnomatch _ _ Hs0 Hu0). simpl.
    (* a slot that is not USED exists, and the probe stops at the first one *)
    destruct (filter_length_lt_exists (fun s => validity s = HASH_USED) (table T))
      as (p & sp & Hp & Hfree).
    { destruct Hwf as [_ Hl]. unfold used_slots in Hcount. lia. }
    assert (Hsp : slot T (Z.of_nat p) = Ok sp).
    { apply slot_Ok. rewrite Nat2Z.id. split; [lia | exact Hp]. }
    destruct (linearProbe_finds_free T key keylen Hwf) with
      (index := index) (p := Z.of_nat p) (sp := sp) (cost := Some (0 + 1))
      as (j & sj & Hprobe_j & Hsj & Hfj); [|exact Hi|exact Hsp|exact Hfree|].
    { intros i s Hs Hu. rewrite doKeysMatch_sym. eapply Hnomatch; eassumption. }
    rewrite Hprobe. simpl. rewrite Hprobe_j. simpl.
    assert (Hji : j <> index).
    { intros ->. rewrite Hs0 in Hsj. injection Hsj as <-. contradiction. }
    rewrite (proj2 (Z.eqb_neq _ _) Hji).
    change (slot (bump_insertCost T) j) with (slot T j). rewrite Hsj. simpl.
    unfold is_used. rewrite bool_decide_eq_false_2 by exact Hfj.
    rewrite Hcopy. simpl. rewrite Hn. simpl.
    eexists _, _. split; [reflexivity|].
    split; [apply slot_Ok in Hsj; lia|].
    split; [|split; reflexivity].
    apply (insert_keeps_invariant T done j sj); assumption.
  - unfold is_used. rewrite bool_decide_eq_false_2 by exact Hu0.
    rewrite Hcopy. simpl. rewrite Hn. simpl.
    eexists _, _. split; [reflexivity|]. split; [lia|].
    split; [|split; reflexivity].
    assert (HT : T = set_insertCost T (insertCost T)) by (destruct T; reflexivity).
    rewrite HT at 1.
    apply (insert_keeps_invariant T done index s0); assumption.
Qed.

Lemma linear_inserts_succeed fuel (entries : list (list Z * nat * Z)) :
  forall T done,
    linear_invariant T done ->
    Z.of_nat (length (done ++ entries)) <= size T ->
    distinct_keys (done ++ entries) ->
    (forall k l v, (k, l, v) ∈ done ++ entries -> storable_key k l /\ hash_in_range T k l) ->
    exists rs T',
      run_operations (S (S fuel)) T (map insert_of entries) = Ok (rs, T')
      /\ Forall (fun r => 0 <= r) rs.
Proof.
  induction entries as [|[[k l] v] entries IH]; intros T done Hinv Hlen Hdist Hkeys.
  - exists [], T. split; [reflexivity | constructor].
  - destruct (linear_insert_succeeds fuel T done k l v Hinv) as (r & T1 & Hins & Hr & Hinv1 & Hsz & Hpr).
    + destruct Hinv as (_ & _ & _ & Hn & _). rewrite length_app in Hlen. simpl in Hlen. lia.
    + apply (Hkeys k l v). apply elem_of_app. right. apply elem_of_cons. left. reflexivity.
    + apply (Hkeys k l v). apply elem_of_app. right. apply elem_of_cons. left. reflexivity.
    + intros k' l' v' Hin. split.
      * apply (Hkeys k' l' v'). apply elem_of_app. left. exact Hin.
      * intros Hsame. apply list_elem_of_lookup in Hin. destruct Hin as [i Hi].
        pose proof (lookup_lt_Some _ _ _ Hi) as Hlt.
        assert (Heq : i = length done); [|lia].
        apply (Hdist i (length done) k' k l' l v' v).
        -- rewrite lookup_app_l by exact Hlt. exact Hi.
        -- apply list_lookup_middle. reflexivity.
        -- exact Hsame.
    + destruct (IH T1 (done ++ [(k, l, v)]) Hinv1) as (rs & T' & Hrun & Hrs).
      * rewrite <- app_assoc. simpl. rewrite Hsz. exact Hlen.
      * rewrite <- app_assoc. exact Hdist.
      * intros k' l' v' Hin. rewrite <- app_assoc in Hin.
        destruct (Hkeys k' l' v' Hin) as [Hs (index & Hh & Hi)]. split; [exact Hs|].
        exists index. rewrite Hsz, Hpr. auto.
      * exists (r :: rs), T'. simpl. rewrite Hins. simpl. rewrite Hrun. simpl.
        split; [reflexivity | constructor; assumption].
Qed.

Lemma filter_replicate_none {A : Type} (P : A -> Prop) `{!forall x, Decision (P x)}
    (n : nat) (x : A) :
  ~ P x -> filter P (replicate n x) = [].
Proof.
  intros Hx. induction n as [|n IH]; simpl; [reflexivity|].
  rewrite filter_cons_False by exact Hx. exact IH.
Qed.

(** The table that [aaCreateAssociativeArray] returns. *)
Lemma linear_invariant_fresh getLargerPrime n probingStrategy hashPrimary hashSecondary T :
  aaCreateAssociativeArray getLargerPrime n probingStrategy hashPrimary hashSecondary
  = Some T ->
  hashProbe T = LinearProbe -> size T <= INT_MAX ->
  linear_invariant T [].
Proof.
  unfold aaCreateAssociativeArray. intros H Hprobe Hmax.
  destruct (getLargerPrime n <? 1) eqn:Hn; [discriminate|].
  injection H as <-. simpl in *. apply Z.ltb_ge in Hn.
  unfold linear_invariant, well_formed, used_slots. simpl.
  rewrite length_replicate, filter_replicate_none by discriminate.
  repeat split; try lia; try assumption.
  intros i s Hs Hu. apply slot_Ok in Hs. destruct Hs as [_ Hs]. simpl in Hs.
  apply lookup_replicate in Hs. destruct Hs as [-> _]. discriminate Hu.
Qed.

(** ** The hash of a key of bytes *)

Lemma hashByLength_in_range key keyLength size :
  0 < size <= INT_MAX ->
  hashByLength key keyLength size = Ok (Z.of_nat keyLength mod size)
  /\ 0 <= Z.of_nat keyLength mod size < size.
Proof.
  intros Hs. pose proof (Z.mod_pos_bound (Z.of_nat keyLength) size ltac:(lia)) as Hb.
  split; [|exact Hb]. unfold hashByLength.
  rewrite (Z.mod_small size) by (unfold INT_MAX in Hs; lia).
  rewrite c_mod_pos by lia. simpl. apply int_op_in_range.
  unfold INT_MIN. lia.
Qed.

Lemma read_take (key : list Z) (n i : nat) (P : Z -> Prop) :
  (i < n)%nat -> (n <= length key)%nat -> Forall P (take n key) ->
  exists c, read key i = Ok c /\ P c.
Proof.
  intros Hi Hn Hall.
  destruct (lookup_lt_is_Some_2 key i) as [c Hc]; [lia|].
  exists c. unfold read. rewrite Hc. split; [reflexivity|].
  eapply Forall_lookup_1; [exact Hall|]. rewrite lookup_take_lt by exact Hi. exact Hc.
Qed.

Lemma hashBySum_loop_bound key (n : nat) :
  (n <= length key)%nat -> Z.of_nat n <= 4000 -> Forall (fun c => 0 <= c < 256) (take n key) ->
  forall (todo i : nat) (sum : Z),
    (i + todo = n)%nat -> 0 <= sum <= 255 * Z.of_nat i ->
    exists r, hashBySum_loop todo key i sum = Ok r /\ 0 <= r <= 255 * Z.of_nat n.
Proof.
  intros Hn Hmax Hall. induction todo as [|todo IH]; intros i sum Hi Hsum.
  - exists sum. split; [reflexivity|]. replace n with i by lia. exact Hsum.
  - simpl. destruct (read_take key n i _ ltac:(lia) Hn Hall) as (c & -> & Hc). simpl in Hc |- *.
    rewrite int_op_in_range by (unfold INT_MIN, INT_MAX; lia). simpl.
    apply IH; lia.
Qed.

Lemma hashByWeightSum_loop_bound key (n : nat) :
  (n <= length key)%nat -> Z.of_nat n <= 4000 -> Forall (fun c => 0 <= c < 256) (take n key) ->
  forall (todo i : nat) (sum : Z),
    (i + todo = n)%nat -> 0 <= 2 * sum <= 255 * (Z.of_nat i * (Z.of_nat i + 1)) ->
    exists r, hashByWeightSum_loop todo key i sum (Z.of_nat i + 1) = Ok r
              /\ 0 <= r <= INT_MAX.
Proof.
  intros Hn Hmax Hall. induction todo as [|todo IH]; intros i sum Hi Hsum.
  - exists sum. split; [reflexivity|].
    assert (Z.of_nat i * (Z.of_nat i + 1) <= 4000 * 4001) by nia.
    unfold INT_MAX. lia.
  - simpl. destruct (read_take key n i _ ltac:(lia) Hn Hall) as (c & -> & Hc).
    simpl in Hc |- *.
    assert (Hi1 : Z.of_nat i + 1 <= 4000) by lia.
    assert (Hprod : 0 <= c * (Z.of_nat i + 1) <= 255 * (Z.of_nat i + 1)) by nia.
    assert (Hsq : (Z.of_nat i + 1) * (Z.of_nat i + 2) <= 4000 * 4001) by nia.
    assert (Hnew : 0 <= 2 * (sum + c * (Z.of_nat i + 1))
                   <= 255 * ((Z.of_nat i + 1) * (Z.of_nat i + 2))) by nia.
    rewrite int_op_in_range by (unfold INT_MIN, INT_MAX; lia). simpl.
    rewrite int_op_in_range by (unfold INT_MIN, INT_MAX; lia). simpl.
    rewrite int_op_in_range by (unfold INT_MIN, INT_MAX; lia). simpl.
    replace (Z.of_nat i + 1 + 1) with (Z.of_nat (S i) + 1) by lia.
    apply IH; [lia|].
    replace (Z.of_nat (S i)) with (Z.of_nat i + 1) by lia.
    replace (Z.of_nat i + 1 + 1) with (Z.of_nat i + 2) by lia. exact Hnew.
Qed.

(** Each of the three hash functions gives a slot index for a key of
    bytes, whatever the capacity. *)
Lemma hash_in_range_byte_key aarray key keylen :
  0 < size aarray <= INT_MAX -> byte_key key keylen -> hash_in_range aarray key keylen.
Proof.
  intros Hs (Hlen & Hmax & Hall). unfold hash_in_range.
  destruct (hashAlgorithmPrimary aarray); simpl.
  - destruct (hashBySum_loop_bound key keylen Hlen Hmax Hall keylen 0 0) as (r & Hr & Hb);
      [lia | lia |].
    exists (r mod size aarray). unfold hashBySum. rewrite Hr. simpl.
    rewrite c_mod_pos by lia. split; [reflexivity|]. apply Z.mod_pos_bound. lia.
  - destruct (hashByLength_in_range key keylen (size aarray) Hs) as [Hh Hb].
    eexists. split; [exact Hh | exact Hb].
  - destruct (hashByWeightSum_loop_bound key keylen Hlen Hmax Hall keylen 0 0)
      as (r & Hr & Hb); [lia | lia |].
    exists (r mod size aarray). unfold hashByWeightSum.
    change (Z.of_nat 0 + 1) with 1 in Hr. rewrite Hr. simpl.
    rewrite c_mod_pos by lia. split; [reflexivity|]. apply Z.mod_pos_bound. lia.
Qed.

(** A string of non-zero bytes with its terminator is storable, with its
    length or with the terminator counted. *)
Lemma strdup_c_string (bytes : list Z) :
  Forall (fun c => c <> 0) bytes -> strdup (bytes ++ [0]) = Ok (bytes ++ [0]).
Proof.
  induction bytes as [|c bytes IH]; intros Hall; simpl; [reflexivity|].
  apply Forall_cons in Hall. destruct Hall as [Hc Hall].
  rewrite (proj2 (Z.eqb_neq c 0) Hc), (IH Hall). reflexivity.
Qed.

Lemma storable_c_string (bytes : list Z) (keylen : nat) :
  Forall (fun c => c <> 0) bytes -> (keylen <= S (length bytes))%nat ->
  storable_key (bytes ++ [0]) keylen.
Proof.
  intros Hall Hlen. exists (bytes ++ [0]). split; [apply strdup_c_string, Hall|].
  rewrite length_app. simpl. lia.
Qed.

(** From a table with linear probing in which nothing was inserted yet. *)
Lemma linear_invariant_inserts (T : AssociativeArray) (entries : list (list Z * nat * Z))
    (fuel : nat) :
  linear_invariant T [] ->
  Z.of_nat (length entries) <= size T ->
  distinct_keys entries ->
  (forall key keylen value, (key, keylen, value) ∈ entries ->
     storable_key key keylen /\ hash_in_range T key keylen) ->
  inserts_then_lookups_succeed (S (S fuel)) T entries.
Proof.
  intros Hinv Hlen Hdist Hkeys.
  destruct (linear_inserts_succeed fuel entries T [] Hinv Hlen Hdist Hkeys)
    as (rs & T' & Hrun & Hrs).
  exists rs, T'. split; [exact Hrun|]. split; [exact Hrs|].
  destruct (inserts_found _ _ _ _ _ Hrun Hrs) as [_ Hfound].
  - apply Forall_forall. intros [[k l] v] Hin. simpl. apply (Hkeys k l v Hin).
  - intros key keylen value Hin ic sc dc. apply found_at_lookup.
    eapply found_at_extends; [apply Hfound, Hin|].
    unfold extends, with_costs. simpl. auto.
Qed.

(** X28.  In a table that [aaCreateAssociativeArray] returns
    with linear probing and a capacity that is an [int], for every
    sequence of entries with mutually distinct keys that is not longer
    than the capacity, each key being a C string whose copy holds its
    [keylen] bytes and whose primary hash is a slot index: every
    insertion returns a slot, and afterwards the search for each key
    returns the value that was inserted with it. *)
Theorem linear_inserts_then_lookups (getLargerPrime : Z -> Z) (n : Z)
    (probingStrategy hashPrimary hashSecondary : string) (t0 : AssociativeArray)
    (entries : list (list Z * nat * Z)) (fuel : nat) :
  aaCreateAssociativeArray getLargerPrime n probingStrategy hashPrimary hashSecondary
  = Some t0 ->
  hashProbe t0 = LinearProbe ->
  size t0 <= INT_MAX ->
  Z.of_nat (length entries) <= size t0 ->
  distinct_keys entries ->
  (forall key keylen value, (key, keylen, value) ∈ entries ->
     storable_key key keylen /\ hash_in_range t0 key keylen) ->
  inserts_then_lookups_succeed (S (S fuel)) t0 entries.
Proof.
  intros Hcreate Hprobe Hmax Hlen Hdist Hkeys.
  apply linear_invariant_inserts; try assumption.
  eapply linear_invariant_fresh; eassumption.
Qed.

(** For C strings of at most 4000 non-zero bytes the conditions on the
    keys hold, whichever of the three hash functions the table uses. *)
Corollary c_string_inserts_then_lookups (getLargerPrime : Z -> Z) (n : Z)
    (probingStrategy hashPrimary hashSecondary : string) (t0 : AssociativeArray)
    (strings : list (list Z * Z)) (fuel : nat) :
  aaCreateAssociativeArray getLargerPrime n probingStrategy hashPrimary hashSecondary
  = Some t0 ->
  hashProbe t0 = LinearProbe ->
  size t0 <= INT_MAX ->
  Z.of_nat (length strings) <= size t0 ->
  NoDup (strings.*1) ->
  Forall (fun e => Forall (fun c => 0 < c < 256) e.1 /\ Z.of_nat (length e.1) <= 4000)
    strings ->
  inserts_then_lookups_succeed (S (S fuel)) t0 (map c_string_entry strings).
Proof.
  intros Hcreate Hprobe Hmax Hlen Hnodup Hbytes.
  assert (Hpos : 0 < size t0).
  { unfold aaCreateAssociativeArray in Hcreate.
    destruct (getLargerPrime n <? 1) eqn:Hn; [discriminate|].
    injection Hcreate as <-. simpl. apply Z.ltb_ge in Hn. lia. }
  apply linear_invariant_inserts.
  - eapply linear_invariant_fresh; eassumption.
  - rewrite length_map. exact Hlen.
  - intros i j ki kj li lj vi vj Hi Hj [Hl Ht].
    rewrite list_lookup_fmap in Hi, Hj.
    destruct (strings !! i) as [[bi xi]|] eqn:Ei; [|discriminate].
    destruct (strings !! j) as [[bj xj]|] eqn:Ej; [|discriminate].
    simpl in Hi, Hj. unfold c_string_entry in Hi, Hj. simpl in Hi, Hj.
    injection Hi as <- <- <-. injection Hj as <- <- <-.
    rewrite take_app_length in Ht. rewrite Hl, take_app_length in Ht. subst bj.
    eapply NoDup_lookup; [exact Hnodup| |]; rewrite list_lookup_fmap.
    + rewrite Ei. reflexivity.
    + rewrite Ej. reflexivity.
  - intros key keylen value Hin. apply list_elem_of_fmap in Hin.
    destruct Hin as ([b x] & Heq & Hin). unfold c_string_entry in Heq. simpl in Heq.
    injection Heq as -> -> ->.
    pose proof (proj1 (Forall_forall _ _) Hbytes _ Hin) as [Hb Hl]. simpl in Hb, Hl.
    split.
    + apply storable_c_string; [|lia].
      eapply Forall_impl; [exact Hb|]. simpl. intros c Hc. lia.
    + apply hash_in_range_byte_key; [lia|].
      split; [rewrite length_app; simpl; lia|]. split; [exact Hl|].
      rewrite take_app_length. eapply Forall_impl; [exact Hb|]. simpl. intros c Hc. lia.
Qed.

(** * The claim about insertions as it was made *)

Lemma distinct_keys_a_b_c : distinct_keys entries_a_b_c.
Proof.
  intros i j ki kj li lj vi vj Hi Hj [Hl Ht].
  destruct i as [|[|[|i]]]; destruct j as [|[|[|j]]]; simpl in Hi, Hj;
    try discriminate; try reflexivity;
    injection Hi as <- <- <-; injection Hj as <- <- <-; discriminate Ht.
Qed.

Lemma distinct_keys_single (e : list Z * nat * Z) : distinct_keys [e].
Proof.
  intros i j ki kj li lj vi vj Hi Hj _.
  destruct i as [|i]; destruct j as [|j]; simpl in Hi, Hj; try discriminate; reflexivity.
Qed.

(** C1.  The code breaks the claim at a key with a zero byte.  In the
    table of 3 slots that [aaCreateAssociativeArray] returns for linear
    probing and hashing by length, the insertion of the key of three
    bytes 1, 0, 2 returns slot 0; the slot then holds the copy that
    [strdup] made, which ends at the zero byte and has two bytes, with
    the key length 3; and the search for the key compares three bytes of
    that copy, which reads past its end: it is undefined, with whatever
    fuel, so that the key is not retrievable. *)
Theorem key_with_zero_byte_not_retrievable :
  exists t0 t1 : AssociativeArray,
    aaCreateAssociativeArray getLargerPrime_spec 3 "linear" "len" "len" = Some t0
    /\ Z.of_nat (length [(key_with_zero, 3%nat, 100)]) <= size t0
    /\ distinct_keys [(key_with_zero, 3%nat, 100)]
    /\ (forall fuel, aaInsert (S fuel) t0 key_with_zero 3 100 = Ok (0, t1))
    /\ table t1 !! 0%nat = Some (mkKeyDataPair [1; 0] 3 100 HASH_USED)
    /\ (forall fuel, aaLookup (S fuel) t1 key_with_zero 3 = Undefined)
    /\ forall fuel, ~ inserts_then_lookups_succeed fuel t0 [(key_with_zero, 3%nat, 100)].
Proof.
  eexists. eexists.
  split; [reflexivity|]. split; [apply Z.leb_le; reflexivity|].
  split; [apply distinct_keys_single|].
  split; [intros fuel; reflexivity|].
  split; [reflexivity|].
  split; [intros fuel; reflexivity|].
  intros fuel (rs & T' & Hrun & _ & Hlookup).
  destruct fuel as [|fuel]; [discriminate Hrun|].
  simpl in Hrun. injection Hrun as <- <-.
  match type of Hlookup with
  | context [with_costs ?t _ _ _] =>
      destruct (Hlookup key_with_zero 3%nat 100 ltac:(apply list_elem_of_singleton; reflexivity)
                  (insertCost t) (searchCost t) (deleteCost t)) as [T'' Hl]
  end.
  discriminate Hl.
Qed.

(** * The theorems at concrete tables *)

Lemma aaInsert_full_table_witness :
  nEntries table_full_linear = size table_full_linear
  /\ aaInsert 0 table_full_linear key_xyz 3 7 = Ok (-1, table_full_linear).
Proof.
  split; [reflexivity|].
  apply (aaInsert_full_table 0 table_full_linear key_xyz 3 7). reflexivity.
Defined.

Lemma aaIterateAction_visits_used_slots_witness :
  well_formed table_tombstone
  /\ (aaIterateAction record_values table_tombstone []
      = Ok (visit_in_order record_values (used_slots table_tombstone) [])
      /\ forall p : HashProbe,
           aaIterateAction record_values (set_hashProbe table_tombstone p) []
           = aaIterateAction record_values table_tombstone []).
Proof.
  assert (Hwf : well_formed table_tombstone).
  { split; [split; [reflexivity | apply Z.leb_le; reflexivity] | reflexivity]. }
  split; [exact Hwf|].
  apply (aaIterateAction_visits_used_slots record_values table_tombstone [] Hwf).
Defined.

Lemma nEntries_never_decreases_witness :
  run_operations 1 table_full_linear [Delete key_a 1; Insert key_a 1 400]
  = Ok ([100; -1], table_full_linear_without_a)
  /\ (size table_full_linear_without_a = size table_full_linear
      /\ nEntries table_full_linear <= nEntries table_full_linear_without_a
      /\ (forall fuel' key keylen v aarray'',
            aaDelete fuel' table_full_linear_without_a key keylen = Ok (v, aarray'') ->
            nEntries aarray'' = nEntries table_full_linear_without_a)
      /\ (size table_full_linear <= nEntries table_full_linear ->
          forall fuel' key keylen value,
            aaInsert fuel' table_full_linear_without_a key keylen value
            = Ok (-1, table_full_linear_without_a))).
Proof.
  assert (Hrun : run_operations 1 table_full_linear [Delete key_a 1; Insert key_a 1 400]
                 = Ok ([100; -1], table_full_linear_without_a)) by reflexivity.
  split; [exact Hrun|].
  apply (nEntries_never_decreases 1 table_full_linear
           [Delete key_a 1; Insert key_a 1 400] [100; -1]
           table_full_linear_without_a Hrun).
Defined.

Lemma linear_inserts_then_lookups_witness :
  exists t0 : AssociativeArray,
    aaCreateAssociativeArray getLargerPrime_spec 3 "linear" "len" "len" = Some t0
    /\ hashProbe t0 = LinearProbe
    /\ size t0 <= INT_MAX
    /\ Z.of_nat (length entries_a_b_c) <= size t0
    /\ distinct_keys entries_a_b_c
    /\ (forall key keylen value, (key, keylen, value) ∈ entries_a_b_c ->
          storable_key key keylen /\ hash_in_range t0 key keylen)
    /\ inserts_then_lookups_succeed 2 t0 entries_a_b_c.
Proof.
  eexists.
  assert (Hkeys : forall key keylen value, (key, keylen, value) ∈ entries_a_b_c ->
            storable_key key keylen
            /\ hash_in_range
                 (mkAssociativeArray HashByLength "len" HashByLength "len" LinearProbe
                    "linear" [zero_slot; zero_slot; zero_slot] 3 0 0 0 0) key keylen).
  { intros key keylen value Hin. unfold entries_a_b_c in Hin.
    repeat (apply elem_of_cons in Hin; destruct Hin as [Hin|Hin]);
      [| | |apply elem_of_nil in Hin; contradiction];
      injection Hin as -> -> ->;
      (split; [eexists; split; [reflexivity | simpl; lia]
              | eexists; split;
                [reflexivity | split; [apply Z.leb_le | apply Z.ltb_lt]; reflexivity]]). }
  split; [reflexivity|]. split; [reflexivity|].
  split; [apply Z.leb_le; reflexivity|]. split; [apply Z.leb_le; reflexivity|].
  split; [exact distinct_keys_a_b_c|]. split; [exact Hkeys|].
  apply (linear_inserts_then_lookups getLargerPrime_spec 3 "linear" "len" "len" _
           entries_a_b_c 0 eq_refl eq_refl).
  - apply Z.leb_le. reflexivity.
  - apply Z.leb_le. reflexivity.
  - exact distinct_keys_a_b_c.
  - exact Hkeys.
Defined.

(** * Further properties of the code *)

(** * The hash functions *)

Lemma sum_bytes_bound (l : list Z) :
  bytes l -> 0 <= sum_bytes l <= 255 * Z.of_nat (length l).
Proof.
  induction l as [|c l IH]; intros Hb; simpl; [lia|].
  apply Forall_cons in Hb. destruct Hb as [Hc Hb]. specialize (IH Hb). lia.
Qed.

Lemma hashBySum_loop_sum (key : list Z) (todo : nat) :
  forall (i : nat) (sum : Z),
    (i + todo <= length key)%nat -> bytes (take todo (drop i key)) ->
    0 <= sum -> sum + 255 * Z.of_nat todo <= INT_MAX ->
    hashBySum_loop todo key i sum = Ok (sum + sum_bytes (take todo (drop i key))).
Proof.
  induction todo as [|todo IH]; intros i sum Hlen Hb Hsum Hmax; simpl.
  - rewrite Z.add_0_r. reflexivity.
  - destruct (lookup_lt_is_Some_2 key i) as [c Hc]; [lia|].
    rewrite (drop_S _ _ _ Hc) in Hb |- *. simpl in Hb |- *.
    apply Forall_cons in Hb. destruct Hb as [Hcb Hb].
    unfold read. rewrite Hc. simpl.
    rewrite int_op_in_range by (unfold INT_MIN; lia). simpl.
    rewrite IH; [f_equal; lia | lia | exact Hb | lia | lia].
Qed.

(** X1. [hashBySum]: for a key whose first [keyLength] bytes are readable
    unsigned characters, few enough for their sum to stay in an [int],
    and a positive capacity, the index is the sum of those bytes modulo
    the capacity, a slot index. *)
Theorem hashBySum_sum (key : list Z) (keyLength : nat) (size : Z) :
  (keyLength <= length key)%nat -> bytes (take keyLength key) ->
  255 * Z.of_nat keyLength <= INT_MAX -> 0 < size ->
  hashBySum key keyLength size = Ok (sum_bytes (take keyLength key) mod size)
  /\ 0 <= sum_bytes (take keyLength key) mod size < size.
Proof.
  intros Hlen Hb Hmax Hsize. split; [|apply Z.mod_pos_bound; lia].
  unfold hashBySum.
  rewrite (hashBySum_loop_sum key keyLength 0 0) by (rewrite ?drop_0; auto; lia).
  rewrite drop_0. simpl.
  pose proof (sum_bytes_bound _ Hb). apply c_mod_pos; lia.
Qed.

Lemma weighted_sum_bound (l : list Z) (w : Z) :
  bytes l -> 0 <= w ->
  0 <= 2 * weighted_sum l w
    <= 255 * (Z.of_nat (length l) * (2 * w + Z.of_nat (length l) - 1)).
Proof.
  revert w. induction l as [|c l IH]; intros w Hb Hw; simpl weighted_sum; simpl length.
  - simpl. lia.
  - apply Forall_cons in Hb. destruct Hb as [Hc Hb].
    specialize (IH (w + 1) Hb ltac:(lia)).
    assert (0 <= c * w <= 255 * w) by nia.
    rewrite Nat2Z.inj_succ. nia.
Qed.

Lemma hashByWeightSum_loop_sum (key : list Z) (todo : nat) :
  forall (i : nat) (sum : Z),
    (i + todo <= length key)%nat -> bytes (take todo (drop i key)) ->
    0 <= 2 * sum <= 255 * (Z.of_nat i * (Z.of_nat i + 1)) ->
    Z.of_nat (i + todo) <= 4000 ->
    hashByWeightSum_loop todo key i sum (Z.of_nat i + 1)
    = Ok (sum + weighted_sum (take todo (drop i key)) (Z.of_nat i + 1)).
Proof.
  induction todo as [|todo IH]; intros i sum Hlen Hb Hsum Hmax; simpl.
  - rewrite Z.add_0_r. reflexivity.
  - destruct (lookup_lt_is_Some_2 key i) as [c Hc]; [lia|].
    rewrite (drop_S _ _ _ Hc) in Hb |- *. simpl in Hb |- *.
    apply Forall_cons in Hb. destruct Hb as [Hcb Hb].
    unfold read. rewrite Hc. simpl.
    assert (Hi1 : Z.of_nat i + 1 <= 4000) by lia.
    assert (Hprod : 0 <= c * (Z.of_nat i + 1) <= 255 * (Z.of_nat i + 1)) by nia.
    assert (Hsq : (Z.of_nat i + 1) * (Z.of_nat i + 2) <= 4000 * 4001) by nia.
    assert (Hnew : 0 <= 2 * (sum + c * (Z.of_nat i + 1))
                   <= 255 * ((Z.of_nat i + 1) * (Z.of_nat i + 2))) by nia.
    rewrite int_op_in_range by (unfold INT_MIN, INT_MAX; lia). simpl.
    rewrite int_op_in_range by (unfold INT_MIN, INT_MAX; lia). simpl.
    rewrite int_op_in_range by (unfold INT_MIN, INT_MAX; lia). simpl.
    replace (Z.of_nat i + 1 + 1) with (Z.of_nat (S i) + 1) by lia.
    rewrite IH; [f_equal; lia | lia | exact Hb | | lia].
    replace (Z.of_nat (S i)) with (Z.of_nat i + 1) by lia.
    replace (Z.of_nat i + 1 + 1) with (Z.of_nat i + 2) by lia. exact Hnew.
Qed.

(** X2. [hashByWeightSum]: for a key whose first [keyLength] bytes are
    readable unsigned characters, at most 4000 of them, and a positive
    capacity, the index is the sum of the bytes, each multiplied by its
    position counted from 1, modulo the capacity, a slot index. *)
Theorem hashByWeightSum_weighted_sum (key : list Z) (keyLength : nat) (size : Z) :
  (keyLength <= length key)%nat -> bytes (take keyLength key) ->
  Z.of_nat keyLength <= 4000 -> 0 < size ->
  hashByWeightSum key keyLength size = Ok (weighted_sum (take keyLength key) 1 mod size)
  /\ 0 <= weighted_sum (take keyLength key) 1 mod size < size.
Proof.
  intros Hlen Hb Hmax Hsize. split; [|apply Z.mod_pos_bound; lia].
  unfold hashByWeightSum.
  pose proof (hashByWeightSum_loop_sum key keyLength 0 0) as Hloop.
  rewrite drop_0 in Hloop. change (Z.of_nat 0 + 1) with 1 in Hloop.
  rewrite Hloop by (simpl; auto; lia). simpl.
  pose proof (weighted_sum_bound _ 1 Hb ltac:(lia)). apply c_mod_pos; lia.
Qed.

(** X3. [hashByLength] does not read the key: for every key pointer, the
    null pointer too, and a positive capacity that is an [int], the index
    is the key length modulo the capacity, a slot index. *)
Theorem hashByLength_ignores_key (key : list Z) (keyLength : nat) (size : Z) :
  0 < size <= INT_MAX ->
  hashByLength key keyLength size = Ok (Z.of_nat keyLength mod size)
  /\ hashByLength [] keyLength size = hashByLength key keyLength size
  /\ 0 <= Z.of_nat keyLength mod size < size.
Proof.
  intros Hs. pose proof (Z.mod_pos_bound (Z.of_nat keyLength) size ltac:(lia)) as Hb.
  assert (H : forall k, hashByLength k keyLength size = Ok (Z.of_nat keyLength mod size)).
  { intros k. unfold hashByLength.
    rewrite (Z.mod_small size) by (unfold INT_MAX in Hs; lia).
    rewrite c_mod_pos by lia. simpl. apply int_op_in_range. unfold INT_MIN. lia. }
  split; [apply H|]. split; [rewrite !H; reflexivity | exact Hb].
Qed.

Lemma read_take_same (key : list Z) (n i : nat) :
  (i < n)%nat -> read (take n key) i = read key i.
Proof. intros Hi. unfold read. rewrite lookup_take_lt by exact Hi. reflexivity. Qed.

Lemma hashBySum_loop_take (key : list Z) (n todo : nat) :
  forall (i : nat) (sum : Z), (i + todo <= n)%nat ->
    hashBySum_loop todo (take n key) i sum = hashBySum_loop todo key i sum.
Proof.
  induction todo as [|todo IH]; intros i sum Hi; simpl; [reflexivity|].
  rewrite read_take_same by lia. destruct (read key i) as [c| |]; simpl; try reflexivity.
  destruct (int_op (sum + c)) as [s| |]; simpl; try reflexivity. apply IH. lia.
Qed.

Lemma hashByWeightSum_loop_take (key : list Z) (n todo : nat) :
  forall (i : nat) (sum w : Z), (i + todo <= n)%nat ->
    hashByWeightSum_loop todo (take n key) i sum w = hashByWeightSum_loop todo key i sum w.
Proof.
  induction todo as [|todo IH]; intros i sum w Hi; simpl; [reflexivity|].
  rewrite read_take_same by lia. destruct (read key i) as [c| |]; simpl; try reflexivity.
  destruct (int_op (c * w)) as [p| |]; simpl; try reflexivity.
  destruct (int_op (sum + p)) as [s| |]; simpl; try reflexivity.
  destruct (int_op (w + 1)) as [w'| |]; simpl; try reflexivity. apply IH. lia.
Qed.

(** X4. Keys that [doKeysMatch] takes for the same key hash alike: each
    of the three hash functions gives two keys of the same length and the
    same first [keylen] bytes the same result, whatever follows those
    bytes in memory. *)
Theorem matching_keys_hash_alike (h : HashAlgorithm) (key1 : list Z) (key1len : nat)
    (key2 : list Z) (key2len : nat) (size : Z) :
  same_key key1 key1len key2 key2len ->
  call_hash h key1 key1len size = call_hash h key2 key2len size.
Proof.
  intros [<- Ht]. destruct h; simpl.
  - unfold hashBySum.
    rewrite <- (hashBySum_loop_take key1 key1len), <- (hashBySum_loop_take key2 key1len),
      Ht by lia. reflexivity.
  - reflexivity.
  - unfold hashByWeightSum.
    rewrite <- (hashByWeightSum_loop_take key1 key1len),
      <- (hashByWeightSum_loop_take key2 key1len), Ht by lia. reflexivity.
Qed.

Lemma hashBySum_loop_out_of_bounds (key : list Z) (todo : nat) :
  forall (i : nat) (sum : Z), (i <= length key < i + todo)%nat ->
    hashBySum_loop todo key i sum = Undefined.
Proof.
  induction todo as [|todo IH]; intros i sum Hi; [lia|]. simpl. unfold read.
  destruct (key !! i) as [c|] eqn:Hc; simpl; [|reflexivity].
  apply lookup_lt_Some in Hc.
  destruct (int_op (sum + c)) as [s| |] eqn:Es; simpl; try reflexivity.
  - apply IH. lia.
  - unfold int_op in Es. destruct (_ && _); discriminate.
Qed.

Lemma hashByWeightSum_loop_out_of_bounds (key : list Z) (todo : nat) :
  forall (i : nat) (sum w : Z), (i <= length key < i + todo)%nat ->
    hashByWeightSum_loop todo key i sum w = Undefined.
Proof.
  assert (Hint : forall z, int_op z <> OutOfFuel).
  { intros z. unfold int_op. destruct (_ && _); discriminate. }
  induction todo as [|todo IH]; intros i sum w Hi; [lia|]. simpl. unfold read.
  destruct (key !! i) as [c|] eqn:Hc; simpl; [|reflexivity].
  apply lookup_lt_Some in Hc.
  destruct (int_op (c * w)) as [p| |] eqn:E1; simpl; try reflexivity;
    [|exfalso; eapply Hint, E1].
  destruct (int_op (sum + p)) as [s| |] eqn:E2; simpl; try reflexivity;
    [|exfalso; eapply Hint, E2].
  destruct (int_op (w + 1)) as [w'| |] eqn:E3; simpl; try reflexivity;
    [|exfalso; eapply Hint, E3].
  apply IH. lia.
Qed.

(** X5. The two summing hash functions read [keyLength] bytes whatever
    the object holds: when the key object has fewer bytes, the call reads
    past its end, which is undefined, for every capacity. *)
Theorem summing_hashes_read_keyLength_bytes (key : list Z) (keyLength : nat) (size : Z) :
  (length key < keyLength)%nat ->
  hashBySum key keyLength size = Undefined
  /\ hashByWeightSum key keyLength size = Undefined.
Proof.
  intros Hlen. unfold hashBySum, hashByWeightSum.
  rewrite hashBySum_loop_out_of_bounds, hashByWeightSum_loop_out_of_bounds by lia.
  split; reflexivity.
Qed.

(** * Rendering a key *)

Lemma printableKey_allChars_forallb (key : list Z) (todo : nat) :
  forall i : nat, (i + todo <= length key)%nat ->
    printableKey_allChars todo key i = Ok (forallb isprint (take todo (drop i key))).
Proof.
  induction todo as [|todo IH]; intros i Hi; simpl; [reflexivity|].
  destruct (lookup_lt_is_Some_2 key i) as [c Hc]; [lia|].
  unfold read. rewrite Hc, (drop_S _ _ _ Hc). simpl.
  destruct (isprint c); [apply IH; lia | reflexivity].
Qed.

Lemma printableKey_chars_take (bufferlen : Z) (key : list Z) (todo : nat) :
  forall (i : nat) (out : list Z) (m : nat), (i + todo <= length key)%nat ->
    m = Nat.min todo (Z.to_nat (bufferlen - 2 - Z.of_nat (length out))) ->
    printableKey_chars todo bufferlen key i out = Ok (out ++ take m (drop i key)).
Proof.
  induction todo as [|todo IH]; intros i out m Hi Hm; simpl.
  - subst m. simpl. rewrite app_nil_r. reflexivity.
  - destruct (Z.of_nat (length out) <? bufferlen - 2) eqn:Hpos.
    + apply Z.ltb_lt in Hpos.
      destruct (lookup_lt_is_Some_2 key i) as [c Hc]; [lia|].
      unfold read. rewrite Hc. simpl.
      destruct m as [|m]; [lia|].
      rewrite (IH (S i) (out ++ [c]) m) by (rewrite ?length_app; simpl; lia).
      rewrite (drop_S _ _ _ Hc). simpl. rewrite <- app_assoc. reflexivity.
    + apply Z.ltb_ge in Hpos. replace m with 0%nat by lia.
      simpl. rewrite app_nil_r. reflexivity.
Qed.

Lemma hex_digits_cons (c : Z) (l : list Z) :
  hex_digits (c :: l)
  = toHex (Z.shiftr (Z.land c 240) 4) :: toHex (Z.land c 15) :: hex_digits l.
Proof. reflexivity. Qed.

Lemma length_hex_digits (l : list Z) : length (hex_digits l) = (2 * length l)%nat.
Proof. induction l as [|c l IH]; [reflexivity|]. rewrite hex_digits_cons. simpl. lia. Qed.

Lemma printableKey_hex_take (bufferlen : Z) (key : list Z) (todo : nat) :
  forall (i : nat) (out : list Z) (m : nat), (i + todo <= length key)%nat ->
    m = Nat.min todo (Z.to_nat ((bufferlen - 3 - Z.of_nat (length out)) / 2)) ->
    printableKey_hex todo bufferlen key i out
    = Ok (out ++ hex_digits (take m (drop i key))).
Proof.
  induction todo as [|todo IH]; intros i out m Hi Hm; simpl.
  - subst m. simpl. rewrite app_nil_r. reflexivity.
  - destruct (Z.of_nat (length out) <? bufferlen - 4) eqn:Hpos.
    + apply Z.ltb_lt in Hpos.
      destruct (lookup_lt_is_Some_2 key i) as [c Hc]; [lia|].
      unfold read. rewrite Hc. simpl.
      assert (Hdiv : (bufferlen - 3 - Z.of_nat (length out)) / 2
                     = (bufferlen - 3 - Z.of_nat (length out + 2)) / 2 + 1).
      { rewrite <- Z.div_add by lia. f_equal. lia. }
      assert (Hnn : 0 <= (bufferlen - 3 - Z.of_nat (length out + 2)) / 2).
      { apply Z.div_pos; lia. }
      destruct m as [|m]; [lia|].
      rewrite (IH (S i) _ m) by (rewrite ?length_app; simpl; lia).
      rewrite (drop_S _ _ _ Hc). simpl take.
      rewrite hex_digits_cons, <- app_assoc. reflexivity.
    + apply Z.ltb_ge in Hpos.
      assert (Hdiv : (bufferlen - 3 - Z.of_nat (length out)) / 2 <= 0).
      { apply Z.lt_succ_r. apply Z.div_lt_upper_bound; lia. }
      replace m with 0%nat by lia.
      simpl. rewrite app_nil_r. reflexivity.
Qed.

Lemma snprintf_literal_whole (bufferlen : Z) (lit : list Z) :
  Z.of_nat (length lit) < bufferlen -> snprintf_literal bufferlen lit = Ok lit.
Proof.
  intros H. unfold snprintf_literal. rewrite (proj2 (Z.leb_gt _ _)) by lia.
  rewrite take_ge by lia. reflexivity.
Qed.

(** What the printable rendering leaves in the buffer. *)
Lemma printableKey_chars_output (bufferlen : Z) (key : list Z) (printlen : nat) :
  (printlen <= length key)%nat ->
  forallb isprint (take printlen key) = true ->
  12 <= bufferlen ->
  printableKey bufferlen key printlen
  = Ok (1, char_key_prefix
           ++ take (Nat.min printlen (Z.to_nat (bufferlen - 12))) key
           ++ closing_bracket).
Proof.
  intros Hlen Hprint Hbuf. unfold printableKey.
  rewrite (printableKey_allChars_forallb key printlen 0), drop_0, Hprint by lia. simpl.
  fold char_key_prefix.
  rewrite snprintf_literal_whole by (simpl; lia). simpl.
  rewrite (printableKey_chars_take bufferlen key printlen 0 char_key_prefix
             (Nat.min printlen (Z.to_nat (bufferlen - 12)))) by (simpl; lia).
  rewrite drop_0. simpl bind. unfold printableKey_close.
  rewrite (proj2 (Z.ltb_lt _ _)).
  - unfold bind, closing_bracket. first [reflexivity | rewrite <- app_assoc; reflexivity].
  - rewrite ?length_app; simpl length; rewrite ?length_take; lia.
Qed.

(** X6. [printableKey] on a key whose first [printlen] bytes are readable
    and all printable, with a buffer of at least 12 characters: the buffer
    receives [char key:[], the first [printlen] bytes of the key as they
    are, cut after [bufferlen - 12] of them, and the closing bracket. *)
Theorem printableKey_printable (bufferlen : Z) (key : list Z) (printlen : nat) :
  (printlen <= length key)%nat ->
  forallb isprint (take printlen key) = true ->
  12 <= bufferlen ->
  printableKey bufferlen key printlen
  = Ok (1, char_key_prefix
           ++ take (Nat.min printlen (Z.to_nat (bufferlen - 12))) key
           ++ closing_bracket).
Proof.
  apply printableKey_chars_output.
Qed.

(** What the hexadecimal rendering leaves in the buffer. *)
Lemma printableKey_hex_output (bufferlen : Z) (key : list Z) (printlen : nat) :
  (printlen <= length key)%nat ->
  forallb isprint (take printlen key) = false ->
  13 <= bufferlen ->
  printableKey bufferlen key printlen
  = Ok (1, hex_key_prefix
           ++ hex_digits (take (Nat.min printlen (Z.to_nat ((bufferlen - 14) / 2))) key)
           ++ closing_bracket).
Proof.
  intros Hlen Hprint Hbuf. unfold printableKey.
  rewrite (printableKey_allChars_forallb key printlen 0), drop_0, Hprint by lia. simpl.
  fold hex_key_prefix.
  rewrite snprintf_literal_whole by (simpl; lia). simpl.
  rewrite (printableKey_hex_take bufferlen key printlen 0 hex_key_prefix
             (Nat.min printlen (Z.to_nat ((bufferlen - 14) / 2))))
    by (simpl; try lia; do 3 f_equal; lia).
  rewrite drop_0. simpl bind. unfold printableKey_close.
  rewrite (proj2 (Z.ltb_lt _ _)).
  - unfold bind, closing_bracket. first [reflexivity | rewrite <- app_assoc; reflexivity].
  - rewrite ?length_app; simpl length; rewrite ?length_app, length_hex_digits, length_take.
    assert (Hd : 2 * ((bufferlen - 14) / 2) <= bufferlen - 14)
      by (apply Z.mul_div_le; lia).
    destruct (Z.le_gt_cases 0 ((bufferlen - 14) / 2)); simpl; lia.
Qed.

(** X7. [printableKey] on a key with a byte that is not printable among
    its first [printlen] readable bytes, with a buffer of at least 13
    characters: the buffer receives [hex key:[0x], two hexadecimal digits
    for each of the first [printlen] bytes, cut after [(bufferlen - 14) / 2]
    bytes, and the closing bracket. *)
Theorem printableKey_hexadecimal (bufferlen : Z) (key : list Z) (printlen : nat) :
  (printlen <= length key)%nat ->
  forallb isprint (take printlen key) = false ->
  13 <= bufferlen ->
  printableKey bufferlen key printlen
  = Ok (1, hex_key_prefix
           ++ hex_digits (take (Nat.min printlen (Z.to_nat ((bufferlen - 14) / 2))) key)
           ++ closing_bracket).
Proof.
  apply printableKey_hex_output.
Qed.

(** With room for the longer prefix, the bracket and the terminator, the
    rendering stays within the buffer. *)
Lemma printableKey_returns (bufferlen : Z) (key : list Z) (printlen : nat) :
  (printlen <= length key)%nat -> 13 <= bufferlen ->
  exists out, printableKey bufferlen key printlen = Ok (1, out)
              /\ Z.of_nat (length out) + 1 <= bufferlen.
Proof.
  intros Hlen Hbuf.
  destruct (forallb isprint (take printlen key)) eqn:Hprint.
  - eexists. split; [apply printableKey_chars_output; [exact Hlen|exact Hprint|lia]|].
    rewrite !length_app, length_take. simpl. lia.
  - eexists. split; [apply printableKey_hex_output; [exact Hlen|exact Hprint|lia]|].
    rewrite !length_app, length_hex_digits, length_take. simpl.
    assert (Hd : 2 * ((bufferlen - 14) / 2) <= bufferlen - 14)
      by (apply Z.mul_div_le; lia).
    destruct (Z.le_gt_cases 0 ((bufferlen - 14) / 2)); lia.
Qed.

(** X8. With a buffer of at least 13 characters and [printlen] readable
    bytes, [printableKey] returns 1 and the string it leaves fits the
    buffer with its terminator. *)
Theorem printableKey_fits_buffer (bufferlen : Z) (key : list Z) (printlen : nat) :
  (printlen <= length key)%nat -> 13 <= bufferlen ->
  exists out, printableKey bufferlen key printlen = Ok (1, out)
              /\ Z.of_nat (length out) + 1 <= bufferlen.
Proof.
  apply printableKey_returns.
Qed.

(** X9. With a buffer of 1 to 11 characters, [printableKey] writes past
    the end of the buffer, for every key with [printlen] readable bytes:
    the truncated prefix fills the buffer and the bracket and terminator
    are stored after it. *)
Theorem printableKey_small_buffer (bufferlen : Z) (key : list Z) (printlen : nat) :
  (printlen <= length key)%nat -> 0 < bufferlen <= 11 ->
  printableKey bufferlen key printlen = Undefined.
Proof.
  intros Hlen Hbuf. unfold printableKey.
  rewrite (printableKey_allChars_forallb key printlen 0), drop_0 by lia. simpl.
  unfold snprintf_literal. rewrite (proj2 (Z.leb_gt _ _)) by lia.
  destruct (forallb isprint (take printlen key)); simpl bind.
  - rewrite (printableKey_chars_take bufferlen key printlen 0 _ 0)
      by (rewrite ?length_take; simpl; lia).
    simpl bind. unfold printableKey_close.
    rewrite (proj2 (Z.ltb_ge _ _)); [reflexivity|].
    rewrite length_app, length_take. simpl. lia.
  - rewrite (printableKey_hex_take bufferlen key printlen 0 _ 0).
    + simpl bind. unfold printableKey_close.
      rewrite (proj2 (Z.ltb_ge _ _)); [reflexivity|].
      rewrite length_app, length_take. simpl. lia.
    + lia.
    + rewrite length_take. simpl length.
      assert ((bufferlen - 3 - Z.of_nat (Z.to_nat (bufferlen - 1) `min` 11)) / 2 <= 0).
      { apply Z.lt_succ_r. apply Z.div_lt_upper_bound; lia. }
      lia.
Qed.

Lemma toHex_value (v : Z) :
  0 <= v < 16 -> hex_value (toHex v) = v /\ is_hex_digit (toHex v).
Proof.
  intros Hv. unfold toHex, hex_value, is_hex_digit.
  destruct (v <? 10) eqn:E.
  - apply Z.ltb_lt in E. rewrite (proj2 (Z.ltb_lt _ _)) by lia. lia.
  - apply Z.ltb_ge in E. rewrite (proj2 (Z.ltb_ge _ _)) by lia. lia.
Qed.

(** X10. The two digits that the hexadecimal rendering gives for an
    unsigned character are hexadecimal digits in lower case, and they
    give the byte back: sixteen times the value of the first plus the
    value of the second. *)
Theorem hex_digits_round_trip (c : Z) :
  0 <= c < 256 ->
  exists d1 d2, hex_digits [c] = [d1; d2]
                /\ is_hex_digit d1 /\ is_hex_digit d2
                /\ 16 * hex_value d1 + hex_value d2 = c.
Proof.
  intros Hc. eexists _, _. split; [reflexivity|].
  assert (Hhi : Z.shiftr (Z.land c 240) 4 = c / 16).
  { rewrite Z.shiftr_land. change (Z.shiftr 240 4) with (Z.ones 4).
    rewrite Z.land_ones, Z.shiftr_div_pow2 by lia. change (2 ^ 4) with 16.
    apply Z.mod_small. split; [apply Z.div_pos; lia|].
    apply Z.div_lt_upper_bound; lia. }
  assert (Hlo : Z.land c 15 = c mod 16).
  { change 15 with (Z.ones 4). rewrite Z.land_ones by lia. reflexivity. }
  rewrite Hhi, Hlo.
  assert (H1 : 0 <= c / 16 < 16).
  { split; [apply Z.div_pos; lia | apply Z.div_lt_upper_bound; lia]. }
  pose proof (Z.mod_pos_bound c 16 ltac:(lia)) as H2.
  destruct (toHex_value _ H1) as [-> Hd1]. destruct (toHex_value _ H2) as [-> Hd2].
  split; [exact Hd1|]. split; [exact Hd2|].
  pose proof (Z.div_mod c 16 ltac:(lia)). lia.
Qed.

(** * The probing functions *)

Lemma linearProbe_loop_stop_inert todo T key keyLength stop cur :
  linearProbe_loop todo T key keyLength stop cur
  = linearProbe_loop todo T key keyLength false cur.
Proof.
  revert cur. induction todo as [|todo IH]; intros cur; simpl; [reflexivity|].
  destruct (int_op (cur + 1)) as [next| |]; simpl; try reflexivity.
  destruct (c_mod next (size T)) as [cur'| |]; simpl; try reflexivity.
  destruct (slot T cur') as [s| |]; simpl; try reflexivity.
  unfold is_used, is_deleted.
  destruct (decide (validity s = HASH_USED)) as [Hu|Hu].
  - rewrite bool_decide_eq_true_2 by exact Hu. simpl.
    rewrite (bool_decide_eq_false_2 (validity s = HASH_DELETED)) by congruence.
    rewrite andb_false_r.
    destruct (doKeysMatch key keyLength (hashtools.key s) (keylen s)) as [[|]| |];
      simpl; try reflexivity. apply IH.
  - rewrite bool_decide_eq_false_2 by exact Hu. reflexivity.
Qed.

Lemma quadraticProbe_loop_stop_inert fuel :
  forall T key keyLength index stop cost attempt,
    quadraticProbe_loop fuel T key keyLength index stop cost attempt
    = quadraticProbe_loop fuel T key keyLength index false cost attempt.
Proof.
  induction fuel as [|fuel IH]; intros T key keyLength index stop cost attempt; simpl;
    [reflexivity|].
  destruct (int_op (attempt * attempt)) as [sq| |]; simpl; try reflexivity.
  destruct (int_op (index + sq)) as [sum| |]; simpl; try reflexivity.
  destruct (c_mod sum (size T)) as [newIndex| |]; simpl; try reflexivity.
  destruct (slot T newIndex) as [s| |]; simpl; try reflexivity.
  unfold is_used, is_deleted.
  destruct (decide (validity s = HASH_USED)) as [Hu|Hu].
  - rewrite bool_decide_eq_true_2 by exact Hu. simpl.
    rewrite (bool_decide_eq_false_2 (validity s = HASH_DELETED)) by congruence.
    rewrite andb_false_r.
    destruct (doKeysMatch (hashtools.key s) (keylen s) key keyLength) as [[|]| |];
      simpl; try reflexivity.
    destruct (int_op (attempt + 1)) as [a'| |]; simpl; try reflexivity. apply IH.
  - rewrite bool_decide_eq_false_2 by exact Hu. reflexivity.
Qed.

Lemma doubleHashProbe_loop_stop_inert fuel :
  forall T key keyLength index stop step attempt,
    doubleHashProbe_loop fuel T key keyLength index stop step attempt
    = doubleHashProbe_loop fuel T key keyLength index false step attempt.
Proof.
  induction fuel as [|fuel IH]; intros T key keyLength index stop step attempt; simpl;
    [reflexivity|].
  destruct (int_op (attempt * step)) as [prod| |]; simpl; try reflexivity.
  destruct (int_op (index + prod)) as [sum| |]; simpl; try reflexivity.
  destruct (c_mod sum (size T)) as [newIndex| |]; simpl; try reflexivity.
  destruct (slot T newIndex) as [s| |]; simpl; try reflexivity.
  unfold is_used, is_deleted.
  destruct (decide (validity s = HASH_USED)) as [Hu|Hu].
  - rewrite bool_decide_eq_true_2 by exact Hu. simpl.
    rewrite (bool_decide_eq_false_2 (validity s = HASH_DELETED)) by congruence.
    rewrite andb_false_r.
    destruct (doKeysMatch (hashtools.key s) (keylen s) key keyLength) as [[|]| |];
      simpl; try reflexivity.
    destruct (int_op (attempt + 1)) as [a'| |]; simpl; try reflexivity. apply IH.
  - rewrite bool_decide_eq_false_2 by exact Hu. reflexivity.
Qed.

(** X11. The [stopOnInvalid] argument of the three probing functions has
    no effect: a call with the flag set gives the result and the table
    of the call without it, because a DELETED slot is accepted by the
    test that precedes the test of the flag. *)
Theorem stopOnInvalid_has_no_effect (p : HashProbe) (fuel : nat) (aarray : AssociativeArray)
    (key : list Z) (keyLength : nat) (index : Z) (stopOnInvalid : bool) (cost : option Z) :
  call_probe p fuel aarray key keyLength index stopOnInvalid cost
  = call_probe p fuel aarray key keyLength index false cost.
Proof.
  destruct p; simpl.
  - apply linearProbe_loop_stop_inert.
  - apply quadraticProbe_loop_stop_inert.
  - unfold doubleHashProbe.
    destruct (call_hash _ key keyLength (size aarray)) as [step| |]; simpl;
      try reflexivity.
    apply doubleHashProbe_loop_stop_inert.
Qed.

(** X12. A probing function that returns changes nothing in the table
    but the insert-cost counter, which does not decrease; and what it
    returns is [-1] or the index of a slot of the table. *)
Theorem probes_change_only_insertCost (p : HashProbe) (fuel : nat)
    (aarray : AssociativeArray) (key : list Z) (keyLength : nat) (index : Z)
    (stopOnInvalid : bool) (cost : option Z) (j : Z) (aarray' : AssociativeArray) :
  call_probe p fuel aarray key keyLength index stopOnInvalid cost = Ok (j, aarray') ->
  aarray' = set_insertCost aarray (insertCost aarray')
  /\ insertCost aarray <= insertCost aarray'
  /\ (j = -1 \/ 0 <= j < Z.of_nat (length (table aarray))).
Proof.
  intros H.
  assert (H' : call_probe p fuel aarray key keyLength index false cost = Ok (j, aarray')).
  { rewrite <- H. symmetry. destruct p; simpl.
    - apply linearProbe_loop_stop_inert.
    - apply quadraticProbe_loop_stop_inert.
    - unfold doubleHashProbe.
      destruct (call_hash _ key keyLength (size aarray)) as [step| |]; simpl;
        try reflexivity.
      apply doubleHashProbe_loop_stop_inert. }
  pose proof (call_probe_state _ _ _ _ _ _ _ _ _ _ H) as (n & Hn & ->). simpl.
  split; [reflexivity|]. split; [exact Hn|].
  destruct (call_probe_accepts _ _ _ _ _ _ _ _ _ H') as [->|(s & Hs & _)]; [left; reflexivity|].
  right. apply slot_Ok in Hs. destruct Hs as [Hj Hs]. apply lookup_lt_Some in Hs. lia.
Qed.

Lemma linearProbe_loop_first (T : AssociativeArray) (key : list Z) (keyLength : nat)
    (stop : bool) (todo : nat) :
  0 < size T ->
  forall (cur j : Z) (T' : AssociativeArray),
    0 <= cur < size T ->
    linearProbe_loop todo T key keyLength stop cur = Ok (j, T') ->
    (j = -1 /\ T' = T
     /\ forall d, 1 <= d <= Z.of_nat todo -> rejects T key keyLength ((cur + d) mod size T))
    \/ exists d, 1 <= d <= Z.of_nat todo /\ j = (cur + d) mod size T
                 /\ accepts T key keyLength j
                 /\ (forall d', 1 <= d' < d ->
                       rejects T key keyLength ((cur + d') mod size T))
                 /\ only_insertCost T T'.
Proof.
  intros Hsize. induction todo as [|todo IH]; intros cur j T' Hcur H; simpl in H.
  - injection H as <- <-. left. split; [reflexivity|]. split; [reflexivity|]. lia.
  - inv_bind H as next eqn:En. apply int_op_Ok in En. destruct En as [-> _].
    rewrite c_mod_pos in H by lia. simpl in H.
    assert (Hcur' : 0 <= (cur + 1) mod size T < size T) by (apply Z.mod_pos_bound; lia).
    inv_bind H as s eqn:Es. inv_bind H as hit eqn:Eh.
    apply hit_cases in Eh.
    assert (Hshift : forall d, (cur + 1) mod size T + (d - 1) = (cur + 1) mod size T + d - 1)
      by (intros; lia).
    assert (Hmod : forall d, ((cur + 1) mod size T + d) mod size T
                             = (cur + (d + 1)) mod size T).
    { intros d. rewrite Zplus_mod_idemp_l. f_equal. lia. }
    destruct Eh as [[-> Hn]|[Hu Hm]].
    + injection H as <- <-. right. exists 1.
      split; [lia|]. split; [reflexivity|].
      split; [exists s; auto|]. split; [intros d' Hd'; lia|].
      unfold is_used. rewrite bool_decide_eq_false_2 by exact Hn. simpl.
      apply only_insertCost_bump.
    + destruct hit.
      * injection H as <- <-. right. exists 1.
        split; [lia|]. split; [reflexivity|].
        split; [exists s; auto|]. split; [intros d' Hd'; lia|].
        unfold is_used. rewrite bool_decide_eq_true_2 by exact Hu. simpl.
        apply only_insertCost_refl.
      * rewrite (is_deleted_used _ Hu), andb_false_r in H.
        assert (Hrej : rejects T key keyLength ((cur + 1) mod size T))
          by (exists s; auto).
        destruct (IH _ _ _ Hcur' H) as [(-> & -> & Hall)|(d & Hd & -> & Hacc & Hbefore & Hc)].
        -- left. split; [reflexivity|]. split; [reflexivity|].
           intros d Hd. destruct (decide (d = 1)) as [->|Hd1]; [exact Hrej|].
           replace (cur + d) with (cur + (d - 1 + 1)) by lia. rewrite <- Hmod.
           apply Hall. lia.
        -- right. exists (d + 1). split; [lia|]. split; [apply Hmod|].
           split; [exact Hacc|]. split; [|exact Hc].
           intros d' Hd'. destruct (decide (d' = 1)) as [->|Hd1]; [exact Hrej|].
           replace (cur + d') with (cur + (d' - 1 + 1)) by lia. rewrite <- Hmod.
           apply Hbefore. lia.
Qed.

(** X13. [linearProbe] from a slot index looks at the slots that follow
    it, one after the other and around the end of the table, and returns
    the first that is not USED or holds the key; it returns [-1], with the
    table unchanged, when each of the [size] slots is USED by another
    key. *)
Theorem linearProbe_returns_first_accepted (aarray : AssociativeArray) (key : list Z)
    (keyLength : nat) (index : Z) (stopOnInvalid : bool) (cost : option Z) (j : Z)
    (aarray' : AssociativeArray) :
  0 <= index < size aarray ->
  linearProbe aarray key keyLength index stopOnInvalid cost = Ok (j, aarray') ->
  (j = -1 /\ aarray' = aarray
   /\ forall i, 0 <= i < size aarray -> rejects aarray key keyLength i)
  \/ exists d, 1 <= d <= size aarray /\ j = (index + d) mod size aarray
               /\ accepts aarray key keyLength j
               /\ (forall d', 1 <= d' < d ->
                     rejects aarray key keyLength ((index + d') mod size aarray))
               /\ only_insertCost aarray aarray'.
Proof.
  intros Hindex H. unfold linearProbe in H.
  assert (Hsize : 0 < size aarray) by lia.
  destruct (linearProbe_loop_first _ _ _ _ _ Hsize _ _ _ Hindex H)
    as [(-> & -> & Hall)|(d & Hd & Hj & Hacc & Hbefore & Hc)].
  - left. split; [reflexivity|]. split; [reflexivity|].
    intros i Hi. destruct (decide (i = index)) as [->|Hne].
    + specialize (Hall (size aarray) ltac:(lia)).
      rewrite <- (Z.mul_1_l (size aarray)) in Hall at 1.
      rewrite Z.mod_add, Z.mod_small in Hall by lia. exact Hall.
    + pose proof (Z.mod_pos_bound (i - index) (size aarray) ltac:(lia)) as Hb.
      assert (Hnz : (i - index) mod size aarray <> 0).
      { intros H0. apply Z.mod_divide in H0; [|lia]. destruct H0 as [q Hq].
        assert (q = 0) by nia. subst q. lia. }
      specialize (Hall ((i - index) mod size aarray) ltac:(lia)).
      rewrite Zplus_mod_idemp_r in Hall.
      replace (index + (i - index)) with i in Hall by lia.
      rewrite Z.mod_small in Hall by lia. exact Hall.
  - right. exists d. split; [lia|]. auto.
Qed.

(** * Comparing keys *)

(** X14. [doKeysMatch] on two keys whose bytes are readable up to their
    lengths is exact byte and length equality, and does not depend on the
    order of the two keys; keys of different lengths do not match
    whatever their pointers are. *)
Theorem doKeysMatch_exact (key1 : list Z) (key1len : nat) (key2 : list Z) (key2len : nat) :
  (key1len <= length key1)%nat -> (key2len <= length key2)%nat ->
  (exists m, doKeysMatch key1 key1len key2 key2len = Ok m
             /\ (m = true <-> same_key key1 key1len key2 key2len))
  /\ doKeysMatch key2 key2len key1 key1len = doKeysMatch key1 key1len key2 key2len
  /\ (key1len <> key2len -> doKeysMatch [] key1len [] key2len = Ok false).
Proof.
  intros H1 H2. split; [apply doKeysMatch_defined; assumption|].
  split; [apply doKeysMatch_sym|].
  intros Hne. unfold doKeysMatch.
  rewrite (proj2 (Nat.eqb_neq _ _) Hne). reflexivity.
Qed.

(** * A table that was just created *)

(** X15. [aaCreateAssociativeArray] returns no table when
    [getLargerPrime] gives less than 1; otherwise it returns a table of
    that capacity whose slots are all EMPTY, with an entry count and cost
    counters of 0, in which the search and the deletion of every key that
    hashes to a slot index return [NULL] and change nothing, and whose
    traversal calls the user function on nothing and returns 1. *)
Theorem aaCreateAssociativeArray_empty (getLargerPrime : Z -> Z) (n : Z)
    (probingStrategy hashPrimary hashSecondary : string) :
  (getLargerPrime n < 1 ->
   aaCreateAssociativeArray getLargerPrime n probingStrategy hashPrimary hashSecondary
   = None)
  /\ (1 <= getLargerPrime n ->
      exists t,
        aaCreateAssociativeArray getLargerPrime n probingStrategy hashPrimary hashSecondary
        = Some t
        /\ size t = getLargerPrime n
        /\ Z.of_nat (length (table t)) = size t
        /\ (forall i s, table t !! i = Some s -> s = zero_slot)
        /\ nEntries t = 0 /\ insertCost t = 0 /\ searchCost t = 0 /\ deleteCost t = 0
        /\ (forall fuel key keylen, hash_in_range t key keylen ->
              aaLookup (S fuel) t key keylen = Ok (NULL, t)
              /\ aaDelete (S fuel) t key keylen = Ok (NULL, t))
        /\ (forall (U : Type) (userfunction : list Z -> nat -> Z -> U -> Z * U) (u : U),
              aaIterateAction userfunction t u = Ok (1, u))).
Proof.
  unfold aaCreateAssociativeArray. split; intros Hn.
  - rewrite (proj2 (Z.ltb_lt _ _) Hn). reflexivity.
  - rewrite (proj2 (Z.ltb_ge _ _) Hn). eexists. split; [reflexivity|]. simpl.
    assert (Hslots : forall i s,
               replicate (Z.to_nat (getLargerPrime n)) zero_slot !! i = Some s ->
               s = zero_slot).
    { intros i s Hs. apply lookup_replicate in Hs. tauto. }
    split; [reflexivity|]. split; [rewrite length_replicate; lia|].
    split; [exact Hslots|]. repeat (split; [reflexivity|]).
    split.
    + intros fuel key keylen (index & Hh & Hi). simpl in Hh, Hi.
      unfold aaLookup, aaDelete. simpl. rewrite Hh. simpl.
      unfold slot. simpl. rewrite (proj2 (Z.ltb_ge _ _)) by lia.
      rewrite lookup_replicate_2 by lia. simpl. split; reflexivity.
    + intros U userfunction u. unfold aaIterateAction. simpl.
      rewrite (aaIterateAction_loop_from userfunction _ _ 0)
        by (simpl; rewrite length_replicate; lia).
      simpl. rewrite drop_0, filter_replicate_none by discriminate. reflexivity.
Qed.

(** * Insertion *)

(** X16. An insertion that returns a slot fills that slot, which was not
    USED, with a copy of the key up to its first zero byte, the key
    length and the value, leaves every other slot as it was and counts
    one more entry; an insertion that returns [-1] leaves every slot and
    the entry count as they were.  In both cases the capacity and the
    search and delete cost counters stay the same. *)
Theorem aaInsert_changes_one_slot (fuel : nat) (aarray : AssociativeArray) (key : list Z)
    (keylen : nat) (value r : Z) (aarray' : AssociativeArray) :
  aaInsert fuel aarray key keylen value = Ok (r, aarray') ->
  size aarray' = size aarray /\ searchCost aarray' = searchCost aarray
  /\ deleteCost aarray' = deleteCost aarray
  /\ ((r = -1 /\ table aarray' = table aarray /\ nEntries aarray' = nEntries aarray)
      \/ 0 <= r
         /\ exists (s : KeyDataPair) (copy : list Z),
              table aarray !! Z.to_nat r = Some s /\ validity s <> HASH_USED
              /\ strdup key = Ok copy
              /\ table aarray' !! Z.to_nat r
                 = Some (mkKeyDataPair copy keylen value HASH_USED)
              /\ (forall i, i <> Z.to_nat r -> table aarray' !! i = table aarray !! i)
              /\ nEntries aarray' = nEntries aarray + 1
              /\ nEntries aarray < size aarray).
Proof.
  intros H. apply aaInsert_state in H.
  destruct H as [[-> (n & _ & ->)]|(s & copy & n & Hs & Hv & Hcopy & Hroom & _ & ->)]; simpl.
  - repeat (split; [reflexivity|]). left. repeat split.
  - repeat (split; [reflexivity|]). right.
    apply slot_Ok in Hs. destruct Hs as [Hr Hs]. split; [exact Hr|].
    exists s, copy. split; [exact Hs|]. split; [exact Hv|]. split; [exact Hcopy|].
    split; [apply list_lookup_insert_eq; eapply lookup_lt_Some, Hs|].
    split; [|split; [reflexivity | exact Hroom]].
    intros i Hi. apply list_lookup_insert_ne. congruence.
Qed.

(** X17. Under every probing function and in every table: when the
    insertion of a storable key returns a slot, the search for the key
    that follows returns the inserted value, and a second insertion of
    the key returns [-1] and leaves the slots and the entry count as the
    first insertion left them. *)
Theorem aaInsert_then_aaLookup (fuel : nat) (aarray : AssociativeArray) (key : list Z)
    (keylen : nat) (value r : Z) (aarray' : AssociativeArray) :
  aaInsert fuel aarray key keylen value = Ok (r, aarray') ->
  0 <= r -> storable_key key keylen ->
  (exists aarray'', aaLookup fuel aarray' key keylen = Ok (value, aarray''))
  /\ forall value', exists aarray'',
       aaInsert fuel aarray' key keylen value' = Ok (-1, aarray'')
       /\ table aarray'' = table aarray' /\ nEntries aarray'' = nEntries aarray'.
Proof.
  intros H Hr Hst. destruct (aaInsert_found _ _ _ _ _ _ _ H Hr Hst) as [Hfound _].
  split; [apply found_at_lookup, Hfound|].
  intros value'. destruct (found_at_insert_fails _ _ _ _ _ value' Hfound) as (T'' & Hins & Hc).
  exists T''. split; [exact Hins|]. destruct Hc as (n & _ & ->). split; reflexivity.
Qed.

(** * Search *)

Lemma aaLookup_loop_sound fuel aarray key keylen originalIndex cost index v aarray' :
  aaLookup_loop fuel aarray key keylen originalIndex cost index = Ok (v, aarray') ->
  v = NULL
  \/ exists (i : Z) (s : KeyDataPair),
       slot aarray i = Ok s /\ validity s = HASH_USED
       /\ doKeysMatch (hashtools.key s) (hashtools.keylen s) key keylen = Ok true
       /\ value s = v.
Proof.
  revert aarray index. induction fuel as [|fuel IH]; intros aarray index H; simpl in H.
  - discriminate.
  - inv_bind H as s eqn:Es. destruct (is_used s) eqn:Hu.
    + inv_bind H as m eqn:Em. destruct m.
      * injection H as <- _. right. exists index, s.
        apply bool_decide_eq_true_1 in Hu. auto.
      * inv_bind H as [j a1] eqn:Ea1.
        apply call_probe_state in Ea1. destruct Ea1 as (n & Hn & ->).
        destruct (j =? originalIndex); [injection H as <- _; left; reflexivity|].
        apply IH in H. exact H.
    + injection H as <- _. left. reflexivity.
Qed.

(** X18. A search that returns changes nothing in the table but the
    search and insert cost counters, which do not decrease; it returns
    [NULL] or the value of a USED slot whose key matches the key that
    was searched. *)
Theorem aaLookup_returns_a_stored_value (fuel : nat) (aarray : AssociativeArray)
    (key : list Z) (keylen : nat) (v : Z) (aarray' : AssociativeArray) :
  aaLookup fuel aarray key keylen = Ok (v, aarray') ->
  aarray' = with_costs aarray (insertCost aarray') (searchCost aarray') (deleteCost aarray)
  /\ insertCost aarray <= insertCost aarray'
  /\ searchCost aarray <= searchCost aarray'
  /\ (v = NULL
      \/ exists (i : nat) (s : KeyDataPair),
           table aarray !! i = Some s /\ validity s = HASH_USED
           /\ doKeysMatch (hashtools.key s) (hashtools.keylen s) key keylen = Ok true
           /\ value s = v).
Proof.
  unfold aaLookup. intros H. inv_bind H as index.
  pose proof (aaLookup_loop_sound _ _ _ _ _ _ _ _ _ H) as Hv.
  apply aaLookup_loop_state in H. destruct H as (n & m & Hn & Hm & ->). simpl.
  split; [destruct aarray; reflexivity|]. split; [exact Hn|]. split; [exact Hm|].
  destruct Hv as [->|(i & s & Hs & Hu & Hk & Hval)]; [left; reflexivity|].
  right. apply slot_Ok in Hs. destruct Hs as [_ Hs]. exists (Z.to_nat i), s. auto.
Qed.

(** X19. When no USED slot holds a key that matches, a search that
    returns gives [NULL], and a deletion that returns gives [NULL] and
    leaves every slot and the entry count as they were. *)
Theorem absent_key_is_not_found (fuel : nat) (aarray : AssociativeArray) (key : list Z)
    (keylen : nat) :
  (forall (i : nat) (s : KeyDataPair),
     table aarray !! i = Some s -> validity s = HASH_USED ->
     doKeysMatch (hashtools.key s) (hashtools.keylen s) key keylen <> Ok true) ->
  (forall v aarray', aaLookup fuel aarray key keylen = Ok (v, aarray') -> v = NULL)
  /\ (forall v aarray', aaDelete fuel aarray key keylen = Ok (v, aarray') ->
        v = NULL /\ table aarray' = table aarray /\ nEntries aarray' = nEntries aarray).
Proof.
  intros Habsent. split.
  - intros v aarray' H. unfold aaLookup in H. inv_bind H as index.
    apply aaLookup_loop_sound in H.
    destruct H as [->|(i & s & Hs & Hu & Hk & _)]; [reflexivity|].
    apply slot_Ok in Hs. destruct Hs as [_ Hs]. exfalso. eapply Habsent; eassumption.
  - intros v aarray' H. unfold aaDelete in H. inv_bind H as index.
    apply aaDelete_loop_state in H.
    destruct H as (n & m & _ & _ & [[-> ->]|(i & s & Hs & Hu & Hk & _)]).
    + repeat split.
    + apply slot_Ok in Hs. destruct Hs as [_ Hs]. exfalso. eapply Habsent; eassumption.
Qed.

(** * Deletion, then search *)

Lemma frees_slot_bump A A' j :
  frees_slot A A' j -> frees_slot (bump_insertCost A) (bump_insertCost A') j.
Proof. intros H. exact H. Qed.

Lemma linearProbe_loop_freed todo T T' key keyLength cur j T1 :
  frees_slot T T' j ->
  linearProbe_loop todo T key keyLength false cur = Ok (j, T1) ->
  exists T1', linearProbe_loop todo T' key keyLength false cur = Ok (j, T1').
Proof.
  intros (Hsize & _ & Hother & s' & Hs' & Hfree).
  revert cur. induction todo as [|todo IH]; intros cur H; simpl in H.
  - injection H as <- _. apply slot_Ok in Hs'. lia.
  - simpl. inv_bind H as next eqn:En. simpl. rewrite Hsize.
    inv_bind H as cur' eqn:Ec. simpl.
    inv_bind H as s eqn:Es. inv_bind H as hit eqn:Eh.
    assert (Hhit' : forall T0, exists T1',
               (let* s0 := slot T' j in
                let* hit0 := (if negb (is_used s0) then Ok true
                              else doKeysMatch key keyLength (hashtools.key s0) (keylen s0)) in
                if hit0 then Ok (j, if negb (is_used s0) then bump_insertCost T' else T')
                else T0) = Ok (j, T1')).
    { intros T0. rewrite Hs'. simpl. unfold is_used.
      rewrite bool_decide_eq_false_2 by exact Hfree. simpl. eexists. reflexivity. }
    apply hit_cases in Eh. destruct Eh as [[-> Hn]|[Hu Hm]].
    + injection H as <- _. apply Hhit'.
    + destruct hit.
      * injection H as <- _. apply Hhit'.
      * simpl in H.
        assert (Hne : cur' <> j).
        { intros ->. apply linearProbe_loop_accepts in H.
          destruct H as [->|(s2 & Hs2 & [Hn|Hk])].
          - apply slot_Ok in Hs'. lia.
          - rewrite Es in Hs2. injection Hs2 as <-. contradiction.
          - rewrite Es in Hs2. injection Hs2 as <-.
            rewrite doKeysMatch_sym, Hm in Hk. discriminate. }
        rewrite (Hother _ _ Hne Es). simpl. rewrite hit_used by exact Hu.
        rewrite Hm. simpl. apply IH, H.
Qed.

Lemma quadraticProbe_loop_freed fuel key keyLength index j :
  forall A A' cost cost' attempt T1,
    frees_slot A A' j ->
    quadraticProbe_loop fuel A key keyLength index false cost attempt = Ok (j, T1) ->
    exists T1', quadraticProbe_loop fuel A' key keyLength index false cost' attempt
                = Ok (j, T1').
Proof.
  induction fuel as [|fuel IH]; intros A A' cost cost' attempt T1 HA H; simpl in H.
  - discriminate.
  - pose proof HA as (Hsize & _ & Hother & s' & Hs' & Hfree).
    simpl. inv_bind H as sq eqn:Esq. simpl. inv_bind H as sum eqn:Esum. simpl.
    rewrite Hsize. inv_bind H as newIndex eqn:Ei. simpl.
    inv_bind H as s eqn:Es. inv_bind H as hit eqn:Eh.
    assert (Hhit' : newIndex = j -> exists T1',
               (let* s0 := slot A' newIndex in
                let* hit0 := (if negb (is_used s0) then Ok true
                              else doKeysMatch (hashtools.key s0) (keylen s0) key keyLength) in
                if hit0 then Ok (newIndex, if cost' is Some _ then bump_insertCost A' else A')
                else
                  let table0 := bump_insertCost A' in
                  if false && is_deleted s0 then Ok (-1, table0)
                  else let* attempt0 := int_op (attempt + 1) in
                       quadraticProbe_loop fuel table0 key keyLength index false cost' attempt0)
               = Ok (j, T1')).
    { intros ->. rewrite Hs'. simpl. unfold is_used.
      rewrite bool_decide_eq_false_2 by exact Hfree. simpl. eexists. reflexivity. }
    apply hit_cases in Eh. destruct Eh as [[-> Hn]|[Hu Hm]].
    + injection H as Hj _. apply Hhit', Hj.
    + destruct hit.
      * injection H as Hj _. apply Hhit', Hj.
      * simpl in H. inv_bind H as attempt' eqn:Ea.
        assert (Hne : newIndex <> j).
        { intros ->. apply quadraticProbe_loop_accepts in H.
          destruct H as (s2 & Hs2 & [Hn|Hk]).
          - change (slot (bump_insertCost A) j) with (slot A j) in Hs2.
            rewrite Es in Hs2. injection Hs2 as <-. contradiction.
          - change (slot (bump_insertCost A) j) with (slot A j) in Hs2.
            rewrite Es in Hs2. injection Hs2 as <-. rewrite Hm in Hk. discriminate. }
        rewrite (Hother _ _ Hne Es). simpl. rewrite hit_used by exact Hu.
        rewrite Hm. simpl.
        eapply (IH (bump_insertCost A) (bump_insertCost A')); [|exact H].
        apply frees_slot_bump, HA.
Qed.

Lemma doubleHashProbe_loop_freed fuel key keyLength index j :
  forall A A' step attempt T1,
    frees_slot A A' j ->
    doubleHashProbe_loop fuel A key keyLength index false step attempt = Ok (j, T1) ->
    exists T1', doubleHashProbe_loop fuel A' key keyLength index false step attempt
                = Ok (j, T1').
Proof.
  induction fuel as [|fuel IH]; intros A A' step attempt T1 HA H; simpl in H.
  - discriminate.
  - pose proof HA as (Hsize & _ & Hother & s' & Hs' & Hfree).
    simpl. inv_bind H as prod eqn:Esq. simpl. inv_bind H as sum eqn:Esum. simpl.
    rewrite Hsize. inv_bind H as newIndex eqn:Ei. simpl.
    inv_bind H as s eqn:Es. inv_bind H as hit eqn:Eh.
    assert (Hhit' : newIndex = j -> exists T1',
               (let* s0 := slot A' newIndex in
                let* hit0 := (if negb (is_used s0) then Ok true
                              else doKeysMatch (hashtools.key s0) (keylen s0) key keyLength) in
                if hit0
                then Ok (newIndex, if negb (is_used s0) then bump_insertCost A' else A')
                else
                  let aarray0 := bump_insertCost A' in
                  if false && is_deleted s0 then Ok (-1, aarray0)
                  else let* attempt0 := int_op (attempt + 1) in
                       doubleHashProbe_loop fuel aarray0 key keyLength index false step
                         attempt0)
               = Ok (j, T1')).
    { intros ->. rewrite Hs'. simpl. unfold is_used.
      rewrite bool_decide_eq_false_2 by exact Hfree. simpl. eexists. reflexivity. }
    apply hit_cases in Eh. destruct Eh as [[-> Hn]|[Hu Hm]].
    + injection H as Hj _. apply Hhit', Hj.
    + destruct hit.
      * injection H as Hj _. apply Hhit', Hj.
      * simpl in H. inv_bind H as attempt' eqn:Ea.
        assert (Hne : newIndex <> j).
        { intros ->. apply doubleHashProbe_loop_accepts in H.
          destruct H as (s2 & Hs2 & [Hn|Hk]).
          - change (slot (bump_insertCost A) j) with (slot A j) in Hs2.
            rewrite Es in Hs2. injection Hs2 as <-. contradiction.
          - change (slot (bump_insertCost A) j) with (slot A j) in Hs2.
            rewrite Es in Hs2. injection Hs2 as <-. rewrite Hm in Hk. discriminate. }
        rewrite (Hother _ _ Hne Es). simpl. rewrite hit_used by exact Hu.
        rewrite Hm. simpl.
        eapply (IH (bump_insertCost A) (bump_insertCost A')); [|exact H].
        apply frees_slot_bump, HA.
Qed.

(** A probe that returned slot [j] returns it again once slot [j] is not
    USED any more. *)
Lemma call_probe_freed p fuel T T' key keyLength index cost cost' j T1 :
  frees_slot T T' j ->
  call_probe p fuel T key keyLength index false cost = Ok (j, T1) ->
  exists T1', call_probe p fuel T' key keyLength index false cost' = Ok (j, T1').
Proof.
  intros HT H. destruct p; simpl in *.
  - unfold linearProbe in *. pose proof HT as (-> & _).
    eapply linearProbe_loop_freed; eassumption.
  - eapply quadraticProbe_loop_freed; eassumption.
  - unfold doubleHashProbe in *. pose proof HT as (Hsize & Hsec & _).
    rewrite Hsize, Hsec. inv_bind H as step eqn:Est. simpl.
    eapply doubleHashProbe_loop_freed; eassumption.
Qed.

(** The table after the deletion of the key from slot [j]. *)
Lemma frees_slot_delete (T : AssociativeArray) (j : Z) (s : KeyDataPair) (n m c : Z) :
  slot T j = Ok s ->
  frees_slot T
    (set_searchCost
       (set_table (set_deleteCost (set_insertCost T n) m)
          (<[Z.to_nat j := set_validity s HASH_DELETED]> (table T))) c) j.
Proof.
  intros Hs. unfold frees_slot. simpl. split; [reflexivity|]. split; [reflexivity|].
  assert (Hslot : forall i,
             slot (set_searchCost
                     (set_table (set_deleteCost (set_insertCost T n) m)
                        (<[Z.to_nat j := set_validity s HASH_DELETED]> (table T))) c) i
             = if i =? j then Ok (set_validity s HASH_DELETED) else slot T i).
  { intros i. apply (slot_insert T j i _ s Hs). }
  split.
  - intros i si Hne Hsi. rewrite Hslot, (proj2 (Z.eqb_neq _ _) Hne). exact Hsi.
  - exists (set_validity s HASH_DELETED). rewrite Hslot, Z.eqb_refl.
    split; [reflexivity | discriminate].
Qed.

Lemma found_at_delete_then_lookup fuel T key keylen value :
  found_at fuel T key keylen value ->
  exists T2,
    aaDelete fuel T key keylen = Ok (value, T2)
    /\ nEntries T2 = nEntries T
    /\ exists T3, aaLookup fuel T2 key keylen = Ok (NULL, T3).
Proof.
  intros (index & Hh & Hcase). unfold aaDelete, aaLookup. rewrite Hh. simpl.
  destruct Hcase as [[Hf (s & Hs & Hu & Hm & Hv)]
                    |(fuel' & s0 & cost & j & a1 & -> & Hs0 & Hu0 & Hm0 & Hp & Hji & Hholds)].
  - destruct fuel as [|fuel]; [lia|]. simpl. rewrite Hs. simpl.
    unfold is_used at 1. rewrite bool_decide_eq_true_2 by exact Hu.
    rewrite Hm. simpl. rewrite Hv. eexists. split; [reflexivity|]. split; [reflexivity|].
    simpl. rewrite Hh. simpl.
    change (slot _ index) with
      (slot (set_table T (<[Z.to_nat index := set_validity s HASH_DELETED]> (table T)))
         index).
    rewrite (slot_insert T index index _ s Hs), Z.eqb_refl. simpl. eexists. reflexivity.
  - simpl. rewrite Hs0. simpl. unfold is_used at 1.
    rewrite bool_decide_eq_true_2 by exact Hu0. rewrite Hm0. simpl.
    set (Td := set_deleteCost T (deleteCost T + 1)).
    assert (Hext : extends T Td) by (unfold extends; simpl; auto).
    pose proof (holds_extends _ _ _ _ _ _ Hholds Hext) as Hholds'.
    destruct (call_probe_frame T Td key keylen value Hext _ _ _ _ _ (Some 0) _ _ Hp Hholds')
      as (T1' & Hp').
    change (hashProbe Td) with (hashProbe T). rewrite Hp'. simpl.
    rewrite (proj2 (Z.eqb_neq j index) Hji).
    pose proof (call_probe_state _ _ _ _ _ _ _ _ _ _ Hp') as (n & Hn & ->).
    destruct Hholds as (s & Hs & Hu & Hm & Hv).
    change (slot (set_insertCost Td n) j) with (slot T j). rewrite Hs. simpl.
    unfold is_used at 1. rewrite bool_decide_eq_true_2 by exact Hu.
    rewrite Hm. simpl. rewrite Hv. eexists. split; [reflexivity|]. split; [reflexivity|].
    simpl. rewrite Hh. simpl.
    set (T2 := set_table _ _).
    assert (Hfree : forall c, frees_slot T (set_searchCost T2 c) j).
    { intros c. apply (frees_slot_delete T j s n (deleteCost T + 1 + 1) c Hs). }
    pose proof (Hfree (searchCost T)) as (_ & _ & Hother & s' & Hs' & Hfs').
    assert (Hs0' : slot T2 index = Ok s0) by (apply (Hother index s0); auto).
    rewrite Hs0'. simpl. unfold is_used at 1.
    rewrite bool_decide_eq_true_2 by exact Hu0. rewrite Hm0. simpl.
    destruct (call_probe_freed (hashProbe T) (S fuel') T
                (set_searchCost T2 (searchCost T + 1)) key keylen index cost (Some 0) j a1
                (Hfree _) Hp) as (T3 & Hp3).
    change (hashProbe (set_searchCost T2 (searchCost T + 1))) with (hashProbe T).
    rewrite Hp3. simpl. rewrite (proj2 (Z.eqb_neq j index) Hji).
    pose proof (call_probe_state _ _ _ _ _ _ _ _ _ _ Hp3) as (n3 & _ & ->).
    destruct (Hfree (searchCost T + 1)) as (_ & _ & _ & s3 & Hs3 & Hfs3).
    change (slot (set_insertCost (set_searchCost T2 (searchCost T + 1)) n3) j)
      with (slot (set_searchCost T2 (searchCost T + 1)) j).
    rewrite Hs3. simpl. unfold is_used. rewrite bool_decide_eq_false_2 by exact Hfs3.
    eexists. reflexivity.
Qed.

(** X20. Under every probing function and in every table: when the
    insertion of a storable key returns a slot, the deletion of the key
    that follows returns the inserted value and leaves the entry count as
    it was, and the search for the key after that returns [NULL]. *)
Theorem aaInsert_aaDelete_aaLookup (fuel : nat) (aarray : AssociativeArray) (key : list Z)
    (keylen : nat) (value r : Z) (aarray1 : AssociativeArray) :
  aaInsert fuel aarray key keylen value = Ok (r, aarray1) ->
  0 <= r -> storable_key key keylen ->
  exists aarray2,
    aaDelete fuel aarray1 key keylen = Ok (value, aarray2)
    /\ nEntries aarray2 = nEntries aarray1
    /\ exists aarray3, aaLookup fuel aarray2 key keylen = Ok (NULL, aarray3).
Proof.
  intros H Hr Hst. destruct (aaInsert_found _ _ _ _ _ _ _ H Hr Hst) as [Hfound _].
  apply found_at_delete_then_lookup, Hfound.
Qed.

(** * A full table with linear probing *)

Lemma linearProbe_loop_all_rejected (T : AssociativeArray) (key : list Z) (keyLength : nat)
    (todo : nat) :
  0 < size T <= INT_MAX ->
  (forall i, 0 <= i < size T -> rejects T key keyLength i) ->
  forall cur, 0 <= cur < size T ->
    linearProbe_loop todo T key keyLength false cur = Ok (-1, T).
Proof.
  intros Hsize Hrej. induction todo as [|todo IH]; intros cur Hcur; simpl; [reflexivity|].
  rewrite int_op_in_range by (unfold INT_MIN; lia). simpl.
  rewrite c_mod_pos by lia. simpl.
  assert (Hcur' : 0 <= (cur + 1) mod size T < size T) by (apply Z.mod_pos_bound; lia).
  destruct (Hrej _ Hcur') as (s & Hs & Hu & Hm). rewrite Hs. simpl.
  rewrite hit_used by exact Hu. rewrite Hm. simpl. apply IH, Hcur'.
Qed.

(** X21. In a table with linear probing in which every slot is USED by a
    key that does not match, the search and the deletion of a key are
    undefined: [linearProbe] returns [-1], which is not the start index,
    and the loop goes on to read the slot at index [-1]. *)
Theorem full_linear_table_reads_slot_minus_one (fuel : nat) (aarray : AssociativeArray)
    (key : list Z) (keylen : nat) :
  hashProbe aarray = LinearProbe ->
  0 < size aarray <= INT_MAX ->
  hash_in_range aarray key keylen ->
  (forall i, 0 <= i < size aarray -> rejects aarray key keylen i) ->
  aaLookup (S (S fuel)) aarray key keylen = Undefined
  /\ aaDelete (S (S fuel)) aarray key keylen = Undefined.
Proof.
  intros Hprobe Hsize (index & Hh & Hi) Hrej.
  destruct (Hrej index Hi) as (s & Hs & Hu & Hm). rewrite doKeysMatch_sym in Hm.
  assert (Hm1 : slot aarray (-1) = Undefined) by reflexivity.
  unfold aaLookup, aaDelete. rewrite Hh. simpl. rewrite Hs. simpl.
  unfold is_used. rewrite bool_decide_eq_true_2 by exact Hu. rewrite Hm. simpl.
  rewrite Hprobe. simpl. unfold linearProbe. split.
  - rewrite (linearProbe_loop_all_rejected (set_searchCost aarray (searchCost aarray + 1)))
      by (simpl; auto).
    simpl. destruct index; [reflexivity | reflexivity | lia].
  - rewrite (linearProbe_loop_all_rejected (set_deleteCost aarray (deleteCost aarray + 1)))
      by (simpl; auto).
    simpl. destruct index; [reflexivity | reflexivity | lia].
Qed.

(** * Sequences of operations *)

Lemma run_operation_step fuel aarray op r aarray' :
  run_operation fuel aarray op = Ok (r, aarray') ->
  same_configuration aarray aarray'
  /\ (forall i : nat, slot_step op (table aarray !! i) (table aarray' !! i))
  /\ (length (used_slots aarray') <= length (used_slots aarray) + 1)%nat
  /\ (nEntries aarray' = nEntries aarray
      /\ (length (used_slots aarray') <= length (used_slots aarray))%nat
      \/ nEntries aarray' = nEntries aarray + 1 /\ nEntries aarray < size aarray).
Proof.
  assert (Hsame : forall n, same_configuration aarray (set_insertCost aarray n)).
  { intros n. unfold same_configuration. simpl. tauto. }
  destruct op as [k l v|k l|k l]; simpl; intros H.
  - apply aaInsert_state in H.
    destruct H as [[_ (n & _ & ->)]|(s & copy & n & Hs & Hv & Hcopy & Hroom & _ & ->)].
    + split; [apply Hsame|]. split; [intros i; left; reflexivity|].
      simpl. split; [unfold used_slots; simpl; lia|]. left.
      split; [reflexivity | unfold used_slots; simpl; lia].
    + apply slot_Ok in Hs. destruct Hs as [Hr Hs].
      split; [unfold same_configuration; simpl; rewrite length_insert; tauto|].
      split.
      * intros i. simpl. destruct (decide (i = Z.to_nat r)) as [->|Hne].
        -- right. left. exists k, l, v, s, copy.
           split; [reflexivity|]. split; [exact Hs|]. split; [exact Hv|].
           split; [exact Hcopy|].
           apply list_lookup_insert_eq. eapply lookup_lt_Some, Hs.
        -- left. apply list_lookup_insert_ne. congruence.
      * unfold used_slots. simpl.
        rewrite (filter_insert_length (fun s => validity s = HASH_USED) (table aarray)
                   (Z.to_nat r) (mkKeyDataPair copy l v HASH_USED) s Hs Hv eq_refl).
        split; [lia|]. right. split; [reflexivity | exact Hroom].
  - unfold aaLookup in H. inv_bind H as index.
    apply aaLookup_loop_state in H. destruct H as (n & m & _ & _ & ->).
    split; [unfold same_configuration; simpl; tauto|].
    split; [intros i; left; reflexivity|].
    simpl. split; [unfold used_slots; simpl; lia|]. left.
    split; [reflexivity | unfold used_slots; simpl; lia].
  - unfold aaDelete in H. inv_bind H as index.
    apply aaDelete_loop_state in H.
    destruct H as (n & m & _ & _ & [[_ ->]|(i & s & Hs & Hu & _ & _ & ->)]).
    + split; [unfold same_configuration; simpl; tauto|].
      split; [intros i; left; reflexivity|].
      simpl. split; [unfold used_slots; simpl; lia|]. left.
      split; [reflexivity | unfold used_slots; simpl; lia].
    + apply slot_Ok in Hs. destruct Hs as [Hi Hs].
      split; [unfold same_configuration; simpl; rewrite length_insert; tauto|].
      assert (Hcount : (length (filter (fun s => validity s = HASH_USED)
                                  (<[Z.to_nat i := set_validity s HASH_DELETED]>
                                     (table aarray)))
                        <= length (filter (fun s => validity s = HASH_USED) (table aarray)))%nat).
      { clear - Hs. revert Hs. generalize (Z.to_nat i) as n. generalize (table aarray) as l.
        induction l as [|a l IH]; intros [|n] Hs; simpl in *; try discriminate.
        - injection Hs as ->.
          rewrite (filter_cons_False _ (set_validity s HASH_DELETED)) by discriminate.
          destruct (decide (validity s = HASH_USED)) as [Hu|Hu].
          + rewrite filter_cons_True by exact Hu. simpl. lia.
          + rewrite filter_cons_False by exact Hu. lia.
        - destruct (decide (validity a = HASH_USED)) as [Ha|Ha].
          + rewrite !filter_cons_True by exact Ha. simpl. specialize (IH n Hs). lia.
          + rewrite !filter_cons_False by exact Ha. apply IH, Hs. }
      split.
      * intros j. simpl. destruct (decide (j = Z.to_nat i)) as [->|Hne].
        -- right. right. exists k, l, s.
           split; [reflexivity|]. split; [exact Hs|]. split; [exact Hu|].
           apply list_lookup_insert_eq. eapply lookup_lt_Some, Hs.
        -- left. apply list_lookup_insert_ne. congruence.
      * unfold used_slots. simpl. split; [lia|]. left. split; [reflexivity | exact Hcount].
Qed.

Lemma run_operation_table_step fuel aarray op r aarray' :
  run_operation fuel aarray op = Ok (r, aarray') ->
  table_step op (table aarray) (table aarray').
Proof.
  destruct op as [k l v|k l|k l]; simpl; intros H.
  - apply aaInsert_state in H.
    destruct H as [[_ (n & _ & ->)]|(s & copy & n & Hs & Hv & Hcopy & _ & _ & ->)].
    + left. reflexivity.
    + apply slot_Ok in Hs. destruct Hs as [_ Hs].
      right. left. exists k, l, v, (Z.to_nat r), s, copy. simpl. auto.
  - unfold aaLookup in H. inv_bind H as index.
    apply aaLookup_loop_state in H. destruct H as (n & m & _ & _ & ->).
    left. reflexivity.
  - unfold aaDelete in H. inv_bind H as index.
    apply aaDelete_loop_state in H.
    destruct H as (n & m & _ & _ & [[_ ->]|(i & s & Hs & Hu & _ & _ & ->)]).
    + left. reflexivity.
    + apply slot_Ok in Hs. destruct Hs as [_ Hs].
      right. right. exists k, l, (Z.to_nat i), s. simpl. auto.
Qed.

(** X22. One insertion, search or deletion that returns leaves the slot
    array as it was, with two exceptions: an insertion may replace one
    slot that was not USED, EMPTY or DELETED, by a USED slot with the
    copy of the key, the key length and the value; a deletion may make
    one USED slot DELETED and keeps its key, length and value.  In both
    every other slot is as it was: the slot array afterwards is the one
    before with that one slot replaced.  The strategies, their names, the
    capacity and the number of slots stay the same. *)
Theorem run_operation_slot_transitions (fuel : nat) (aarray : AssociativeArray)
    (op : Operation) (r : Z) (aarray' : AssociativeArray) :
  run_operation fuel aarray op = Ok (r, aarray') ->
  same_configuration aarray aarray'
  /\ table_step op (table aarray) (table aarray').
Proof.
  intros H. split.
  - apply run_operation_step in H. tauto.
  - eapply run_operation_table_step, H.
Qed.

(** X23. Along every sequence of insertions, searches and deletions that
    returns, the configuration of the table stays the same, a table whose
    slot array has [size] slots keeps that property, and a slot that is
    not EMPTY never becomes EMPTY again. *)
Theorem slots_never_return_to_EMPTY (fuel : nat) (ops : list Operation) :
  forall (aarray : AssociativeArray) (rs : list Z) (aarray' : AssociativeArray),
    run_operations fuel aarray ops = Ok (rs, aarray') ->
    same_configuration aarray aarray'
    /\ (well_formed aarray -> well_formed aarray')
    /\ forall (i : nat) (s : KeyDataPair),
         table aarray !! i = Some s -> validity s <> HASH_EMPTY ->
         exists s', table aarray' !! i = Some s' /\ validity s' <> HASH_EMPTY.
Proof.
  assert (Hwf : forall a a', same_configuration a a' -> well_formed a -> well_formed a').
  { intros a a' (_ & _ & _ & _ & _ & _ & Hsz & Hlen) [H1 H2].
    unfold well_formed. rewrite Hsz, Hlen. auto. }
  induction ops as [|op ops IH]; intros aarray rs aarray' Hrun; simpl in Hrun.
  - injection Hrun as <- <-.
    split; [unfold same_configuration; tauto|]. split; [auto|]. eauto.
  - inv_bind Hrun as [r a1] eqn:E1. inv_bind Hrun as [rs' a2] eqn:E2.
    injection Hrun as <- <-.
    apply run_operation_step in E1. destruct E1 as (Hc1 & Hstep & _).
    destruct (IH _ _ _ E2) as (Hc2 & _ & Hrest).
    assert (Hc : same_configuration aarray a2).
    { unfold same_configuration in *. intuition congruence. }
    split; [exact Hc|]. split; [apply Hwf, Hc|].
    intros i s Hs Hne.
    destruct (Hstep i) as [Heq|[(k & l & v & s0 & copy & _ & _ & _ & _ & Hafter)
                               |(k & l & s0 & _ & Hbefore & _ & Hafter)]].
    + apply (Hrest i s); [rewrite Heq; exact Hs | exact Hne].
    + apply (Hrest i _ Hafter). discriminate.
    + apply (Hrest i _ Hafter). discriminate.
Qed.

(** X24. Along every sequence of insertions, searches and deletions that
    returns, a table in which the USED slots are at most as many as the
    entry count, and the entry count at most the capacity, stays so: the
    entry count is an upper bound of the number of entries in the table,
    not their number. *)
Theorem used_slots_at_most_nEntries (fuel : nat) (ops : list Operation) :
  forall (aarray : AssociativeArray) (rs : list Z) (aarray' : AssociativeArray),
    run_operations fuel aarray ops = Ok (rs, aarray') ->
    Z.of_nat (length (used_slots aarray)) <= nEntries aarray <= size aarray ->
    Z.of_nat (length (used_slots aarray')) <= nEntries aarray' <= size aarray'.
Proof.
  induction ops as [|op ops IH]; intros aarray rs aarray' Hrun Hinv; simpl in Hrun.
  - injection Hrun as <- <-. exact Hinv.
  - inv_bind Hrun as [r a1] eqn:E1. inv_bind Hrun as [rs' a2] eqn:E2.
    injection Hrun as <- <-.
    apply run_operation_step in E1.
    destruct E1 as ((_ & _ & _ & _ & _ & _ & Hsz & _) & _ & Hused & Hcount).
    apply (IH _ _ _ E2). rewrite Hsz. lia.
Qed.

(** * The contents dump, continued *)

Lemma printableKey_rendered (bufferlen : Z) (key : list Z) (printlen : nat) :
  (printlen <= length key)%nat -> 13 <= bufferlen ->
  printableKey bufferlen key printlen = Ok (1, rendered_key bufferlen key printlen).
Proof.
  intros Hlen Hbuf. unfold rendered_key.
  destruct (forallb isprint (take printlen key)) eqn:Hprint.
  - apply printableKey_chars_output; [exact Hlen | exact Hprint | lia].
  - apply printableKey_hex_output; [exact Hlen | exact Hprint | lia].
Qed.

Lemma aaPrintContents_slot_line aarray tag (i : nat) s :
  table aarray !! i = Some s ->
  (validity s <> HASH_EMPTY -> (keylen s <= length (key s))%nat) ->
  aaPrintContents_slot aarray tag (Z.of_nat i) = Ok (line_of_slot tag (Z.of_nat i) s).
Proof.
  intros Hs Hread. unfold aaPrintContents_slot, line_of_slot.
  assert (E : slot aarray (Z.of_nat i) = Ok s).
  { apply slot_Ok. rewrite Nat2Z.id. split; [lia | exact Hs]. }
  rewrite E. simpl bind.
  destruct (validity s) eqn:Hv.
  - reflexivity.
  - rewrite printableKey_rendered by (first [apply Hread; discriminate | lia]).
    reflexivity.
  - rewrite printableKey_rendered by (first [apply Hread; discriminate | lia]).
    reflexivity.
Qed.

Lemma aaPrintContents_loop_returns (todo : nat) :
  forall aarray tag (i : nat) (out : list DumpLine),
    (i + todo <= length (table aarray))%nat ->
    keys_readable aarray ->
    exists lines, aaPrintContents_loop todo aarray tag (Z.of_nat i) out = Ok lines
                  /\ length lines = (length out + todo)%nat.
Proof.
  induction todo as [|todo IH]; intros aarray tag i out Hlen Hread; simpl.
  - exists out. split; [reflexivity | lia].
  - destruct (lookup_lt_is_Some_2 (table aarray) i ltac:(lia)) as [s Hs].
    rewrite (aaPrintContents_slot_line aarray tag i s Hs (Hread i s Hs)).
    simpl bind. replace (Z.of_nat i + 1) with (Z.of_nat (S i)) by lia.
    destruct (IH aarray tag (S i) (out ++ [line_of_slot tag (Z.of_nat i) s])
                ltac:(lia) Hread) as (lines & -> & Hl).
    exists lines. split; [reflexivity|]. rewrite Hl, length_app. simpl. lia.
Qed.

(** The first line of the dump is its heading. *)
Lemma aaPrintContents_heading aarray tag lines :
  aaPrintContents aarray tag = Ok lines ->
  lines !! 0%nat = Some (DumpHeader tag (size aarray)).
Proof.
  unfold aaPrintContents. intros Hrun.
  assert (Hpre : forall todo j out lines',
             aaPrintContents_loop todo aarray tag j out = Ok lines' ->
             forall n x, out !! n = Some x -> lines' !! n = Some x).
  { clear. induction todo as [|todo IH]; intros j out lines' H n x Hn; simpl in H.
    - injection H as <-. exact Hn.
    - inv_bind H as l'. eapply IH; [exact H|].
      rewrite lookup_app_l by (eapply lookup_lt_Some, Hn). exact Hn. }
  eapply Hpre; [exact Hrun | reflexivity].
Qed.

(** X25. [aaPrintContents] on a table whose slot array has [size] slots
    and whose keys are readable: the dump returns, it has one line for
    the heading and then one line per slot in index order, and the line
    of a slot is "in use" with the rendering of the slot's key for a USED
    slot, "empty (NULL)" for an EMPTY slot and "empty (deleted ...)" with
    the rendering of the slot's key for a DELETED slot, the rendering
    being what [printableKey] leaves in a buffer of 128 characters:
    [char key:[] and the key bytes, or [hex key:[0x] and two hexadecimal
    digits per byte, and the closing bracket. *)
Theorem aaPrintContents_one_line_per_slot (aarray : AssociativeArray) (tag : string) :
  well_formed aarray ->
  keys_readable aarray ->
  exists lines,
    aaPrintContents aarray tag = Ok lines
    /\ length lines = S (length (table aarray))
    /\ lines !! 0%nat = Some (DumpHeader tag (size aarray))
    /\ forall (i : nat) (s : KeyDataPair),
         table aarray !! i = Some s ->
         lines !! S i = Some (line_of_slot tag (Z.of_nat i) s).
Proof.
  intros [Hsize Hlen] Hread.
  destruct (aaPrintContents_loop_returns (Z.to_nat (size aarray)) aarray tag 0
              [DumpHeader tag (size aarray)] ltac:(lia) Hread) as (lines & Hrun & Hl).
  exists lines. split; [exact Hrun|].
  split; [rewrite Hl; simpl; lia|].
  split; [apply aaPrintContents_heading; exact Hrun|].
  intros i s Hs.
  assert (Hi : Z.of_nat i < size aarray).
  { apply lookup_lt_Some in Hs. lia. }
  destruct (aaPrintContents_lines aarray tag lines i Hrun Hi) as (line & Hline & Hn).
  rewrite (aaPrintContents_slot_line aarray tag i s Hs (Hread i s Hs)) in Hline.
  injection Hline as <-. exact Hn.
Qed.

(** * Names of strategies *)

Lemma strncmp3_eq_first_three (name lit : string) :
  (String.length lit <= 3)%nat ->
  strncmp3_eq name lit = strncmp3_eq (first_three name) lit.
Proof.
  unfold strncmp3_eq, first_three. intros Hlit.
  destruct lit as [|a [|b [|c [|d lit]]]]; simpl in Hlit; try lia;
    destruct name as [|x [|y [|z name]]]; simpl; try reflexivity;
    repeat (match goal with
            | |- context [Ascii.ascii_dec ?p ?q] => destruct (Ascii.ascii_dec p q)
            | |- context [Ascii.eqb ?p ?q] => destruct (Ascii.eqb p q)
            end; simpl; try reflexivity);
    destruct name; reflexivity.
Qed.

(** X26. Of the name of a strategy only the first three characters
    count: two names that agree on them select the same hash function and
    the same probing function. *)
Theorem strategy_names_count_three_characters (name1 name2 : string) :
  first_three name1 = first_three name2 ->
  lookupNamedHashStrategy name1 = lookupNamedHashStrategy name2
  /\ lookupNamedProbingStrategy name1 = lookupNamedProbingStrategy name2.
Proof.
  intros H. unfold lookupNamedHashStrategy, lookupNamedProbingStrategy.
  rewrite !(strncmp3_eq_first_three name1) by (simpl; lia).
  rewrite !(strncmp3_eq_first_three name2) by (simpl; lia).
  rewrite H. split; reflexivity.
Qed.

(** * The contents dump after a sequence of operations *)

Lemma run_operation_keys_readable fuel aarray op r aarray' :
  run_operation fuel aarray op = Ok (r, aarray') ->
  (forall key keylen value, op = Insert key keylen value -> storable_key key keylen) ->
  keys_readable aarray -> keys_readable aarray'.
Proof.
  intros Hrun Hop Hread i s' Hs' Hne.
  apply run_operation_step in Hrun. destruct Hrun as (_ & Hstep & _).
  destruct (Hstep i) as [Heq|[(k & l & v & s0 & copy & Hins & _ & _ & Hcopy & Hafter)
                             |(k & l & s0 & _ & Hbefore & Hu & Hafter)]].
  - apply (Hread i s'); [rewrite <- Heq; exact Hs' | exact Hne].
  - rewrite Hafter in Hs'. injection Hs' as <-. simpl.
    destruct (Hop k l v Hins) as (copy' & Hcopy' & Hlen).
    rewrite Hcopy in Hcopy'. injection Hcopy' as <-. exact Hlen.
  - rewrite Hafter in Hs'. injection Hs' as <-. simpl.
    apply (Hread i s0 Hbefore). rewrite Hu. discriminate.
Qed.

(** X27. After every sequence of insertions, searches and deletions that
    returns, on a table whose slot array has [size] slots and whose keys
    are readable, with C strings of at least [keylen] bytes with their
    terminator as the inserted keys, the keys of the table are readable
    again and the contents dump returns. *)
Theorem aaPrintContents_after_operations (fuel : nat) (ops : list Operation) :
  forall (aarray : AssociativeArray) (rs : list Z) (aarray' : AssociativeArray)
         (tag : string),
    run_operations fuel aarray ops = Ok (rs, aarray') ->
    well_formed aarray -> keys_readable aarray ->
    (forall key keylen value, Insert key keylen value ∈ ops -> storable_key key keylen) ->
    well_formed aarray' /\ keys_readable aarray'
    /\ exists lines, aaPrintContents aarray' tag = Ok lines
                     /\ length lines = S (length (table aarray)).
Proof.
  induction ops as [|op ops IH]; intros aarray rs aarray' tag Hrun Hwf Hread Hops;
    simpl in Hrun.
  - injection Hrun as <- <-. split; [exact Hwf|]. split; [exact Hread|].
    destruct Hwf as [Hsz Hlen].
    destruct (aaPrintContents_loop_returns (Z.to_nat (size aarray)) aarray tag 0
                [DumpHeader tag (size aarray)] ltac:(lia) Hread) as (lines & Hl & Hn).
    exists lines. split; [exact Hl|]. rewrite Hn. simpl. lia.
  - inv_bind Hrun as [r a1] eqn:E1. inv_bind Hrun as [rs' a2] eqn:E2.
    injection Hrun as <- <-.
    assert (Hread1 : keys_readable a1).
    { apply (run_operation_keys_readable _ _ _ _ _ E1); [|exact Hread].
      intros k l v ->. apply (Hops k l v). apply elem_of_cons. left. reflexivity. }
    apply run_operation_step in E1.
    destruct E1 as ((_ & _ & _ & _ & _ & _ & Hsz & Hlen) & _).
    assert (Hwf1 : well_formed a1).
    { destruct Hwf as [H1 H2]. unfold well_formed. rewrite Hsz, Hlen. auto. }
    rewrite <- Hlen.
    apply (IH a1 rs' a2 tag E2 Hwf1 Hread1).
    intros k l v Hin. apply (Hops k l v). apply elem_of_cons. right. exact Hin.
Qed.


(** * Deletion *)



(** * The further properties on the tables of the examples *)

Lemma hashBySum_sum_witness :
  (3 <= length key_abc)%nat /\ bytes (take 3 key_abc) /\ 255 * Z.of_nat 3 <= INT_MAX
  /\ 0 < 7
  /\ hashBySum key_abc 3 7 = Ok (sum_bytes (take 3 key_abc) mod 7)
  /\ 0 <= sum_bytes (take 3 key_abc) mod 7 < 7.
Proof.
  assert (H1 : (3 <= length key_abc)%nat) by (simpl; lia).
  assert (H2 : bytes (take 3 key_abc)) by (repeat constructor; lia).
  assert (H3 : 255 * Z.of_nat 3 <= INT_MAX) by (apply Z.leb_le; reflexivity).
  assert (H4 : 0 < 7) by lia.
  split; [exact H1|]. split; [exact H2|]. split; [exact H3|]. split; [exact H4|].
  apply (hashBySum_sum key_abc 3 7 H1 H2 H3 H4).
Defined.

Lemma hashByWeightSum_weighted_sum_witness :
  (3 <= length key_abc)%nat /\ bytes (take 3 key_abc) /\ Z.of_nat 3 <= 4000 /\ 0 < 7
  /\ hashByWeightSum key_abc 3 7 = Ok (weighted_sum (take 3 key_abc) 1 mod 7)
  /\ 0 <= weighted_sum (take 3 key_abc) 1 mod 7 < 7.
Proof.
  assert (H1 : (3 <= length key_abc)%nat) by (simpl; lia).
  assert (H2 : bytes (take 3 key_abc)) by (repeat constructor; lia).
  assert (H3 : Z.of_nat 3 <= 4000) by lia.
  assert (H4 : 0 < 7) by lia.
  split; [exact H1|]. split; [exact H2|]. split; [exact H3|]. split; [exact H4|].
  apply (hashByWeightSum_weighted_sum key_abc 3 7 H1 H2 H3 H4).
Defined.

Lemma hashByLength_ignores_key_witness :
  0 < 7 <= INT_MAX
  /\ hashByLength key_abc 3 7 = Ok (Z.of_nat 3 mod 7)
  /\ hashByLength [] 3 7 = hashByLength key_abc 3 7
  /\ 0 <= Z.of_nat 3 mod 7 < 7.
Proof.
  assert (H1 : 0 < 7 <= INT_MAX) by (split; [lia | apply Z.leb_le; reflexivity]).
  split; [exact H1|].
  apply (hashByLength_ignores_key key_abc 3 7 H1).
Defined.

Lemma matching_keys_hash_alike_witness :
  same_key key_a 1 [97; 98; 0] 1
  /\ call_hash HashByWeightSum key_a 1 7 = call_hash HashByWeightSum [97; 98; 0] 1 7.
Proof.
  assert (H1 : same_key key_a 1 [97; 98; 0] 1) by (split; reflexivity).
  split; [exact H1|].
  apply (matching_keys_hash_alike HashByWeightSum key_a 1 [97; 98; 0] 1 7 H1).
Defined.

Lemma summing_hashes_read_keyLength_bytes_witness :
  (length key_a < 3)%nat
  /\ hashBySum key_a 3 7 = Undefined
  /\ hashByWeightSum key_a 3 7 = Undefined.
Proof.
  assert (H1 : (length key_a < 3)%nat) by (simpl; lia).
  split; [exact H1|].
  apply (summing_hashes_read_keyLength_bytes key_a 3 7 H1).
Defined.

Lemma printableKey_printable_witness :
  (3 <= length key_abc)%nat /\ forallb isprint (take 3 key_abc) = true /\ 12 <= 128
  /\ printableKey 128 key_abc 3
     = Ok (1, char_key_prefix
              ++ take (Nat.min 3 (Z.to_nat (128 - 12))) key_abc ++ closing_bracket).
Proof.
  assert (H1 : (3 <= length key_abc)%nat) by (simpl; lia).
  assert (H2 : forallb isprint (take 3 key_abc) = true) by reflexivity.
  assert (H3 : 12 <= 128) by lia.
  split; [exact H1|]. split; [exact H2|]. split; [exact H3|].
  apply (printableKey_printable 128 key_abc 3 H1 H2 H3).
Defined.

Lemma printableKey_hexadecimal_witness :
  (3 <= length key_with_zero)%nat /\ forallb isprint (take 3 key_with_zero) = false
  /\ 13 <= 128
  /\ printableKey 128 key_with_zero 3
     = Ok (1, hex_key_prefix
              ++ hex_digits (take (Nat.min 3 (Z.to_nat ((128 - 14) / 2))) key_with_zero)
              ++ closing_bracket).
Proof.
  assert (H1 : (3 <= length key_with_zero)%nat) by (simpl; lia).
  assert (H2 : forallb isprint (take 3 key_with_zero) = false) by reflexivity.
  assert (H3 : 13 <= 128) by lia.
  split; [exact H1|]. split; [exact H2|]. split; [exact H3|].
  apply (printableKey_hexadecimal 128 key_with_zero 3 H1 H2 H3).
Defined.

Lemma printableKey_fits_buffer_witness :
  (3 <= length key_abc)%nat /\ 13 <= 13
  /\ exists out, printableKey 13 key_abc 3 = Ok (1, out)
                 /\ Z.of_nat (length out) + 1 <= 13.
Proof.
  assert (H1 : (3 <= length key_abc)%nat) by (simpl; lia).
  assert (H2 : 13 <= 13) by lia.
  split; [exact H1|]. split; [exact H2|].
  apply (printableKey_fits_buffer 13 key_abc 3 H1 H2).
Defined.

Lemma printableKey_small_buffer_witness :
  (3 <= length key_abc)%nat /\ 0 < 11 <= 11
  /\ printableKey 11 key_abc 3 = Undefined.
Proof.
  assert (H1 : (3 <= length key_abc)%nat) by (simpl; lia).
  assert (H2 : 0 < 11 <= 11) by lia.
  split; [exact H1|]. split; [exact H2|].
  apply (printableKey_small_buffer 11 key_abc 3 H1 H2).
Defined.

Lemma hex_digits_round_trip_witness :
  0 <= 171 < 256
  /\ exists d1 d2, hex_digits [171] = [d1; d2]
                   /\ is_hex_digit d1 /\ is_hex_digit d2
                   /\ 16 * hex_value d1 + hex_value d2 = 171.
Proof.
  assert (H1 : 0 <= 171 < 256) by lia.
  split; [exact H1|].
  apply (hex_digits_round_trip 171 H1).
Defined.

Lemma probes_change_only_insertCost_witness :
  call_probe LinearProbe 0 table_tombstone key_c 1 2 false None
  = Ok (0, set_insertCost table_tombstone 2)
  /\ set_insertCost table_tombstone 2
     = set_insertCost table_tombstone (insertCost (set_insertCost table_tombstone 2))
  /\ insertCost table_tombstone <= insertCost (set_insertCost table_tombstone 2)
  /\ (0 = -1 \/ 0 <= 0 < Z.of_nat (length (table table_tombstone))).
Proof.
  assert (H1 : call_probe LinearProbe 0 table_tombstone key_c 1 2 false None
               = Ok (0, set_insertCost table_tombstone 2)) by reflexivity.
  split; [exact H1|].
  apply (probes_change_only_insertCost LinearProbe 0 table_tombstone key_c 1 2 false None
           0 (set_insertCost table_tombstone 2) H1).
Defined.

Lemma linearProbe_returns_first_accepted_witness :
  0 <= 0 < size table_full_linear
  /\ linearProbe table_full_linear key_b 1 0 false None = Ok (2, table_full_linear)
  /\ ((2 = -1 /\ table_full_linear = table_full_linear
       /\ forall i, 0 <= i < size table_full_linear -> rejects table_full_linear key_b 1 i)
      \/ exists d, 1 <= d <= size table_full_linear
                   /\ 2 = (0 + d) mod size table_full_linear
                   /\ accepts table_full_linear key_b 1 2
                   /\ (forall d', 1 <= d' < d ->
                         rejects table_full_linear key_b 1
                           ((0 + d') mod size table_full_linear))
                   /\ only_insertCost table_full_linear table_full_linear).
Proof.
  assert (H1 : 0 <= 0 < size table_full_linear) by (simpl; lia).
  assert (H2 : linearProbe table_full_linear key_b 1 0 false None
               = Ok (2, table_full_linear)) by reflexivity.
  split; [exact H1|]. split; [exact H2|].
  apply (linearProbe_returns_first_accepted table_full_linear key_b 1 0 false None 2
           table_full_linear H1 H2).
Defined.

Lemma doKeysMatch_exact_witness :
  (1 <= length key_a)%nat /\ (1 <= length key_b)%nat
  /\ (exists m, doKeysMatch key_a 1 key_b 1 = Ok m
                /\ (m = true <-> same_key key_a 1 key_b 1))
  /\ doKeysMatch key_b 1 key_a 1 = doKeysMatch key_a 1 key_b 1
  /\ (1%nat <> 1%nat -> doKeysMatch [] 1 [] 1 = Ok false).
Proof.
  assert (H1 : (1 <= length key_a)%nat) by (simpl; lia).
  assert (H2 : (1 <= length key_b)%nat) by (simpl; lia).
  split; [exact H1|]. split; [exact H2|].
  apply (doKeysMatch_exact key_a 1 key_b 1 H1 H2).
Defined.

Lemma aaInsert_changes_one_slot_witness :
  aaInsert 1 table_tombstone key_c 1 300 = Ok (1, table_tombstone_with_c)
  /\ size table_tombstone_with_c = size table_tombstone
  /\ searchCost table_tombstone_with_c = searchCost table_tombstone
  /\ deleteCost table_tombstone_with_c = deleteCost table_tombstone
  /\ ((1 = -1 /\ table table_tombstone_with_c = table table_tombstone
       /\ nEntries table_tombstone_with_c = nEntries table_tombstone)
      \/ 0 <= 1
         /\ exists (s : KeyDataPair) (copy : list Z),
              table table_tombstone !! Z.to_nat 1 = Some s /\ validity s <> HASH_USED
              /\ strdup key_c = Ok copy
              /\ table table_tombstone_with_c !! Z.to_nat 1
                 = Some (mkKeyDataPair copy 1 300 HASH_USED)
              /\ (forall i, i <> Z.to_nat 1 ->
                    table table_tombstone_with_c !! i = table table_tombstone !! i)
              /\ nEntries table_tombstone_with_c = nEntries table_tombstone + 1
              /\ nEntries table_tombstone < size table_tombstone).
Proof.
  assert (H1 : aaInsert 1 table_tombstone key_c 1 300 = Ok (1, table_tombstone_with_c))
    by reflexivity.
  split; [exact H1|].
  apply (aaInsert_changes_one_slot 1 table_tombstone key_c 1 300 1
           table_tombstone_with_c H1).
Defined.

Lemma aaInsert_then_aaLookup_witness :
  aaInsert 1 table_tombstone key_c 1 300 = Ok (1, table_tombstone_with_c)
  /\ 0 <= 1 /\ storable_key key_c 1
  /\ (exists aarray'', aaLookup 1 table_tombstone_with_c key_c 1 = Ok (300, aarray''))
  /\ forall value', exists aarray'',
       aaInsert 1 table_tombstone_with_c key_c 1 value' = Ok (-1, aarray'')
       /\ table aarray'' = table table_tombstone_with_c
       /\ nEntries aarray'' = nEntries table_tombstone_with_c.
Proof.
  assert (H1 : aaInsert 1 table_tombstone key_c 1 300 = Ok (1, table_tombstone_with_c))
    by reflexivity.
  assert (H2 : 0 <= 1) by lia.
  assert (H3 : storable_key key_c 1) by (eexists; split; [reflexivity | simpl; lia]).
  split; [exact H1|]. split; [exact H2|]. split; [exact H3|].
  apply (aaInsert_then_aaLookup 1 table_tombstone key_c 1 300 1 table_tombstone_with_c
           H1 H2 H3).
Defined.

Lemma aaLookup_returns_a_stored_value_witness :
  aaLookup 2 table_full_linear key_b 1 = Ok (200, with_costs table_full_linear 2 2 0)
  /\ with_costs table_full_linear 2 2 0
     = with_costs table_full_linear (insertCost (with_costs table_full_linear 2 2 0))
         (searchCost (with_costs table_full_linear 2 2 0)) (deleteCost table_full_linear)
  /\ insertCost table_full_linear <= insertCost (with_costs table_full_linear 2 2 0)
  /\ searchCost table_full_linear <= searchCost (with_costs table_full_linear 2 2 0)
  /\ (200 = NULL
      \/ exists (i : nat) (s : KeyDataPair),
           table table_full_linear !! i = Some s /\ validity s = HASH_USED
           /\ doKeysMatch (key s) (keylen s) key_b 1 = Ok true
           /\ value s = 200).
Proof.
  assert (H1 : aaLookup 2 table_full_linear key_b 1
               = Ok (200, with_costs table_full_linear 2 2 0)) by reflexivity.
  split; [exact H1|].
  apply (aaLookup_returns_a_stored_value 2 table_full_linear key_b 1 200
           (with_costs table_full_linear 2 2 0) H1).
Defined.

Lemma absent_key_is_not_found_witness :
  (forall (i : nat) (s : KeyDataPair),
     table table_tombstone !! i = Some s -> validity s = HASH_USED ->
     doKeysMatch (key s) (keylen s) key_a 1 <> Ok true)
  /\ (forall v aarray', aaLookup 1 table_tombstone key_a 1 = Ok (v, aarray') -> v = NULL)
  /\ (forall v aarray', aaDelete 1 table_tombstone key_a 1 = Ok (v, aarray') ->
        v = NULL /\ table aarray' = table table_tombstone
        /\ nEntries aarray' = nEntries table_tombstone).
Proof.
  assert (H1 : forall (i : nat) (s : KeyDataPair),
             table table_tombstone !! i = Some s -> validity s = HASH_USED ->
             doKeysMatch (key s) (keylen s) key_a 1 <> Ok true).
  { intros [|[|[|i]]] s Hs Hv; simpl in Hs; try discriminate;
      injection Hs as <-; simpl in *; discriminate. }
  split; [exact H1|].
  apply (absent_key_is_not_found 1 table_tombstone key_a 1 H1).
Defined.

Lemma aaInsert_aaDelete_aaLookup_witness :
  aaInsert 1 table_tombstone key_c 1 300 = Ok (1, table_tombstone_with_c)
  /\ 0 <= 1 /\ storable_key key_c 1
  /\ exists aarray2,
       aaDelete 1 table_tombstone_with_c key_c 1 = Ok (300, aarray2)
       /\ nEntries aarray2 = nEntries table_tombstone_with_c
       /\ exists aarray3, aaLookup 1 aarray2 key_c 1 = Ok (NULL, aarray3).
Proof.
  assert (H1 : aaInsert 1 table_tombstone key_c 1 300 = Ok (1, table_tombstone_with_c))
    by reflexivity.
  assert (H2 : 0 <= 1) by lia.
  assert (H3 : storable_key key_c 1) by (eexists; split; [reflexivity | simpl; lia]).
  split; [exact H1|]. split; [exact H2|]. split; [exact H3|].
  apply (aaInsert_aaDelete_aaLookup 1 table_tombstone key_c 1 300 1
           table_tombstone_with_c H1 H2 H3).
Defined.

Lemma full_linear_table_reads_slot_minus_one_witness :
  hashProbe table_full_linear = LinearProbe
  /\ 0 < size table_full_linear <= INT_MAX
  /\ hash_in_range table_full_linear key_xyz 3
  /\ (forall i, 0 <= i < size table_full_linear -> rejects table_full_linear key_xyz 3 i)
  /\ aaLookup 2 table_full_linear key_xyz 3 = Undefined
  /\ aaDelete 2 table_full_linear key_xyz 3 = Undefined.
Proof.
  assert (H1 : hashProbe table_full_linear = LinearProbe) by reflexivity.
  assert (H2 : 0 < size table_full_linear <= INT_MAX)
    by (split; [reflexivity | apply Z.leb_le; reflexivity]).
  assert (H3 : hash_in_range table_full_linear key_xyz 3)
    by (exists 0; split; [reflexivity | simpl; lia]).
  assert (H4 : forall i, 0 <= i < size table_full_linear ->
                         rejects table_full_linear key_xyz 3 i).
  { intros i Hi. simpl in Hi.
    assert (Hc : i = 0 \/ i = 1 \/ i = 2) by lia.
    destruct Hc as [-> | [-> | ->]]; eexists; (split; [reflexivity|]); split; reflexivity. }
  split; [exact H1|]. split; [exact H2|]. split; [exact H3|]. split; [exact H4|].
  apply (full_linear_table_reads_slot_minus_one 0 table_full_linear key_xyz 3
           H1 H2 H3 H4).
Defined.

Lemma run_operation_slot_transitions_witness :
  run_operation 1 table_full_linear (Delete key_a 1)
  = Ok (100, table_full_linear_without_a)
  /\ same_configuration table_full_linear table_full_linear_without_a
  /\ table_step (Delete key_a 1) (table table_full_linear)
       (table table_full_linear_without_a).
Proof.
  assert (H1 : run_operation 1 table_full_linear (Delete key_a 1)
               = Ok (100, table_full_linear_without_a)) by reflexivity.
  split; [exact H1|].
  apply (run_operation_slot_transitions 1 table_full_linear (Delete key_a 1) 100
           table_full_linear_without_a H1).
Defined.

Lemma slots_never_return_to_EMPTY_witness :
  run_operations 1 table_full_linear [Delete key_a 1; Insert key_a 1 400]
  = Ok ([100; -1], table_full_linear_without_a)
  /\ same_configuration table_full_linear table_full_linear_without_a
  /\ (well_formed table_full_linear -> well_formed table_full_linear_without_a)
  /\ forall (i : nat) (s : KeyDataPair),
       table table_full_linear !! i = Some s -> validity s <> HASH_EMPTY ->
       exists s', table table_full_linear_without_a !! i = Some s'
                  /\ validity s' <> HASH_EMPTY.
Proof.
  assert (H1 : run_operations 1 table_full_linear [Delete key_a 1; Insert key_a 1 400]
               = Ok ([100; -1], table_full_linear_without_a)) by reflexivity.
  split; [exact H1|].
  apply (slots_never_return_to_EMPTY 1 [Delete key_a 1; Insert key_a 1 400]
           table_full_linear [100; -1] table_full_linear_without_a H1).
Defined.

Lemma used_slots_at_most_nEntries_witness :
  run_operations 1 table_full_linear [Delete key_a 1; Insert key_a 1 400]
  = Ok ([100; -1], table_full_linear_without_a)
  /\ Z.of_nat (length (used_slots table_full_linear)) <= nEntries table_full_linear
     <= size table_full_linear
  /\ Z.of_nat (length (used_slots table_full_linear_without_a))
     <= nEntries table_full_linear_without_a <= size table_full_linear_without_a.
Proof.
  assert (H1 : run_operations 1 table_full_linear [Delete key_a 1; Insert key_a 1 400]
               = Ok ([100; -1], table_full_linear_without_a)) by reflexivity.
  assert (H2 : Z.of_nat (length (used_slots table_full_linear))
               <= nEntries table_full_linear <= size table_full_linear)
    by (vm_compute; split; discriminate).
  split; [exact H1|]. split; [exact H2|].
  apply (used_slots_at_most_nEntries 1 [Delete key_a 1; Insert key_a 1 400]
           table_full_linear [100; -1] table_full_linear_without_a H1 H2).
Defined.

Lemma aaPrintContents_one_line_per_slot_witness :
  well_formed table_tombstone /\ keys_readable table_tombstone
  /\ exists lines,
       aaPrintContents table_tombstone "t" = Ok lines
       /\ length lines = S (length (table table_tombstone))
       /\ lines !! 0%nat = Some (DumpHeader "t" (size table_tombstone))
       /\ forall (i : nat) (s : KeyDataPair),
            table table_tombstone !! i = Some s ->
            lines !! S i = Some (line_of_slot "t" (Z.of_nat i) s).
Proof.
  assert (H1 : well_formed table_tombstone).
  { split; [split; [reflexivity | apply Z.leb_le; reflexivity] | reflexivity]. }
  assert (H2 : keys_readable table_tombstone).
  { intros [|[|[|i]]] s Hs Hv; simpl in Hs; try discriminate;
      injection Hs as <-; simpl in *; first [lia | congruence]. }
  split; [exact H1|]. split; [exact H2|].
  apply (aaPrintContents_one_line_per_slot table_tombstone "t" H1 H2).
Defined.

Lemma strategy_names_count_three_characters_witness :
  first_three "linear" = first_three "linked list"
  /\ lookupNamedHashStrategy "linear" = lookupNamedHashStrategy "linked list"
  /\ lookupNamedProbingStrategy "linear" = lookupNamedProbingStrategy "linked list".
Proof.
  assert (H1 : first_three "linear" = first_three "linked list") by reflexivity.
  split; [exact H1|].
  apply (strategy_names_count_three_characters "linear" "linked list" H1).
Defined.

Lemma aaPrintContents_after_operations_witness :
  run_operations 1 table_full_linear [Delete key_a 1; Insert key_a 1 400]
  = Ok ([100; -1], table_full_linear_without_a)
  /\ well_formed table_full_linear /\ keys_readable table_full_linear
  /\ (forall key keylen value,
        Insert key keylen value ∈ [Delete key_a 1; Insert key_a 1 400] ->
        storable_key key keylen)
  /\ well_formed table_full_linear_without_a
  /\ keys_readable table_full_linear_without_a
  /\ exists lines, aaPrintContents table_full_linear_without_a "t" = Ok lines
                   /\ length lines = S (length (table table_full_linear)).
Proof.
  assert (H1 : run_operations 1 table_full_linear [Delete key_a 1; Insert key_a 1 400]
               = Ok ([100; -1], table_full_linear_without_a)) by reflexivity.
  assert (H2 : well_formed table_full_linear).
  { split; [split; [reflexivity | apply Z.leb_le; reflexivity] | reflexivity]. }
  assert (H3 : keys_readable table_full_linear).
  { intros [|[|[|i]]] s Hs Hv; simpl in Hs; try discriminate;
      injection Hs as <-; simpl; lia. }
  assert (H4 : forall key keylen value,
             Insert key keylen value ∈ [Delete key_a 1; Insert key_a 1 400] ->
             storable_key key keylen).
  { intros key keylen value Hin.
    apply elem_of_cons in Hin. destruct Hin as [Hin|Hin]; [discriminate|].
    apply elem_of_cons in Hin. destruct Hin as [Hin|Hin];
      [|apply elem_of_nil in Hin; contradiction].
    injection Hin as -> -> _. eexists. split; [reflexivity | simpl; lia]. }
  split; [exact H1|]. split; [exact H2|]. split; [exact H3|]. split; [exact H4|].
  apply (aaPrintContents_after_operations 1 [Delete key_a 1; Insert key_a 1 400]
           table_full_linear [100; -1] table_full_linear_without_a "t" H1 H2 H3 H4).
Defined.

